(** * AutoGenre Pro: the scan/resolve and apply drivers of [src/App.tsx]

    A shallow embedding of the two batch drivers of the [App] component,
    [handleStartScan] and [handleApplyChanges], together with the data
    model of [src/types.ts].

    Modelling conventions.
    - A JavaScript [string] is a [string]; [T | null] and an optional
      field are [option T].  The separator ['/'] is ASCII, so splitting a
      byte string on it agrees with splitting the UTF-16 string.
    - [year] and [bpm] are [number | null]; the scan boundary produces
      integers for them, so they are modelled as [option Z].
    - The progress value is a JavaScript [number], an IEEE-754 binary64
      value computed with one division, one multiplication and, in the
      scan, one addition, each rounded to nearest, ties to even.  It is
      modelled as a [spec_float] with the operations of [SpecFloat] at
      precision 53 and exponent bound 1024, which is the specification of
      binary64 arithmetic.  The loop counter and the array length are
      integers below 2^53 and are converted exactly.
    - The Tauri boundary ([invoke]) is an interface over an abstract world
      [W]: each command takes the world and returns an [Outcome] (the
      promise resolved or rejected) and the next world.  Every command
      that is invoked is also appended to a log, so that "is never
      attempted" is a statement about that log.
    - [updatedFiles = [...files]] is a shallow copy: [files[i]] and
      [updatedFiles[i]] are the same object.  The inventory is therefore
      one list of records, read and written by index; the records come
      from deserialising the scan result, so distinct indices are distinct
      objects. *)

From Stdlib Require Import ZArith Lia Ascii DecimalString SpecFloat.
From stdpp Require Import base list strings sorting.

Local Open Scope string_scope.
Local Open Scope list_scope.

(** ** JavaScript values *)

(** A value caught by [catch (error)]: an [Error] instance or anything
    else (Tauri rejects with the command's error payload, usually a
    string), the latter given by its [String(...)] conversion. *)
Inductive Thrown : Type :=
  | ErrorObject (name message : string)
  | OtherValue (shown : string).

(** [error instanceof Error ? error.message : String(error)] *)
Definition errorMsg_of (error : Thrown) : string :=
  match error with
  | ErrorObject _ message => message
  | OtherValue shown => shown
  end.

(** [String(error)], as used by a template literal; for an [Error]
    instance this is [Error.prototype.toString]. *)
Definition String_of (error : Thrown) : string :=
  match error with
  | ErrorObject name message =>
      if decide (name = "") then message
      else if decide (message = "") then name
      else name +:+ ": " +:+ message
  | OtherValue shown => shown
  end.

(** A template literal applied to a non-negative integer counter. *)
Definition show_nat (n : nat) : string :=
  NilZero.string_of_uint (Nat.to_uint n).

(** Truthiness of [string | null | undefined]: the empty string, [null]
    and [undefined] are falsy. *)
Definition truthy_str (v : option string) : bool :=
  match v with
  | Some s => if decide (s = "") then false else true
  | None => false
  end.

(** Truthiness of [number | null | undefined] on integers: zero is falsy. *)
Definition truthy_num (v : option Z) : bool :=
  match v with
  | Some n => if decide (n = 0%Z) then false else true
  | None => false
  end.

(** [a || b] on [string | null]: [a] when truthy, otherwise [b]. *)
Definition or_str (a b : option string) : option string :=
  if truthy_str a then a else b.

(** [a || b] on [number | null]. *)
Definition or_num (a b : option Z) : option Z :=
  if truthy_num a then a else b.

(** [s.split(sep)] for a one-character separator: the segments between
    occurrences of [sep]; never empty, [""] splits into [[""]]. *)
Fixpoint split (sep : ascii) (s : string) : list string :=
  match s with
  | EmptyString => [EmptyString]
  | String c rest =>
      if decide (c = sep) then EmptyString :: split sep rest
      else match split sep rest with
           | seg :: segs => String c seg :: segs
           | [] => [String c EmptyString]
           end
  end.

(** [arr.pop()] as an expression: the last element, [undefined] on an
    empty array. *)
Definition pop (arr : list string) : option string := last arr.

(** ** Data model ([src/types.ts]) *)

Module Metadata.
Record t : Type := mk {
  title : option string;
  artist : option string;
  album : option string;
  genre : option string;
  year : option Z;
  bpm : option Z;
}.
End Metadata.

Inductive Confidence : Type := High | Medium | Low.

Module MetadataResult.
Record t : Type := mk {
  genre : option string;
  artist : option string;
  confidence : Confidence;
  source : string;
}.
End MetadataResult.

(** [EnhancedAudioFile extends AudioFile] *)
Record EnhancedAudioFile : Type := mkFile {
  path : string;
  filename : string;
  extension : string;
  current_metadata : option Metadata.t;
  suggested_metadata : option (list MetadataResult.t);
  selected_genre : option string;
}.

Record AppSettings : Type := mkSettings {
  spotify_client_id : string;
  spotify_client_secret : string;
  folder_pattern : string;
  backup_before_changes : bool;
  organize_files : bool;
  rename_files : bool;
}.

(** Assignments to the fields of a file object. *)
Definition set_current_metadata (m : Metadata.t) (f : EnhancedAudioFile) :=
  mkFile (path f) (filename f) (extension f) (Some m)
         (suggested_metadata f) (selected_genre f).

Definition set_path (p : string) (f : EnhancedAudioFile) :=
  mkFile p (filename f) (extension f) (current_metadata f)
         (suggested_metadata f) (selected_genre f).

Definition set_filename (n : string) (f : EnhancedAudioFile) :=
  mkFile (path f) n (extension f) (current_metadata f)
         (suggested_metadata f) (selected_genre f).

Definition set_suggested_metadata (r : list MetadataResult.t)
    (f : EnhancedAudioFile) :=
  mkFile (path f) (filename f) (extension f) (current_metadata f)
         (Some r) (selected_genre f).

(** [file.current_metadata?.field]: [undefined] when there is no record. *)
Definition chain {A} (field : Metadata.t -> option A)
    (m : option Metadata.t) : option A :=
  match m with
  | Some md => field md
  | None => None
  end.

(** [a || b] where [b] is a string: the result is always a string. *)
Definition or_default (a : option string) (b : string) : string :=
  match a with
  | Some s => if decide (s = "") then b else s
  | None => b
  end.

(** A [number]: an IEEE-754 binary64 value, with the arithmetic of
    [+], [*] and [/] on numbers. *)
Module Number.
Definition t : Type := spec_float.
Definition add (x y : t) : t := SFadd 53 1024 x y.
Definition mul (x y : t) : t := SFmul 53 1024 x y.
Definition div (x y : t) : t := SFdiv 53 1024 x y.
End Number.

(** A non-negative integer (a literal, the loop counter, an array
    length) as a number. *)
Definition num (n : nat) : Number.t :=
  binary_normalize 53 1024 (Z.of_nat n) 0 false.

(** ** The Tauri boundary *)

(** A promise that has settled. *)
Inductive Outcome (A : Type) : Type :=
  | Resolved (value : A)
  | Rejected (error : Thrown).
Arguments Resolved {A} value.
Arguments Rejected {A} error.

(** The commands behind [invoke], each a transition on the world. *)
Module Command.
Class Backend (W : Type) : Type := {
  scan_folder : string -> W -> Outcome (list EnhancedAudioFile) * W;
  fetch_metadata :
    string -> string -> W -> Outcome (list MetadataResult.t) * W;
  update_metadata : string -> Metadata.t -> bool -> W -> Outcome unit * W;
  rename_file : string -> Metadata.t -> W -> Outcome string * W;
  organize_files :
    string -> Metadata.t -> string -> W -> Outcome string * W;
}.
End Command.

(** One [invoke(...)] call with its arguments, as recorded in the log. *)
Inductive Invocation : Type :=
  | Scan_folder (path : string)
  | Fetch_metadata (artist title : string)
  | Update_metadata (file_path : string) (metadata : Metadata.t)
      (backup : bool)
  | Rename_file (file_path : string) (metadata : Metadata.t)
  | Organize_files (file_path : string) (metadata : Metadata.t)
      (base_folder : string).

(** The second argument of a [console.error] call. *)
Inductive ConsoleArg : Type :=
  | ArgThrown (error : Thrown)
  | ArgString (s : string)
  | ArgStrings (l : list string).

Section Drivers.
Context {W : Type} {backend : Command.Backend W}.

(** The component's state that the two handlers write, the world behind
    the boundary, and what an observer sees: the commands invoked, the
    console, and every value passed to [setProgress], oldest first. *)
Record Machine : Type := mkMachine {
  world : W;
  invoked : list Invocation;
  console : list (string * ConsoleArg);
  isScanning : bool;
  files : list EnhancedAudioFile;
  progress : Number.t;
  progress_log : list Number.t;
  statusMessage : string;
}.

Definition settle {A} (c : Invocation) (r : Outcome A * W) (m : Machine)
    : Outcome A * Machine :=
  (r.1, mkMachine r.2 (invoked m ++ [c]) (console m) (isScanning m)
                  (files m) (progress m) (progress_log m)
                  (statusMessage m)).

Definition invoke_scan_folder (path : string) (m : Machine) :=
  settle (Scan_folder path) (Command.scan_folder path (world m)) m.

Definition invoke_fetch_metadata (artist title : string) (m : Machine) :=
  settle (Fetch_metadata artist title)
         (Command.fetch_metadata artist title (world m)) m.

Definition invoke_update_metadata (file_path : string)
    (metadata : Metadata.t) (backup : bool) (m : Machine) :=
  settle (Update_metadata file_path metadata backup)
         (Command.update_metadata file_path metadata backup (world m)) m.

Definition invoke_rename_file (file_path : string)
    (metadata : Metadata.t) (m : Machine) :=
  settle (Rename_file file_path metadata)
         (Command.rename_file file_path metadata (world m)) m.

Definition invoke_organize_files (file_path : string)
    (metadata : Metadata.t) (base_folder : string) (m : Machine) :=
  settle (Organize_files file_path metadata base_folder)
         (Command.organize_files file_path metadata base_folder (world m))
         m.

Definition console_error (msg : string) (arg : ConsoleArg) (m : Machine) :=
  mkMachine (world m) (invoked m) (console m ++ [(msg, arg)])
            (isScanning m) (files m) (progress m) (progress_log m)
            (statusMessage m).

Definition setIsScanning (b : bool) (m : Machine) :=
  mkMachine (world m) (invoked m) (console m) b (files m) (progress m)
            (progress_log m) (statusMessage m).

Definition setFiles (l : list EnhancedAudioFile) (m : Machine) :=
  mkMachine (world m) (invoked m) (console m) (isScanning m) l
            (progress m) (progress_log m) (statusMessage m).

Definition setProgress (p : Number.t) (m : Machine) :=
  mkMachine (world m) (invoked m) (console m) (isScanning m) (files m) p
            (progress_log m ++ [p]) (statusMessage m).

Definition setStatusMessage (s : string) (m : Machine) :=
  mkMachine (world m) (invoked m) (console m) (isScanning m) (files m)
            (progress m) (progress_log m) s.

(** [for (let i = 0; i < n; i++) body] *)
Definition for_loop {S : Type} (n : nat) (body : nat -> S -> S) (s : S)
    : S :=
  foldl (fun acc i => body i acc) s (seq 0 n).

(** *** [handleApplyChanges] *)

(** The handler's local variables.  [updatedFiles] holds the file
    objects, which [files] shares. *)
Record Locals : Type := mkLocals {
  updatedFiles : list EnhancedAudioFile;
  successCount : nat;
  errorCount : nat;
  organizedCount : nat;
  errors : list string;
}.

(** The effective metadata (lines 119-126). *)
Definition updatedMetadata_of (file : EnhancedAudioFile)
    (suggestedGenre suggestedArtist : option string) : Metadata.t :=
  let cm := current_metadata file in
  Metadata.mk
    (or_str (chain Metadata.title cm) None)
    (or_str suggestedArtist (or_str (chain Metadata.artist cm) None))
    (or_str (chain Metadata.album cm) None)
    (or_str suggestedGenre (or_str (chain Metadata.genre cm) None))
    (or_num (chain Metadata.year cm) None)
    (or_num (chain Metadata.bpm cm) None).

(** The rename step (lines 138-150) on the file object; returns the
    object and [currentPath]. *)
Definition rename_step (settings : AppSettings)
    (updatedMetadata : Metadata.t) (file : EnhancedAudioFile)
    (currentPath : string) (m : Machine)
    : Machine * EnhancedAudioFile * string :=
  if rename_files settings then
    match invoke_rename_file currentPath updatedMetadata m with
    | (Resolved newPath, m') =>
        let file' := set_path newPath file in
        (m',
         set_filename
           (or_default (pop (split "/" newPath)) (filename file')) file',
         newPath)
    | (Rejected renError, m') =>
        (console_error ("Error renaming " +:+ filename file +:+ ":")
                       (ArgThrown renError) m',
         file, currentPath)
    end
  else (m, file, currentPath).

(** The organize step (lines 152-164); returns the object and the new
    [organizedCount]. *)
Definition organize_step (settings : AppSettings) (selectedFolder : string)
    (updatedMetadata : Metadata.t) (file : EnhancedAudioFile)
    (currentPath : string) (organizedCount : nat) (m : Machine)
    : Machine * EnhancedAudioFile * nat :=
  if organize_files settings && bool_decide (selectedFolder <> "") then
    match invoke_organize_files currentPath updatedMetadata selectedFolder m
    with
    | (Resolved newPath, m') =>
        (m', set_path newPath file, S organizedCount)
    | (Rejected orgError, m') =>
        (console_error ("Error organizing " +:+ filename file +:+ ":")
                       (ArgThrown orgError) m',
         file, organizedCount)
    end
  else (m, file, organizedCount).

(** Lines 111-174: one file, without the progress update.  The loop
    bound is the length of the inventory, so the lookup always finds the
    file. *)
Definition apply_file (settings : AppSettings) (selectedFolder : string)
    (i : nat) (st : Machine * Locals) : Machine * Locals :=
  let '(m, v) := st in
  match updatedFiles v !! i with
  | None => st
  | Some file =>
      match suggested_metadata file with
      | Some (top :: _) =>
          let suggestedGenre := MetadataResult.genre top in
          let suggestedArtist := MetadataResult.artist top in
          if truthy_str suggestedGenre || truthy_str suggestedArtist then
            let updatedMetadata :=
              updatedMetadata_of file suggestedGenre suggestedArtist in
            match invoke_update_metadata (path file) updatedMetadata
                    (backup_before_changes settings) m with
            | (Resolved _, m1) =>
                let file1 := set_current_metadata updatedMetadata file in
                let currentPath := path file in
                let '(m2, file2, currentPath2) :=
                  rename_step settings updatedMetadata file1 currentPath m1
                in
                let '(m3, file3, organized) :=
                  organize_step settings selectedFolder updatedMetadata
                                file2 currentPath2 (organizedCount v) m2 in
                (m3,
                 mkLocals (<[i := file3]> (updatedFiles v))
                          (S (successCount v)) (errorCount v) organized
                          (errors v))
            | (Rejected error, m1) =>
                let errorMsg := errorMsg_of error in
                (console_error ("Error updating " +:+ filename file +:+ ":")
                               (ArgString errorMsg) m1,
                 mkLocals (updatedFiles v) (successCount v)
                          (S (errorCount v)) (organizedCount v)
                          (errors v ++ [filename file +:+ ": " +:+ errorMsg]))
            end
          else st
      | _ => st
      end
  end.

(** Lines 110-177: the loop body. *)
Definition apply_iteration (settings : AppSettings)
    (selectedFolder : string) (total : nat) (i : nat)
    (st : Machine * Locals) : Machine * Locals :=
  let '(m, v) := apply_file settings selectedFolder i st in
  (setProgress
     (Number.mul (Number.div (num (i + 1)) (num total)) (num 100)) m, v).

(** Lines 185-191: the summary line. *)
Definition summary (v : Locals) : string :=
  let message :=
    "Completed! " +:+ show_nat (successCount v)
      +:+ " files updated successfully" in
  let message :=
    if decide (0 < organizedCount v)
    then message +:+ ", " +:+ show_nat (organizedCount v) +:+ " organized"
    else message in
  if decide (0 < errorCount v)
  then message +:+ ", " +:+ show_nat (errorCount v) +:+ " failed"
  else message.

(** Lines 102-108: the state in which the loop is entered. *)
Definition apply_start (m : Machine) : Machine * Locals :=
  let m := setStatusMessage "Applying metadata changes..." m in
  let m := setProgress (num 0) m in
  (m, mkLocals (files m) 0 0 0 []).

(** The state after the first [k] iterations of the loop, that is, when
    the turn of the file at index [k] begins. *)
Definition apply_upto (settings : AppSettings) (selectedFolder : string)
    (m : Machine) (k : nat) : Machine * Locals :=
  for_loop k (apply_iteration settings selectedFolder (length (files m)))
           (apply_start m).

(** Lines 101-179: everything up to [setFiles(updatedFiles)]; the
    result keeps the local variables visible. *)
Definition apply_pass (settings : AppSettings) (selectedFolder : string)
    (m : Machine) : Machine * Locals :=
  let '(m', v) := apply_upto settings selectedFolder m (length (files m)) in
  (setFiles (updatedFiles v) m', v).

Definition handleApplyChanges (settings : AppSettings)
    (selectedFolder : string) (m : Machine) : Machine :=
  let '(m, v) := apply_pass settings selectedFolder m in
  let m :=
    if decide (0 < length (errors v))
    then console_error "Metadata update errors:" (ArgStrings (errors v)) m
    else m in
  setStatusMessage (summary v) m.

(** *** [handleStartScan] *)

(** Lines 75-86: one file, without the progress update.  The scanned
    file objects are mutated in place.  Under the guard the artist and
    the title are non-empty strings, so the [default] is never taken. *)
Definition resolve_file (i : nat)
    (st : Machine * list EnhancedAudioFile)
    : Machine * list EnhancedAudioFile :=
  let '(m, scannedFiles) := st in
  match scannedFiles !! i with
  | None => st
  | Some file =>
      let cm := current_metadata file in
      if truthy_str (chain Metadata.artist cm)
         && truthy_str (chain Metadata.title cm) then
        match invoke_fetch_metadata
                (default "" (chain Metadata.artist cm))
                (default "" (chain Metadata.title cm)) m with
        | (Resolved metadata, m') =>
            (m', <[i := set_suggested_metadata metadata file]> scannedFiles)
        | (Rejected error, m') =>
            (console_error
               ("Error fetching metadata for " +:+ filename file +:+ ":")
               (ArgThrown error) m',
             scannedFiles)
        end
      else st
  end.

(** Lines 74-88: the loop body. *)
Definition resolve_iteration (total : nat) (i : nat)
    (st : Machine * list EnhancedAudioFile)
    : Machine * list EnhancedAudioFile :=
  let '(m, scannedFiles) := resolve_file i st in
  (setProgress
     (Number.add (num 50)
        (Number.mul (Number.div (num (i + 1)) (num total)) (num 50))) m,
   scannedFiles).

(** The state after the first [k] iterations of the resolution loop. *)
Definition resolve_upto (scannedFiles : list EnhancedAudioFile)
    (m : Machine) (k : nat) : Machine * list EnhancedAudioFile :=
  for_loop k (resolve_iteration (length scannedFiles)) (m, scannedFiles).

(** Lines 74-88: the resolution pass over the scanned files. *)
Definition resolution_pass (scannedFiles : list EnhancedAudioFile)
    (m : Machine) : Machine * list EnhancedAudioFile :=
  resolve_upto scannedFiles m (length scannedFiles).

Definition handleStartScan (selectedFolder : string) (m : Machine)
    : Machine :=
  if decide (selectedFolder = "") then
    setStatusMessage "Please select a folder first" m
  else
    let m := setIsScanning true m in
    let m := setStatusMessage "Scanning for audio files..." m in
    let m := setProgress (num 10) m in
    let m :=
      match invoke_scan_folder selectedFolder m with
      | (Resolved scannedFiles, m) =>
          let m := setFiles scannedFiles m in
          let m := setProgress (num 50) m in
          let m :=
            setStatusMessage
              ("Found " +:+ show_nat (length scannedFiles)
                 +:+ " audio files. Fetching metadata...") m in
          let '(m, scannedFiles) := resolution_pass scannedFiles m in
          let m := setFiles scannedFiles m in
          let m := setProgress (num 100) m in
          setStatusMessage
            ("Completed! Processed " +:+ show_nat (length scannedFiles)
               +:+ " files") m
      | (Rejected error, m) =>
          let m := console_error "Error scanning folder:" (ArgThrown error) m
          in
          setStatusMessage ("Error: " +:+ String_of error) m
      end in
    setIsScanning false m.

End Drivers.

Arguments Machine W : clear implicits.

(** ** A concrete backend and inventory

    A small scripted world used to run the drivers: the world counts the
    commands served; one folder can be scanned, the tag writer refuses
    one locked file, the renamer knows one file, the organizer always
    fails and the metadata sources know one artist. *)
Module Demo.

Definition house : MetadataResult.t :=
  MetadataResult.mk (Some "House") (Some "Daft Punk") High "X".

Definition tags (title artist : option string) (year bpm : option Z)
    : Metadata.t :=
  Metadata.mk title artist None None year bpm.

(** A freshly scanned file. *)
Definition scanned (path filename : string) (cm : option Metadata.t)
    : EnhancedAudioFile :=
  mkFile path filename "mp3" cm None None.

Definition one : EnhancedAudioFile :=
  scanned "/music/one.mp3" "one.mp3"
    (Some (tags (Some "One More Time") (Some "Daft Punk") (Some 2000%Z)
                (Some 123%Z))).

Definition locked : EnhancedAudioFile :=
  scanned "/music/locked.mp3" "locked.mp3"
    (Some (tags (Some "Around the World") (Some "Daft Punk") None None)).

(** Artist known, title unknown. *)
Definition untitled : EnhancedAudioFile :=
  scanned "/music/track03.mp3" "track03.mp3"
    (Some (tags None (Some "Daft Punk") None None)).

(** Eligible, but no source knows the artist. *)
Definition obscure : EnhancedAudioFile :=
  scanned "/music/demo.mp3" "demo.mp3"
    (Some (tags (Some "Demo") (Some "Garage Band") None (Some 0%Z))).

Definition backend : Command.Backend nat := {|
  Command.scan_folder path w :=
    (if decide (path = "/music")
     then Resolved [one; locked; untitled; obscure]
     else Rejected (OtherValue "not a directory"), S w);
  Command.fetch_metadata artist _ w :=
    (if decide (artist = "Daft Punk") then Resolved [house]
     else Rejected (OtherValue "no provider answered"), S w);
  Command.update_metadata file_path _ _ w :=
    (if decide (file_path = "/music/locked.mp3")
     then Rejected (ErrorObject "Error" "Permission denied")
     else Resolved tt, S w);
  Command.rename_file file_path _ w :=
    (if decide (file_path = "/music/one.mp3")
     then Resolved "/music/Daft Punk - One More Time.mp3"
     else Rejected (OtherValue "target exists"), S w);
  Command.organize_files _ _ _ w :=
    (Rejected (OtherValue "cannot create folder"), S w);
|}.

Definition with_suggestions (r : list MetadataResult.t)
    (f : EnhancedAudioFile) : EnhancedAudioFile :=
  set_suggested_metadata r f.

(** The inventory after a resolution pass that found [house] for three
    of the files. *)
Definition annotated : list EnhancedAudioFile :=
  [with_suggestions [house] one; with_suggestions [house] locked;
   untitled; with_suggestions [house] obscure].

Definition settings (rename organize : bool) : AppSettings :=
  mkSettings "" "" "{genre}" true organize rename.

Definition boot (inventory : list EnhancedAudioFile) : Machine nat :=
  mkMachine 0 [] [] false inventory (num 0) [] "Ready to scan".

End Demo.

(** The drivers on the concrete backend. *)
Module Run.
Import Demo.

(** The apply handler with rename and organize enabled, in [/music]. *)
Definition applied : Machine nat :=
  handleApplyChanges (backend := backend) (settings true true) "/music"
    (boot annotated).

(** The apply loop after [k] files, same settings. *)
Definition applying (k : nat) : Machine nat * Locals :=
  apply_upto (backend := backend) (settings true true) "/music"
    (boot annotated) k.

(** The resolution loop over the scanned folder after [k] files. *)
Definition resolving (k : nat) : Machine nat * list EnhancedAudioFile :=
  resolve_upto (backend := backend) [one; locked; untitled; obscure]
    (boot []) k.

Definition resolved : Machine nat * list EnhancedAudioFile :=
  resolution_pass (backend := backend) [one; locked; untitled; obscure]
    (boot []).
End Run.

(** ** Vocabulary for the statements *)

(** The element at position 0 of [suggested_metadata], when there is one. *)
Definition top_suggestion (file : EnhancedAudioFile)
    : option MetadataResult.t :=
  match suggested_metadata file with
  | Some (top :: _) => Some top
  | _ => None
  end.

(** The guard of lines 113 and 117: the apply pass works on the file. *)
Definition applicable (file : EnhancedAudioFile) : bool :=
  match top_suggestion file with
  | Some top =>
      truthy_str (MetadataResult.genre top)
      || truthy_str (MetadataResult.artist top)
  | None => false
  end.

(** The guard of line 76: the resolution pass works on the file. *)
Definition eligible (file : EnhancedAudioFile) : bool :=
  truthy_str (chain Metadata.artist (current_metadata file))
  && truthy_str (chain Metadata.title (current_metadata file)).

(** The per-file progress values of the two passes. *)
Definition apply_progress (total i : nat) : Number.t :=
  Number.mul (Number.div (num (i + 1)) (num total)) (num 100).

Definition resolve_progress (total i : nat) : Number.t :=
  Number.add (num 50)
    (Number.mul (Number.div (num (i + 1)) (num total)) (num 50)).

(** The binary64 numbers 0, 10, 50 and 100, written out: a sign, a
    53-bit mantissa and an exponent, the value being mantissa * 2^exponent
    (5629499534213120 = 10 * 2^49, 7036874417766400 = 50 * 2^47
    = 100 * 2^46). *)
Definition zero : spec_float := S754_zero false.
Definition ten : spec_float := S754_finite false 5629499534213120 (-49).
Definition fifty : spec_float := S754_finite false 7036874417766400 (-47).
Definition hundred : spec_float := S754_finite false 7036874417766400 (-46).

(** [represents x v]: [x] is the binary64 number whose value is the
    integer [v], for [0 < v < 2^53]: a positive number with a 53-bit
    mantissa [m] and an exponent [e] such that [m * 2^e = v]. *)
Definition represents (x : spec_float) (v : Z) : Prop :=
  exists m e, x = S754_finite false m e
    /\ (2 ^ 52 <= Zpos m < 2 ^ 53)%Z /\ (-52 <= e <= 0)%Z
    /\ Zpos m = (v * 2 ^ (- e))%Z.

(** [x <= y] on numbers. *)
Definition at_most (x y : spec_float) : Prop := SFleb x y = true.

(** Vocabulary for the proofs about rounding.  A non-negative exact value
    is an integer [N] read on the scale [1 / (D * 2^K)]; [trunc D K N e] and
    [rest D K N e] are its quotient and remainder by [2^e] on that scale,
    [locate] the position of the remainder relative to the midpoint. *)
Module Binary64.
Local Open Scope Z_scope.

Definition locate (r B : Z) : location :=
  if r =? 0 then loc_Exact else loc_Inexact (2 * r ?= B).

Definition grid (D K e : Z) : Z := D * 2 ^ (e + K).
Definition trunc (D K N e : Z) : Z := N / grid D K e.
Definition rest (D K N e : Z) : Z := N mod grid D K e.
Definition position (D K N e : Z) : shr_record :=
  shr_record_of_loc (trunc D K N e) (locate (rest D K N e) (grid D K e)).

(** The integer nearest to the exact value at exponent [c], ties to even,
    and the number it stands for when [c] is the exponent at which the
    value has 53 digits ([cexp]). *)
Definition nearest (D K N c : Z) : Z :=
  round_nearest_even (trunc D K N c) (locate (rest D K N c) (grid D K c)).

Definition rnd (D K N c : Z) : spec_float :=
  if nearest D K N c <? 2 ^ 53
  then S754_finite false (Z.to_pos (nearest D K N c)) c
  else S754_finite false (Z.to_pos (2 ^ 52)) (c + 1).

Definition cexp (D K N c : Z) : Prop :=
  0 <= c + K /\ 2 ^ 52 <= trunc D K N c < 2 ^ 53.

(** A positive number with a 53-bit mantissa and an exponent within
    [R] of zero, and its value on the scale [2^-2000]. *)
Definition normal_within (R : Z) (x : spec_float) : Prop :=
  exists m e, x = S754_finite false m e
    /\ 2 ^ 52 <= Zpos m < 2 ^ 53 /\ - R <= e <= R.

Definition scaled (x : spec_float) : Z :=
  match x with
  | S754_finite false m e => Zpos m * 2 ^ (e + 2000)
  | _ => 0
  end.

End Binary64.

(** A field taken over through [|| null]: the written value is the
    current one, except that a falsy current value (the empty string, the
    number 0) is written as null. *)
Definition kept_str (current written : option string) : Prop :=
  (current <> Some "" -> written = current)
  /\ (current = Some "" -> written = None).

Definition kept_num (current written : option Z) : Prop :=
  (current <> Some 0%Z -> written = current)
  /\ (current = Some 0%Z -> written = None).

(** A field the suggestion may override: the suggested value when it is
    present (neither null nor empty), otherwise the current one taken
    over as above. *)
Definition overridden (suggested current written : option string) : Prop :=
  (truthy_str suggested = true -> written = suggested)
  /\ (truthy_str suggested = false -> kept_str current written).

(** C2 in the specification's words: title, album, year and bpm are
    written exactly as the current metadata has them. *)
Definition carried_over_unchanged (file : EnhancedAudioFile)
    (written : Metadata.t) : Prop :=
  let cm := current_metadata file in
  Metadata.title written = chain Metadata.title cm
  /\ Metadata.album written = chain Metadata.album cm
  /\ Metadata.year written = chain Metadata.year cm
  /\ Metadata.bpm written = chain Metadata.bpm cm.


(** A string without the given character. *)
Fixpoint free_of (sep : ascii) (s : string) : bool :=
  match s with
  | EmptyString => true
  | String c rest => if decide (c = sep) then false else free_of sep rest
  end.

(** The effective metadata of a file: line 119 with the genre and artist
    of the element at position 0. *)
Definition effective (file : EnhancedAudioFile) : Metadata.t :=
  updatedMetadata_of file
    (top_suggestion file ≫= MetadataResult.genre)
    (top_suggestion file ≫= MetadataResult.artist).

(** ** Vocabulary for whole-pass statements *)

(** The [update_metadata] call the apply pass makes for a file. *)
Definition update_of (settings : AppSettings) (file : EnhancedAudioFile)
    : Invocation :=
  Update_metadata (path file) (effective file)
    (backup_before_changes settings).

(** The [fetch_metadata] call the resolution pass makes for a file that
    has an artist and a title. *)
Definition fetch_of (file : EnhancedAudioFile) : Invocation :=
  Fetch_metadata
    (default "" (chain Metadata.artist (current_metadata file)))
    (default "" (chain Metadata.title (current_metadata file))).

Definition is_update (c : Invocation) : bool :=
  match c with
  | Update_metadata _ _ _ => true
  | _ => false
  end.

(** A metadata record in which no field holds a falsy value: every
    field is null, a non-empty string or a non-zero number. *)
Definition no_falsy_field (md : Metadata.t) : Prop :=
  Metadata.title md <> Some ""
  /\ Metadata.artist md <> Some ""
  /\ Metadata.album md <> Some ""
  /\ Metadata.genre md <> Some ""
  /\ Metadata.year md <> Some 0%Z
  /\ Metadata.bpm md <> Some 0%Z.

(** Lines 61-72 of [handleStartScan]: the state in which the resolution
    loop is entered once [scan_folder] has resolved. *)
Definition scan_entry {W : Type} {backend : Command.Backend W}
    (selectedFolder : string) (scannedFiles : list EnhancedAudioFile)
    (m : Machine W) : Machine W :=
  let m := setIsScanning true m in
  let m := setStatusMessage "Scanning for audio files..." m in
  let m := setProgress (num 10) m in
  let m := (invoke_scan_folder selectedFolder m).2 in
  let m := setFiles scannedFiles m in
  let m := setProgress (num 50) m in
  setStatusMessage
    ("Found " +:+ show_nat (length scannedFiles)
       +:+ " audio files. Fetching metadata...") m.

(** ** The file list ([FileList], in the listing of [src/types.ts])

    What the table shows for the inventory: a placeholder row when there
    is no file, otherwise one row per file with the filename, the current
    genre, the genre of the top suggestion and a badge for its
    confidence. *)
Module FileList.

Record Badge : Type := mkBadge {
  className : string;
  text : Confidence;
}.

Record Row : Type := mkRow {
  filename_cell : string;
  current_genre_cell : string;
  new_genre_cell : string;
  confidence_cell : option Badge;
}.

Inductive Body : Type :=
  | Placeholder (text : string)
  | Rows (rows : list Row).

(** [file.suggested_metadata?.[0]] *)
Definition first_suggestion (file : EnhancedAudioFile)
    : option MetadataResult.t :=
  suggested_metadata file ≫= head.

(** The class names of the badge (lines 77-83). *)
Definition badge_class (c : Confidence) : string :=
  "px-2 py-1 rounded text-xs font-semibold "
  +:+ match c with
      | High => "bg-green-900 text-green-300"
      | Medium => "bg-yellow-900 text-yellow-300"
      | Low => "bg-red-900 text-red-300"
      end.

(** One table row (lines 66-89). *)
Definition row (file : EnhancedAudioFile) : Row :=
  mkRow (filename file)
        (or_default (chain Metadata.genre (current_metadata file)) "N/A")
        (or_default (first_suggestion file ≫= MetadataResult.genre) "-")
        (match first_suggestion file with
         | Some top =>
             Some (mkBadge (badge_class (MetadataResult.confidence top))
                           (MetadataResult.confidence top))
         | None => None
         end).

(** The table body (lines 56-91). *)
Definition render (files : list EnhancedAudioFile) : Body :=
  if decide (length files = 0) then Placeholder "No files scanned yet"
  else Rows (map row files).

End FileList.

(** ** The component around the two drivers ([App], lines 10-53 and the
    buttons of lines 206-283)

    The folder dialog and the settings store are two more commands on the
    world.  They are not entered in the command log of the drivers.  A
    handler is run to completion before the next event is taken: events
    that arrive while a handler is waiting for a command are not
    modelled. *)
Module Shell.

(** What the folder dialog resolves with: [string | string[] | null]. *)
Inductive Selection : Type :=
  | Cancelled
  | Single (path : string)
  | Multiple (paths : list string).

Class Services (W : Type) : Type := {
  open : W -> Outcome Selection * W;
  load_settings : W -> Outcome AppSettings * W;
}.

Section Component.
Context {W : Type} {backend : Command.Backend W} {services : Services W}.

Record App : Type := mkApp {
  machine : Machine W;
  selectedFolder : string;
  showSettings : bool;
  settings : AppSettings;
}.

(** The settings the component starts with (lines 16-23). *)
Definition defaults : AppSettings :=
  mkSettings "" "" "{genre}" true false false.

(** The state on first render (lines 10-23). *)
Definition initial (w : W) : App :=
  mkApp (mkMachine w [] [] false [] (num 0) [] "Ready to scan") "" false
        defaults.

(** A command has answered: the world moves on. *)
Definition answered (w : W) (m : Machine W) : Machine W :=
  mkMachine w (invoked m) (console m) (isScanning m) (files m) (progress m)
            (progress_log m) (statusMessage m).

Definition on_machine (f : Machine W -> Machine W) (a : App) : App :=
  mkApp (f (machine a)) (selectedFolder a) (showSettings a) (settings a).

Definition setSelectedFolder (p : string) (a : App) : App :=
  mkApp (machine a) p (showSettings a) (settings a).

Definition setShowSettings (b : bool) (a : App) : App :=
  mkApp (machine a) (selectedFolder a) b (settings a).

Definition setSettings (s : AppSettings) (a : App) : App :=
  mkApp (machine a) (selectedFolder a) (showSettings a) s.

(** Lines 29-36. *)
Definition loadSettings (a : App) : App :=
  match load_settings (world (machine a)) with
  | (Resolved loadedSettings, w) =>
      setSettings loadedSettings (on_machine (answered w) a)
  | (Rejected error, w) =>
      on_machine (console_error "Error loading settings:" (ArgThrown error))
                 (on_machine (answered w) a)
  end.

(** Lines 38-53. *)
Definition handleSelectFolder (a : App) : App :=
  match open (world (machine a)) with
  | (Resolved selected, w) =>
      let a := on_machine (answered w) a in
      match selected with
      | Single path =>
          if decide (path = "") then a
          else on_machine (setStatusMessage ("Selected: " +:+ path))
                          (setSelectedFolder path a)
      | Cancelled | Multiple _ => a
      end
  | (Rejected error, w) =>
      on_machine (setStatusMessage "Error selecting folder")
        (on_machine
           (console_error "Error selecting folder:" (ArgThrown error))
           (on_machine (answered w) a))
  end.

(** What the user can do.  [Mount] is the effect of lines 25-27;
    [SettingsSaved] is the callback of lines 293-296. *)
Inductive Event : Type :=
  | Mount
  | ClickSelectFolder
  | ClickScan
  | ClickApply
  | ClickSettings
  | CloseSettings
  | SettingsSaved.

(** [disabled={!selectedFolder}] (line 215) *)
Definition scan_disabled (a : App) : bool :=
  bool_decide (selectedFolder a = "").

(** [disabled={files.length === 0 || isScanning}] (line 278) *)
Definition apply_disabled (a : App) : bool :=
  bool_decide (length (files (machine a)) = 0) || isScanning (machine a).

(** One event; a disabled button does not call its handler. *)
Definition step (e : Event) (a : App) : App :=
  match e with
  | Mount => loadSettings a
  | ClickSelectFolder => handleSelectFolder a
  | ClickScan =>
      if scan_disabled a then a
      else if isScanning (machine a)
           then on_machine (setIsScanning false) a
           else on_machine (handleStartScan (selectedFolder a)) a
  | ClickApply =>
      if apply_disabled a then a
      else on_machine
             (handleApplyChanges (settings a) (selectedFolder a)) a
  | ClickSettings => setShowSettings true a
  | CloseSettings => setShowSettings false a
  | SettingsSaved =>
      on_machine (setStatusMessage "Settings saved successfully!")
                 (loadSettings a)
  end.

Definition run (events : list Event) (a : App) : App :=
  foldl (fun a e => step e a) a events.

(** What [scan_folder] resolves with is an array: it has fewer than 2^53
    entries (an array has fewer than 2^32). *)
Definition array_results : Prop :=
  forall path w scannedFiles w',
    Command.scan_folder path w = (Resolved scannedFiles, w') ->
    (Z.of_nat (length scannedFiles) < 2 ^ 53)%Z.

(** What holds of the component between two events: an inventory is only
    there with a folder selected, the progress is on the 0-100 scale (the
    scan results being arrays), and no handler has left the scanning flag
    set. *)
Definition settled (a : App) : Prop :=
  (files (machine a) <> [] -> selectedFolder a <> "")
  /\ (array_results ->
      (Z.of_nat (length (files (machine a))) < 2 ^ 53)%Z
      /\ at_most zero (progress (machine a))
      /\ at_most (progress (machine a)) hundred)
  /\ isScanning (machine a) = false.

End Component.

Arguments App W : clear implicits.

End Shell.

(** A second concrete backend, on which every command succeeds: the
    renamer and the organizer answer with fixed paths. *)
Module Studio.

Definition backend : Command.Backend nat := {|
  Command.scan_folder _ w := (Resolved [Demo.one], S w);
  Command.fetch_metadata _ _ w := (Resolved [Demo.house], S w);
  Command.update_metadata _ _ _ w := (Resolved tt, S w);
  Command.rename_file _ _ w :=
    (Resolved "/music/Daft Punk - One More Time.mp3", S w);
  Command.organize_files _ _ base_folder w :=
    (Resolved (base_folder +:+ "/House/Daft Punk - One More Time.mp3"), S w);
|}.

(** The dialog offers [/music]; the settings store cannot be read. *)
Definition services : Shell.Services nat := {|
  Shell.open w := (Resolved (Shell.Single "/music"), S w);
  Shell.load_settings w := (Rejected (OtherValue "no settings file"), S w);
|}.

(** The same, with a dialog that cannot be opened. *)
Definition headless : Shell.Services nat := {|
  Shell.open w := (Rejected (OtherValue "dialog not allowed"), S w);
  Shell.load_settings w := (Rejected (OtherValue "no settings file"), S w);
|}.

End Studio.

(** * Properties *)

(** ** [split] and [pop] *)

Lemma split_nonempty sep s : split sep s <> [].
Proof.
  destruct s as [|c rest]; cbn; [discriminate|].
  destruct (decide (c = sep)); [discriminate|].
  destruct (split sep rest); discriminate.
Qed.

(** A string without the separator is its own single segment. *)
Lemma split_free sep s : free_of sep s = true -> split sep s = [s].
Proof.
  induction s as [|c rest IH]; cbn; [reflexivity|].
  destruct (decide (c = sep)); [discriminate|].
  intros Hfree. rewrite (IH Hfree). reflexivity.
Qed.

(** Conversely, a single segment means there was no separator. *)
Lemma split_single sep s seg : split sep s = [seg] -> free_of sep s = true.
Proof.
  revert seg. induction s as [|c rest IH]; intros seg; cbn; [reflexivity|].
  destruct (decide (c = sep)).
  - intros Heq. injection Heq as _ Hrest.
    destruct (split_nonempty _ _ Hrest).
  - destruct (split sep rest) as [|seg0 segs] eqn:Hsplit.
    + destruct (split_nonempty _ _ Hsplit).
    + intros Heq. injection Heq as _ ->. apply (IH seg0). reflexivity.
Qed.

Lemma free_of_separator sep pre seg :
  free_of sep (pre +:+ String sep seg) = false.
Proof.
  induction pre as [|d pre IH]; simpl.
  - destruct (decide (sep = sep)); [reflexivity|contradiction].
  - destruct (decide (d = sep)); [reflexivity|exact IH].
Qed.

(** [s.split(sep).pop()] is the part of [s] after its last separator:
    a separator-free string [seg] such that [s] is [seg] itself or ends in
    the separator followed by [seg]. *)
Lemma pop_split sep s :
  exists seg,
    pop (split sep s) = Some seg
    /\ free_of sep seg = true
    /\ ((free_of sep s = true /\ s = seg)
        \/ exists pre, s = pre +:+ String sep seg).
Proof.
  unfold pop. induction s as [|c rest (seg & Hlast & Hfree & Hshape)].
  - exists "". cbn. auto.
  - cbn [split]. destruct (decide (c = sep)) as [->|Hne].
    + exists seg. split; [|split; [exact Hfree|right]].
      * destruct (split sep rest) as [|seg0 segs] eqn:Hsplit;
          [destruct (split_nonempty _ _ Hsplit)|exact Hlast].
      * destruct Hshape as [[_ <-] | (pre & ->)].
        -- exists "". reflexivity.
        -- exists (String sep pre). reflexivity.
    + destruct Hshape as [[Hrest <-] | (pre & Hpre)].
      * exists (String c rest). rewrite (split_free _ _ Hrest). cbn.
        destruct (decide (c = sep)); [contradiction|]. auto.
      * exists seg. destruct (split sep rest) as [|seg0 [|seg1 segs]] eqn:Hsplit.
        -- destruct (split_nonempty _ _ Hsplit).
        -- pose proof (split_single _ _ _ Hsplit) as Hcontra.
           rewrite Hpre, free_of_separator in Hcontra. discriminate.
        -- split; [exact Hlast|]. split; [exact Hfree|].
           right. exists (String c pre). rewrite Hpre. reflexivity.
Qed.

(** ** The [||] chains of the effective metadata *)

Lemma or_str_kept (current : option string) :
  kept_str current (or_str current None).
Proof.
  unfold kept_str, or_str, truthy_str.
  destruct current as [s|]; [|split; [reflexivity|discriminate]].
  destruct (decide (s = "")) as [->|Hne]; split; try reflexivity.
  - intros Hcontra. contradiction.
  - intros Heq. injection Heq as ->. contradiction.
Qed.

Lemma or_num_kept (current : option Z) :
  kept_num current (or_num current None).
Proof.
  unfold kept_num, or_num, truthy_num.
  destruct current as [n|]; [|split; [reflexivity|discriminate]].
  destruct (decide (n = 0%Z)) as [->|Hne]; split; try reflexivity.
  - intros Hcontra. contradiction.
  - intros Heq. injection Heq as ->. contradiction.
Qed.

Lemma or_str_overridden (suggested current : option string) :
  overridden suggested current (or_str suggested (or_str current None)).
Proof.
  unfold overridden. split; intros Hs.
  - unfold or_str at 1. rewrite Hs. reflexivity.
  - unfold or_str at 1. rewrite Hs. apply or_str_kept.
Qed.

(** ** Binary64 rounding

    What [binary_round_aux] computes, in terms of the exact value it is
    given: the value is truncated at the exponent at which it has 53
    digits and rounded to the nearest integer there, ties to even.  From
    this characterisation, division, multiplication and addition of
    positive numbers are monotone. *)
Module Rounding.
Import Binary64.
Local Open Scope Z_scope.

Lemma digits2_pos_bounds (p : positive) :
  2 ^ (Zpos (digits2_pos p) - 1) <= Zpos p < 2 ^ Zpos (digits2_pos p).
Proof.
  induction p as [p IH|p IH|]; cbn [digits2_pos].
  - rewrite Pos2Z.inj_succ, Z.pow_succ_r by lia.
    replace (Z.succ (Z.pos (digits2_pos p)) - 1)
      with (Z.succ (Z.pos (digits2_pos p) - 1)) by lia.
    rewrite Z.pow_succ_r by lia. lia.
  - rewrite Pos2Z.inj_succ, Z.pow_succ_r by lia.
    replace (Z.succ (Z.pos (digits2_pos p)) - 1)
      with (Z.succ (Z.pos (digits2_pos p) - 1)) by lia.
    rewrite Z.pow_succ_r by lia. lia.
  - cbn. lia.
Qed.

Lemma Zdigits2_bounds (m : Z) :
  0 < m -> 0 < Zdigits2 m /\ 2 ^ (Zdigits2 m - 1) <= m < 2 ^ Zdigits2 m.
Proof.
  destruct m as [|p|p]; try lia. intros _. cbn [Zdigits2].
  split; [lia | apply digits2_pos_bounds].
Qed.

Lemma Zdigits2_unique (m d : Z) :
  2 ^ (d - 1) <= m < 2 ^ d -> 0 < d -> Zdigits2 m = d.
Proof.
  intros [Hlo Hhi] Hd.
  assert (Hm : 0 < m) by (pose proof (Z.pow_pos_nonneg 2 (d - 1)); lia).
  destruct (Zdigits2_bounds m Hm) as (Hpos & Hlo' & Hhi').
  destruct (Z.lt_trichotomy (Zdigits2 m) d) as [Hlt | [Heq | Hgt]]; [|exact Heq|].
  - pose proof (Z.pow_le_mono_r 2 (Zdigits2 m) (d - 1)). lia.
  - pose proof (Z.pow_le_mono_r 2 d (Zdigits2 m - 1)). lia.
Qed.

Lemma pow2_pos (k : Z) : 0 <= k -> 0 < 2 ^ k.
Proof. intros. apply Z.pow_pos_nonneg; lia. Qed.

Lemma pow2_add (a b : Z) : 0 <= a -> 0 <= b -> 2 ^ (a + b) = 2 ^ a * 2 ^ b.
Proof. intros. apply Z.pow_add_r; lia. Qed.

Lemma pow2_le (a b : Z) : 0 <= a <= b -> 2 ^ a <= 2 ^ b.
Proof. intros. apply Z.pow_le_mono_r; lia. Qed.

Lemma pow2_lt (a b : Z) : 0 <= a < b -> 2 ^ a < 2 ^ b.
Proof. intros. apply Z.pow_lt_mono_r; lia. Qed.

(** [shr_1] on a non-negative mantissa. *)
Lemma shr_1_nonneg (m : Z) (r s : bool) :
  0 <= m ->
  shr_1 (Build_shr_record m r s) = Build_shr_record (m / 2) (Z.odd m) (r || s).
Proof.
  intros Hm. destruct m as [|p|p]; [reflexivity| |lia].
  destruct p as [p|p|]; cbn [shr_1 Z.odd].
  - f_equal. apply (Z.div_unique _ _ _ 1); lia.
  - f_equal. apply (Z.div_unique _ _ _ 0); lia.
  - reflexivity.
Qed.


Lemma locate_scale (r B k : Z) : 0 < k -> locate (r * k) (B * k) = locate r B.
Proof.
  intros Hk. unfold locate.
  destruct (Z.eqb_spec r 0) as [->|Hr]; [reflexivity|].
  destruct (Z.eqb_spec (r * k) 0) as [H0|_]; [nia|].
  f_equal. replace (2 * (r * k)) with (2 * r * k) by lia.
  rewrite (Z.mul_comm (2 * r)), (Z.mul_comm B).
  symmetry. apply Zmult_compare_compat_l. lia.
Qed.

Lemma new_location_locate (B r : Z) :
  0 < B -> 0 <= r < B -> new_location B r = locate r B.
Proof.
  intros HB Hr. unfold new_location, locate.
  destruct (Z.even B) eqn:Heven.
  - unfold new_location_even. destruct (Z.eqb_spec r 0); reflexivity.
  - unfold new_location_odd.
    assert (Hodd : Z.odd B = true) by (rewrite <- Z.negb_even, Heven; reflexivity).
    apply Z.odd_spec in Hodd. destruct Hodd as [k Hk].
    destruct (Z.eqb_spec r 0) as [->|Hr0]; [reflexivity|].
    f_equal.
    destruct (Z.compare_spec (2 * r + 1) B), (Z.compare_spec (2 * r) B); try reflexivity; lia.
Qed.

Lemma record_of_loc_inv (m : Z) (l : location) :
  shr_m (shr_record_of_loc m l) = m /\ loc_of_shr_record (shr_record_of_loc m l) = l.
Proof. destruct l as [|[| |]]; split; reflexivity. Qed.

(** The exact value [N / (D * 2^K)], for a positive denominator [D]. *)
Section Grid.
Variables (D K : Z).
Hypothesis HD : 0 < D.


Lemma grid_pos (e : Z) : 0 <= e + K -> 0 < grid D K e.
Proof using Type*. intros He. unfold grid. pose proof (pow2_pos (e + K) He). nia. Qed.

Lemma grid_add (e n : Z) : 0 <= e + K -> 0 <= n -> grid D K (e + n) = grid D K e * 2 ^ n.
Proof using Type*.
  intros He Hn. unfold grid.
  replace (e + n + K) with (e + K + n) by lia. rewrite pow2_add by lia. ring.
Qed.

Lemma trunc_add (N e n : Z) :
  0 <= e + K -> 0 <= n -> trunc D K N (e + n) = trunc D K N e / 2 ^ n.
Proof using Type*.
  intros He Hn. unfold trunc. rewrite grid_add by lia.
  pose proof (grid_pos e He). pose proof (pow2_pos n Hn).
  symmetry. apply Z.div_div; lia.
Qed.

Lemma trunc_nonneg (N e : Z) : 0 <= N -> 0 <= e + K -> 0 <= trunc D K N e.
Proof using Type*. intros HN He. apply Z.div_pos; [lia | apply grid_pos, He]. Qed.

Lemma trunc_mono (N1 N2 e : Z) :
  0 <= e + K -> N1 <= N2 -> trunc D K N1 e <= trunc D K N2 e.
Proof using Type*. intros He H. apply Z.div_le_mono; [apply grid_pos, He | exact H]. Qed.

(** Shifting the mantissa by one bit, with its round and sticky bits, is
    truncating the exact value one exponent higher. *)
Lemma shr_1_position (N e : Z) :
  0 <= N -> 0 <= e + K -> shr_1 (position D K N e) = position D K N (e + 1).
Proof using Type*.
  intros HN He. unfold position, trunc, rest.
  rewrite (grid_add e 1) by lia. change (2 ^ 1) with 2.
  pose proof (grid_pos e He) as HB. set (B := grid D K e) in *.
  pose proof (Z.div_mod N B ltac:(lia)) as Hdm.
  pose proof (Z.mod_pos_bound N B HB) as Hr.
  assert (Hm : 0 <= N / B) by (apply Z.div_pos; lia).
  set (m := N / B) in *. set (r := N mod B) in *.
  pose proof (Z.div_mod m 2 ltac:(lia)) as Hdm2.
  pose proof (Z.mod_pos_bound m 2 ltac:(lia)) as Hr2.
  assert (Hq : N / (B * 2) = m / 2).
  { symmetry. apply (Z.div_unique_pos _ _ _ (m mod 2 * B + r)); nia. }
  assert (Hrest : N mod (B * 2) = m mod 2 * B + r).
  { symmetry. apply (Z.mod_unique_pos _ _ (m / 2)); nia. }
  rewrite Hq, Hrest, Zmod_odd. unfold locate.
  destruct (Z.eqb_spec r 0) as [Hr0|Hr0].
  - cbn [shr_record_of_loc]. rewrite shr_1_nonneg by exact Hm.
    destruct (Z.odd m).
    + destruct (Z.eqb_spec (1 * B + r) 0); [lia|].
      destruct (Z.compare_spec (2 * (1 * B + r)) (B * 2)); try lia. reflexivity.
    + destruct (Z.eqb_spec (0 * B + r) 0); [|lia]. reflexivity.
  - destruct (Z.compare_spec (2 * r) B); cbn [shr_record_of_loc];
      rewrite shr_1_nonneg by exact Hm; destruct (Z.odd m);
      match goal with
      | |- context [?x =? 0] => destruct (Z.eqb_spec x 0); [lia|]
      end;
      match goal with
      | |- context [?x ?= ?y] => destruct (Z.compare_spec x y); try lia
      end; reflexivity.
Qed.

Lemma iter_shr_1_position (p : positive) :
  forall N e, 0 <= N -> 0 <= e + K ->
  SpecFloat.iter_pos shr_1 p (position D K N e) = position D K N (e + Zpos p).
Proof using Type*.
  induction p as [p IH|p IH|]; intros N e HN He; cbn [SpecFloat.iter_pos].
  - rewrite shr_1_position, !IH by lia. f_equal. lia.
  - rewrite !IH by lia. f_equal. lia.
  - apply shr_1_position; assumption.
Qed.

Lemma shr_position (N e n : Z) :
  0 <= N -> 0 <= e + K ->
  shr (position D K N e) e n = (position D K N (e + Z.max n 0), e + Z.max n 0).
Proof using Type*.
  intros HN He. destruct n as [|p|p]; cbn [shr].
  - rewrite Z.max_id, Z.add_0_r. reflexivity.
  - rewrite iter_shr_1_position by assumption.
    rewrite Z.max_l by lia. reflexivity.
  - rewrite Z.max_r by lia. rewrite Z.add_0_r. reflexivity.
Qed.


Lemma nearest_bounds (N c : Z) : trunc D K N c <= nearest D K N c <= trunc D K N c + 1.
Proof using Type*.
  unfold nearest, round_nearest_even.
  destruct (locate _ _) as [|[| |]]; try lia.
  destruct (Z.even _); lia.
Qed.

Lemma nearest_mono (N1 N2 c : Z) :
  0 <= c + K -> 0 <= N1 <= N2 -> nearest D K N1 c <= nearest D K N2 c.
Proof using Type*.
  intros Hc HN.
  pose proof (trunc_mono N1 N2 c Hc ltac:(lia)) as Hm.
  pose proof (nearest_bounds N1 c). pose proof (nearest_bounds N2 c).
  destruct (Z.eq_dec (trunc D K N1 c) (trunc D K N2 c)) as [Heq|Hne]; [|lia].
  pose proof (grid_pos c Hc) as HB.
  assert (Hr : rest D K N1 c <= rest D K N2 c).
  { unfold trunc, rest in *.
    pose proof (Z.div_mod N1 (grid D K c) ltac:(lia)).
    pose proof (Z.div_mod N2 (grid D K c) ltac:(lia)). nia. }
  pose proof (Z.mod_pos_bound N1 (grid D K c) HB) as Hr1.
  pose proof (Z.mod_pos_bound N2 (grid D K c) HB) as Hr2.
  fold (rest D K N1 c) in Hr1. fold (rest D K N2 c) in Hr2.
  unfold nearest, round_nearest_even, locate. rewrite Heq.
  destruct (Z.eqb_spec (rest D K N1 c) 0), (Z.eqb_spec (rest D K N2 c) 0);
    try destruct (Z.compare_spec (2 * rest D K N1 c) (grid D K c));
    try destruct (Z.compare_spec (2 * rest D K N2 c) (grid D K c));
    try destruct (Z.even (trunc D K N2 c)); lia.
Qed.

(** Rounding a value given by its truncation at a fine enough exponent
    [e] (at least 53 digits) and the position of its remainder: the
    result is [rnd] at the exponent [c] at which the value has 53
    digits, within the range of normal, finite numbers. *)
Lemma binary_round_aux_rnd (N e : Z) :
  0 <= N -> 0 <= e + K -> 2 ^ 52 <= trunc D K N e ->
  let c := Zdigits2 (trunc D K N e) + e - 53 in
  -1074 <= c <= 970 ->
  cexp D K N c /\ e <= c /\
  binary_round_aux 53 1024 false (trunc D K N e) e
    (locate (rest D K N e) (grid D K e))
  = rnd D K N c.
Proof using Type*.
  intros HN He Hm c Hc.
  assert (Hm0 : 0 < trunc D K N e) by (pose proof (pow2_pos 52); lia).
  destruct (Zdigits2_bounds _ Hm0) as (Hd0 & Hlo & Hhi).
  set (d := Zdigits2 (trunc D K N e)) in *.
  assert (Hd : 53 <= d).
  { destruct (Z_lt_le_dec d 53) as [Hlt|]; [|assumption].
    pose proof (pow2_le d 52 ltac:(lia)). lia. }
  assert (Hce : c = e + (d - 53)) by (unfold c; lia).
  assert (Hrange : 2 ^ 52 <= trunc D K N c < 2 ^ 53).
  { rewrite Hce, trunc_add by lia.
    pose proof (pow2_pos (d - 53) ltac:(lia)) as Hp.
    assert (H1 : 2 ^ (d - 1) = 2 ^ (d - 53) * 2 ^ 52).
    { rewrite <- pow2_add by lia. f_equal. lia. }
    assert (H2 : 2 ^ d = 2 ^ (d - 53) * 2 ^ 53).
    { rewrite <- pow2_add by lia. f_equal. lia. }
    split.
    - apply Z.div_le_lower_bound; lia.
    - apply Z.div_lt_upper_bound; lia. }
  split; [split; [lia | exact Hrange]|]. split; [lia|].
  unfold binary_round_aux, shr_fexp.
  change (shr_record_of_loc (trunc D K N e)
            (locate (rest D K N e) (grid D K e)))
    with (position D K N e).
  rewrite shr_position by assumption.
  fold d. unfold fexp, emin.
  replace (e + Z.max (Z.max (d + e - 53) (3 - 1024 - 53) - e) 0) with c by lia.
  destruct (record_of_loc_inv (trunc D K N c) (locate (rest D K N c) (grid D K c))) as [H1 H2].
  fold (position D K N c) in H1, H2. rewrite !H1, !H2.
  fold (nearest D K N c). unfold rnd.
  pose proof (nearest_bounds N c) as Hn.
  destruct (Z.ltb_spec (nearest D K N c) (2 ^ 53)) as [Hlt|Hge].
  - rewrite (Zdigits2_unique (nearest D K N c) 53) by (change (53 - 1) with 52; lia).
    replace (Z.max (53 + c - 53) (3 - 1024 - 53) - c) with 0 by lia.
    cbn [shr shr_record_of_loc shr_m].
    destruct (nearest D K N c) as [|p|p] eqn:Hp; try lia.
    replace (c <=? 1024 - 53) with true by (symmetry; apply Z.leb_le; lia).
    reflexivity.
  - assert (Heq : nearest D K N c = 2 ^ 53) by lia. rewrite Heq.
    change (Zdigits2 (2 ^ 53)) with 54.
    replace (Z.max (54 + c - 53) (3 - 1024 - 53) - c) with 1 by lia.
    cbn [shr shr_record_of_loc SpecFloat.iter_pos].
    rewrite shr_1_nonneg by (pose proof (pow2_pos 53); lia).
    change (2 ^ 53 / 2) with (2 ^ 52). cbn [shr_m].
    change (2 ^ 52) with (Zpos (Z.to_pos (2 ^ 52))) at 1. cbv iota beta.
    replace (c + 1 <=? 1024 - 53) with true by (symmetry; apply Z.leb_le; lia).
    reflexivity.
Qed.

Lemma SFleb_finite (m1 m2 : positive) (e1 e2 : Z) :
  SFleb (S754_finite false m1 e1) (S754_finite false m2 e2) = true
  <-> e1 < e2 \/ (e1 = e2 /\ Zpos m1 <= Zpos m2).
Proof using Type*.
  unfold SFleb, SFcompare.
  change (Pos.compare_cont Eq m1 m2) with (Z.compare (Zpos m1) (Zpos m2)).
  destruct (Z.compare_spec e1 e2); [destruct (Z.compare_spec (Zpos m1) (Zpos m2))| |];
    split; intros; try reflexivity; try discriminate; lia.
Qed.

Lemma rnd_normal (N c : Z) :
  cexp D K N c ->
  exists m e, rnd D K N c = S754_finite false m e
    /\ 2 ^ 52 <= Zpos m < 2 ^ 53 /\ c <= e <= c + 1.
Proof using Type*.
  intros [Hc Hm]. pose proof (nearest_bounds N c) as Hn. unfold rnd.
  destruct (Z.ltb_spec (nearest D K N c) (2 ^ 53)).
  - eexists _, _. split; [reflexivity|]. rewrite Z2Pos.id by lia. lia.
  - eexists _, _. split; [reflexivity|]. rewrite Z2Pos.id by lia. lia.
Qed.

Lemma rnd_exact (N c : Z) :
  cexp D K N c -> rest D K N c = 0 ->
  rnd D K N c = S754_finite false (Z.to_pos (trunc D K N c)) c.
Proof using Type*.
  intros [Hc Hm] Hr. unfold rnd, nearest. rewrite Hr. cbn [locate Z.eqb round_nearest_even].
  destruct (Z.ltb_spec (trunc D K N c) (2 ^ 53)); [reflexivity | lia].
Qed.

(** A larger value has at least the exponent of a smaller one, and
    rounds to at least the same number. *)
Lemma cexp_mono (N1 N2 c1 c2 : Z) :
  0 <= N1 <= N2 -> cexp D K N1 c1 -> cexp D K N2 c2 -> c1 <= c2.
Proof using Type*.
  intros HN [Hc1 Hm1] [Hc2 Hm2].
  destruct (Z_le_gt_dec c1 c2) as [|Hgt]; [assumption|exfalso].
  pose proof (trunc_mono N1 N2 c1 Hc1 ltac:(lia)) as Hmono.
  replace c1 with (c2 + (c1 - c2)) in Hmono at 2 by lia.
  rewrite trunc_add in Hmono by lia.
  assert (trunc D K N2 c2 / 2 ^ (c1 - c2) < 2 ^ 52); [|lia].
  apply Z.div_lt_upper_bound; [apply pow2_pos; lia|].
  pose proof (pow2_le 1 (c1 - c2) ltac:(lia)). change (2 ^ 1) with 2 in *.
  change (2 ^ 53) with (2 * 2 ^ 52) in *. pose proof (pow2_pos 52). nia.
Qed.

Lemma rnd_mono (N1 N2 c1 c2 : Z) :
  0 <= N1 <= N2 -> cexp D K N1 c1 -> cexp D K N2 c2 ->
  SFleb (rnd D K N1 c1) (rnd D K N2 c2) = true.
Proof using Type*.
  intros HN H1 H2. pose proof (cexp_mono _ _ _ _ HN H1 H2) as Hc.
  destruct H1 as [Hc1 Hm1], H2 as [Hc2 Hm2].
  pose proof (nearest_bounds N1 c1) as Hn1. pose proof (nearest_bounds N2 c2) as Hn2.
  assert (Hn : c1 = c2 -> nearest D K N1 c1 <= nearest D K N2 c2).
  { intros <-. apply nearest_mono; assumption. }
  pose proof (pow2_pos 52 ltac:(lia)) as Hp.
  unfold rnd.
  destruct (Z.ltb_spec (nearest D K N1 c1) (2 ^ 53)), (Z.ltb_spec (nearest D K N2 c2) (2 ^ 53));
    apply SFleb_finite; rewrite !Z2Pos.id by lia; lia.
Qed.

End Grid.

Lemma iter_xO (m d : positive) : Zpos (Pos.iter xO m d) = Zpos m * 2 ^ Zpos d.
Proof.
  induction d as [|d IH] using Pos.peano_ind.
  - cbn [Pos.iter]. rewrite Pos2Z.inj_xO. change (2 ^ 1) with 2. lia.
  - rewrite Pos.iter_succ, Pos2Z.inj_xO, IH, Pos2Z.inj_succ, Z.pow_succ_r by lia. lia.
Qed.

Lemma shl_align_fst (m : positive) (e e' : Z) :
  e' <= e -> Zpos (fst (shl_align m e e')) = Zpos m * 2 ^ (e - e').
Proof.
  intros He. unfold shl_align.
  destruct (e' - e) as [|d|d] eqn:Hd; cbn [fst]; try lia.
  - replace (e - e') with 0 by lia. lia.
  - rewrite iter_xO. f_equal. f_equal. lia.
Qed.

Lemma div_eucl_eq (a b : Z) : Z.div_eucl a b = (a / b, a mod b).
Proof. unfold Z.div, Z.modulo. destruct (Z.div_eucl a b). reflexivity. Qed.

Lemma digits_range (m lo hi : Z) :
  0 <= lo -> 2 ^ lo <= m < 2 ^ hi -> lo < Zdigits2 m <= hi.
Proof.
  intros Hlo [H1 H2].
  assert (Hm : 0 < m) by (pose proof (pow2_pos lo Hlo); lia).
  destruct (Zdigits2_bounds m Hm) as (Hd & Ha & Hb). split.
  - destruct (Z_lt_le_dec lo (Zdigits2 m)); [assumption|].
    pose proof (pow2_le (Zdigits2 m) lo ltac:(lia)). lia.
  - destruct (Z_le_gt_dec (Zdigits2 m) hi); [assumption|].
    assert (0 <= hi).
    { destruct (Z_le_gt_dec 0 hi); [assumption|]. rewrite Z.pow_neg_r in H2 by lia. lia. }
    pose proof (pow2_le hi (Zdigits2 m - 1) ltac:(lia)). lia.
Qed.

(** Rounding a positive integer mantissa that is already on its grid. *)
Lemma round_exact (m : positive) (e K : Z) :
  0 <= e + K -> 2 ^ 52 <= Zpos m ->
  let c := Zdigits2 (Zpos m) + e - 53 in
  -1074 <= c <= 970 ->
  cexp 1 K (Zpos m * 2 ^ (e + K)) c /\ e <= c /\
  binary_round_aux 53 1024 false (Zpos m) e loc_Exact
  = rnd 1 K (Zpos m * 2 ^ (e + K)) c.
Proof.
  intros He Hm c Hc.
  pose proof (pow2_pos (e + K) He) as Hp.
  assert (Ht : trunc 1 K (Zpos m * 2 ^ (e + K)) e = Zpos m).
  { unfold trunc, grid. rewrite Z.mul_1_l. apply Z.div_mul. lia. }
  assert (Hr : rest 1 K (Zpos m * 2 ^ (e + K)) e = 0).
  { unfold rest, grid. rewrite Z.mul_1_l. apply Z.mod_mul. lia. }
  pose proof (binary_round_aux_rnd 1 K ltac:(lia) (Zpos m * 2 ^ (e + K)) e
                ltac:(lia) He) as H.
  rewrite Ht, Hr in H. apply H; [exact Hm | exact Hc].
Qed.


Lemma normal_within_weaken (R R' : Z) (x : spec_float) :
  R <= R' -> normal_within R x -> normal_within R' x.
Proof. intros HR (m & e & -> & Hm & He). exists m, e. repeat split; lia. Qed.

(** On positive normal numbers the comparison is the order of the
    values. *)
Lemma SFleb_scaled (R : Z) (x y : spec_float) :
  R <= 2000 -> normal_within R x -> normal_within R y ->
  SFleb x y = true <-> scaled x <= scaled y.
Proof.
  intros HR (m1 & e1 & -> & Hm1 & He1) (m2 & e2 & -> & Hm2 & He2).
  rewrite SFleb_finite. cbn [scaled].
  pose proof (pow2_pos (e1 + 2000) ltac:(lia)) as Hp1.
  pose proof (pow2_pos (e2 + 2000) ltac:(lia)) as Hp2.
  change (2 ^ 53) with (2 * 2 ^ 52) in *. pose proof (pow2_pos 52 ltac:(lia)) as Hp.
  destruct (Z.lt_trichotomy e1 e2) as [Hlt | [Heq | Hgt]].
  - split; [intros _|intros _; left; exact Hlt].
    pose proof (pow2_le (e1 + 1 + 2000) (e2 + 2000) ltac:(lia)) as Hle.
    replace (e1 + 1 + 2000) with (e1 + 2000 + 1) in Hle by lia.
    rewrite pow2_add in Hle by lia. change (2 ^ 1) with 2 in Hle. nia.
  - subst e2. split; [intros [|[_ H]]; [lia | nia] | intros H; right; split; [reflexivity | nia]].
  - split; [intros [|[]]; lia | intros H; exfalso].
    pose proof (pow2_le (e2 + 1 + 2000) (e1 + 2000) ltac:(lia)) as Hle.
    replace (e2 + 1 + 2000) with (e2 + 2000 + 1) in Hle by lia.
    rewrite pow2_add in Hle by lia. change (2 ^ 1) with 2 in Hle. nia.
Qed.

Lemma rnd_within (D K N c R : Z) :
  0 < D -> cexp D K N c -> - R <= c -> c + 1 <= R ->
  normal_within R (rnd D K N c).
Proof.
  intros HD Hc Hlo Hhi. destruct (rnd_normal D K HD N c Hc) as (m & e & -> & Hm & He).
  exists m, e. repeat split; lia.
Qed.

(** The three operations on positive normal numbers round the exact
    product, quotient and sum. *)
Lemma SFmul_rnd (mx my : positive) (ex ey : Z) :
  2 ^ 52 <= Zpos mx < 2 ^ 53 -> 2 ^ 52 <= Zpos my < 2 ^ 53 ->
  -400 <= ex <= 400 -> -400 <= ey <= 400 ->
  exists c,
    cexp 1 (2000 - ey) (Zpos mx * 2 ^ (ex + 2000) * Zpos my) c
    /\ ex + ey + 52 <= c <= ex + ey + 53
    /\ SFmul 53 1024 (S754_finite false mx ex) (S754_finite false my ey)
       = rnd 1 (2000 - ey) (Zpos mx * 2 ^ (ex + 2000) * Zpos my) c.
Proof.
  intros Hx Hy Hex Hey. cbn [SFmul xorb].
  assert (Hprod : 2 ^ 104 <= Zpos (mx * my) < 2 ^ 106).
  { rewrite Pos2Z.inj_mul. change (2 ^ 104) with (2 ^ 52 * 2 ^ 52).
    change (2 ^ 106) with (2 ^ 53 * 2 ^ 53). pose proof (pow2_pos 52 ltac:(lia)). nia. }
  pose proof (digits_range _ 104 106 ltac:(lia) Hprod) as Hd.
  destruct (round_exact (mx * my) (ex + ey) (2000 - ey)) as (Hc & _ & Heq);
    [lia | pose proof (pow2_le 52 104 ltac:(lia)); lia | lia |].
  exists (Zdigits2 (Zpos (mx * my)) + (ex + ey) - 53).
  replace (Zpos mx * 2 ^ (ex + 2000) * Zpos my)
    with (Zpos (mx * my) * 2 ^ (ex + ey + (2000 - ey))).
  - split; [exact Hc|]. split; [lia | exact Heq].
  - rewrite Pos2Z.inj_mul. replace (ex + ey + (2000 - ey)) with (ex + 2000) by lia. ring.
Qed.

Lemma SFdiv_rnd (ma mn : positive) (ea en : Z) :
  2 ^ 52 <= Zpos ma < 2 ^ 53 -> 2 ^ 52 <= Zpos mn < 2 ^ 53 ->
  -400 <= ea <= 400 -> -400 <= en <= 400 ->
  exists c,
    cexp (Zpos mn) (2000 + en) (Zpos ma * 2 ^ (ea + 2000)) c
    /\ ea - en - 53 <= c <= ea - en - 52
    /\ SFdiv 53 1024 (S754_finite false ma ea) (S754_finite false mn en)
       = rnd (Zpos mn) (2000 + en) (Zpos ma * 2 ^ (ea + 2000)) c.
Proof.
  intros Ha Hn Hea Hen. cbn [SFdiv xorb]. unfold SFdiv_core_binary.
  rewrite (Zdigits2_unique (Zpos ma) 53), (Zdigits2_unique (Zpos mn) 53)
    by (change (53 - 1) with 52; lia).
  unfold fexp, emin.
  replace (Z.min (Z.max (53 + ea - (53 + en) - 53) (3 - 1024 - 53)) (ea - en))
    with (ea - en - 53) by lia.
  replace (ea - en - (ea - en - 53)) with 53 by lia.
  rewrite Z.shiftl_mul_pow2, div_eucl_eq by lia.
  set (e' := ea - en - 53). set (K := 2000 + en).
  set (N := Zpos ma * 2 ^ (ea + 2000)).
  pose proof (pow2_pos (e' + K) ltac:(unfold e', K; lia)) as Hp.
  assert (HN : N = Zpos ma * 2 ^ 53 * 2 ^ (e' + K)).
  { unfold N. rewrite <- Z.mul_assoc, <- pow2_add by (unfold e', K; lia).
    f_equal. f_equal. unfold e', K. lia. }
  assert (Ht : trunc (Zpos mn) K N e' = Zpos ma * 2 ^ 53 / Zpos mn).
  { unfold trunc, grid. rewrite HN. apply Z.div_mul_cancel_r; lia. }
  assert (Hr : rest (Zpos mn) K N e' = (Zpos ma * 2 ^ 53) mod Zpos mn * 2 ^ (e' + K)).
  { unfold rest, grid. rewrite HN. apply Z.mul_mod_distr_r; lia. }
  assert (Hq : 2 ^ 52 <= Zpos ma * 2 ^ 53 / Zpos mn < 2 ^ 54).
  { change (2 ^ 54) with (2 * 2 ^ 53) in *. change (2 ^ 53) with (2 * 2 ^ 52) in *.
    pose proof (pow2_pos 52 ltac:(lia)). split.
    - apply Z.div_le_lower_bound; nia.
    - apply Z.div_lt_upper_bound; nia. }
  pose proof (digits_range _ 52 54 ltac:(lia) Hq) as Hd.
  pose proof (binary_round_aux_rnd (Zpos mn) K ltac:(lia) N e'
                ltac:(unfold N; pose proof (pow2_pos (ea + 2000)); lia)
                ltac:(unfold e', K; lia)) as H.
  rewrite Ht, Hr in H. unfold grid in H at 1.
  rewrite locate_scale in H by exact Hp.
  rewrite <- new_location_locate in H
    by (try lia; apply Z.mod_pos_bound; lia).
  destruct H as (Hc & _ & Heq); [lia | lia |].
  eexists. split; [exact Hc|]. split; [lia | exact Heq].
Qed.

Lemma SFadd_rnd (mx my : positive) (ex ey : Z) :
  2 ^ 52 <= Zpos mx < 2 ^ 53 -> 2 ^ 52 <= Zpos my < 2 ^ 53 ->
  -400 <= ex <= 400 -> -400 <= ey <= 400 ->
  exists c,
    cexp 1 2000 (Zpos mx * 2 ^ (ex + 2000) + Zpos my * 2 ^ (ey + 2000)) c
    /\ Z.max ex ey <= c <= Z.max ex ey + 1
    /\ SFadd 53 1024 (S754_finite false mx ex) (S754_finite false my ey)
       = rnd 1 2000 (Zpos mx * 2 ^ (ex + 2000) + Zpos my * 2 ^ (ey + 2000)) c.
Proof.
  intros Hx Hy Hex Hey. cbn [SFadd cond_Zopp].
  set (ez := Z.min ex ey).
  rewrite !shl_align_fst by (unfold ez; lia).
  pose proof (pow2_pos (ex - ez) ltac:(unfold ez; lia)) as Hpx.
  pose proof (pow2_pos (ey - ez) ltac:(unfold ez; lia)) as Hpy.
  pose proof (pow2_pos 52 ltac:(lia)) as Hp52.
  set (E := Z.max ex ey).
  assert (HE : 2 ^ (E - ez) = 2 ^ (ex - ez) \/ 2 ^ (E - ez) = 2 ^ (ey - ez)).
  { unfold E. destruct (Z.max_spec ex ey) as [[_ ->]|[_ ->]]; auto. }
  assert (HE' : 2 ^ (ex - ez) <= 2 ^ (E - ez) /\ 2 ^ (ey - ez) <= 2 ^ (E - ez)).
  { split; apply pow2_le; unfold E, ez; lia. }
  assert (Hsum : 2 ^ (52 + (E - ez))
                 <= Zpos mx * 2 ^ (ex - ez) + Zpos my * 2 ^ (ey - ez)
                 < 2 ^ (54 + (E - ez))).
  { rewrite !pow2_add by (unfold E, ez; lia).
    change (2 ^ 54) with (2 * (2 * 2 ^ 52)). change (2 ^ 53) with (2 * 2 ^ 52) in *.
    destruct HE as [HE|HE]; nia. }
  pose proof (digits_range _ (52 + (E - ez)) (54 + (E - ez))
                ltac:(unfold E, ez; lia) Hsum) as Hd.
  destruct (Zpos mx * 2 ^ (ex - ez) + Zpos my * 2 ^ (ey - ez)) as [|s|s] eqn:Hs;
    [nia| |nia].
  cbn [binary_normalize]. unfold binary_round.
  change (Zpos (digits2_pos s)) with (Zdigits2 (Zpos s)).
  assert (Halign : shl_align s ez (fexp 53 1024 (Zdigits2 (Zpos s) + ez)) = (s, ez)).
  { unfold shl_align, fexp, emin.
    destruct (Z.max (Zdigits2 (Zpos s) + ez - 53) (3 - 1024 - 53) - ez) eqn:Hz;
      try reflexivity. unfold E, ez in *. lia. }
  rewrite Halign.
  destruct (round_exact s ez 2000) as (Hc & _ & Heq);
    [unfold ez; lia | | unfold E, ez in *; lia |].
  { pose proof (pow2_le 52 (52 + (E - ez)) ltac:(unfold E, ez; lia)). lia. }
  assert (HN : Zpos s * 2 ^ (ez + 2000)
               = Zpos mx * 2 ^ (ex + 2000) + Zpos my * 2 ^ (ey + 2000)).
  { rewrite <- Hs, Z.mul_add_distr_r, <- !Z.mul_assoc, <- !pow2_add by (unfold ez; lia).
    f_equal; f_equal; f_equal; lia. }
  rewrite HN in Hc, Heq.
  eexists. split; [exact Hc|]. split; [unfold E, ez in *; lia | exact Heq].
Qed.

Lemma round_exact_normal (m : positive) (e : Z) :
  2 ^ 52 <= Zpos m < 2 ^ 53 -> -1074 <= e <= 970 ->
  binary_round_aux 53 1024 false (Zpos m) e loc_Exact = S754_finite false m e.
Proof.
  intros Hm He.
  pose proof (Zdigits2_unique (Zpos m) 53 ltac:(change (53 - 1) with 52; lia) ltac:(lia)) as Hd.
  destruct (round_exact m e 2000) as (Hc & _ & ->); rewrite ?Hd; try lia.
  rewrite Hd in Hc. replace (53 + e - 53) with e in * by lia.
  pose proof (pow2_pos (e + 2000) ltac:(lia)) as Hp.
  rewrite (rnd_exact 1 2000 ltac:(lia) _ _ Hc).
  - unfold trunc, grid. rewrite Z.mul_1_l, Z.div_mul by lia. reflexivity.
  - unfold rest, grid. rewrite Z.mul_1_l. apply Z.mod_mul. lia.
Qed.


(** An integer below 2^53 is converted exactly. *)
Lemma num_represents (n : nat) :
  0 < Z.of_nat n < 2 ^ 53 -> represents (num n) (Z.of_nat n).
Proof.
  intros Hn. unfold num, represents.
  destruct (Z.of_nat n) as [|p|p]; try lia.
  cbn [binary_normalize]. unfold binary_round.
  change (Zpos (digits2_pos p)) with (Zdigits2 (Zpos p)).
  pose proof (digits_range (Zpos p) 0 53 ltac:(lia) ltac:(change (2 ^ 0) with 1; lia)) as Hd.
  destruct (Zdigits2_bounds (Zpos p) ltac:(lia)) as (_ & Hlo & Hhi).
  set (d := Zdigits2 (Zpos p)) in *.
  assert (Hf : fexp 53 1024 (d + 0) = d - 53) by (unfold fexp, emin; lia).
  rewrite Hf.
  pose proof (shl_align_fst p 0 (d - 53) ltac:(lia)) as Hfst.
  assert (Hsnd : snd (shl_align p 0 (d - 53)) = d - 53).
  { unfold shl_align. destruct (d - 53 - 0) eqn:Hz; cbn [snd]; lia. }
  destruct (shl_align p 0 (d - 53)) as [mz ez]. cbn [fst snd] in Hfst, Hsnd. subst ez.
  replace (0 - (d - 53)) with (53 - d) in Hfst by lia.
  pose proof (pow2_pos (53 - d) ltac:(lia)) as Hp.
  assert (H52 : 2 ^ 52 = 2 ^ (d - 1) * 2 ^ (53 - d)).
  { rewrite <- pow2_add by lia. f_equal. lia. }
  assert (H53 : 2 ^ 53 = 2 ^ d * 2 ^ (53 - d)).
  { rewrite <- pow2_add by lia. f_equal. lia. }
  assert (Hm : 2 ^ 52 <= Zpos mz < 2 ^ 53) by (rewrite Hfst, H52, H53; nia).
  rewrite round_exact_normal by lia.
  exists mz, (d - 53). split; [reflexivity|]. split; [exact Hm|]. split; [lia|].
  rewrite Hfst. f_equal. f_equal. lia.
Qed.

Lemma represents_within (x : spec_float) (v : Z) :
  represents x v -> normal_within 52 x.
Proof. intros (m & e & -> & Hm & He & _). exists m, e. repeat split; lia. Qed.

Lemma represents_scaled (x : spec_float) (v : Z) :
  represents x v -> scaled x = v * 2 ^ 2000.
Proof.
  intros (m & e & -> & Hm & He & Hv). cbn [scaled]. rewrite Hv, <- Z.mul_assoc.
  rewrite <- pow2_add by lia. f_equal. f_equal. lia.
Qed.

Lemma scaled_inj (R : Z) (x y : spec_float) :
  R <= 2000 -> normal_within R x -> normal_within R y ->
  scaled x = scaled y -> x = y.
Proof.
  intros HR Hx Hy Heq.
  pose proof (proj2 (SFleb_scaled R x y HR Hx Hy) ltac:(lia)) as H1.
  pose proof (proj2 (SFleb_scaled R y x HR Hy Hx) ltac:(lia)) as H2.
  destruct Hx as (m1 & e1 & -> & Hm1 & He1), Hy as (m2 & e2 & -> & Hm2 & He2).
  apply SFleb_finite in H1, H2.
  assert (e1 = e2) by lia. subst e2.
  assert (Zpos m1 = Zpos m2) by lia. congruence.
Qed.

Lemma represents_unique (x y : spec_float) (v : Z) :
  represents x v -> represents y v -> x = y.
Proof.
  intros Hx Hy. apply (scaled_inj 52); try lia.
  - eapply represents_within, Hx.
  - eapply represents_within, Hy.
  - rewrite (represents_scaled x v Hx), (represents_scaled y v Hy). reflexivity.
Qed.

Lemma SFdiv_within (R : Z) (a n : spec_float) :
  R <= 400 -> normal_within R a -> normal_within R n ->
  normal_within (2 * R + 53) (SFdiv 53 1024 a n).
Proof.
  intros HR (ma & ea & -> & Hma & Hea) (mn & en & -> & Hmn & Hen).
  destruct (SFdiv_rnd ma mn ea en) as (c & Hc & Hb & ->); try lia.
  apply rnd_within; try lia. exact Hc.
Qed.

Lemma SFdiv_mono (a1 a2 n : spec_float) :
  normal_within 400 a1 -> normal_within 400 a2 -> normal_within 400 n ->
  SFleb a1 a2 = true ->
  SFleb (SFdiv 53 1024 a1 n) (SFdiv 53 1024 a2 n) = true.
Proof.
  intros H1 H2 Hn Hle.
  apply (SFleb_scaled 400) in Hle; try assumption; try lia.
  destruct H1 as (m1 & e1 & -> & Hm1 & He1), H2 as (m2 & e2 & -> & Hm2 & He2),
    Hn as (mn & en & -> & Hmn & Hen). cbn [scaled] in Hle.
  destruct (SFdiv_rnd m1 mn e1 en) as (c1 & Hc1 & _ & ->); try lia.
  destruct (SFdiv_rnd m2 mn e2 en) as (c2 & Hc2 & _ & ->); try lia.
  pose proof (pow2_pos (e1 + 2000) ltac:(lia)).
  apply rnd_mono; try assumption; try lia; nia.
Qed.

Lemma SFmul_within (R : Z) (x y : spec_float) :
  R <= 400 -> normal_within R x -> normal_within R y ->
  normal_within (2 * R + 54) (SFmul 53 1024 x y).
Proof.
  intros HR (mx & ex & -> & Hmx & Hex) (my & ey & -> & Hmy & Hey).
  destruct (SFmul_rnd mx my ex ey) as (c & Hc & Hb & ->); try lia.
  apply rnd_within; try lia. exact Hc.
Qed.

Lemma SFmul_mono (x1 x2 y : spec_float) :
  normal_within 400 x1 -> normal_within 400 x2 -> normal_within 400 y ->
  SFleb x1 x2 = true ->
  SFleb (SFmul 53 1024 x1 y) (SFmul 53 1024 x2 y) = true.
Proof.
  intros H1 H2 Hy Hle.
  apply (SFleb_scaled 400) in Hle; try assumption; try lia.
  destruct H1 as (m1 & e1 & -> & Hm1 & He1), H2 as (m2 & e2 & -> & Hm2 & He2),
    Hy as (my & ey & -> & Hmy & Hey). cbn [scaled] in Hle.
  destruct (SFmul_rnd m1 my e1 ey) as (c1 & Hc1 & _ & ->); try lia.
  destruct (SFmul_rnd m2 my e2 ey) as (c2 & Hc2 & _ & ->); try lia.
  pose proof (pow2_pos (e1 + 2000) ltac:(lia)).
  apply rnd_mono; try assumption; try lia; nia.
Qed.

Lemma SFadd_within (R : Z) (x y : spec_float) :
  R <= 400 -> normal_within R x -> normal_within R y ->
  normal_within (R + 2) (SFadd 53 1024 x y).
Proof.
  intros HR (mx & ex & -> & Hmx & Hex) (my & ey & -> & Hmy & Hey).
  destruct (SFadd_rnd mx my ex ey) as (c & Hc & Hb & ->); try lia.
  apply rnd_within; try lia. exact Hc.
Qed.

Lemma SFadd_mono (x y1 y2 : spec_float) :
  normal_within 400 x -> normal_within 400 y1 -> normal_within 400 y2 ->
  SFleb y1 y2 = true ->
  SFleb (SFadd 53 1024 x y1) (SFadd 53 1024 x y2) = true.
Proof.
  intros Hx H1 H2 Hle.
  apply (SFleb_scaled 400) in Hle; try assumption; try lia.
  destruct H1 as (m1 & e1 & -> & Hm1 & He1), H2 as (m2 & e2 & -> & Hm2 & He2),
    Hx as (mx & ex & -> & Hmx & Hex). cbn [scaled] in Hle.
  destruct (SFadd_rnd mx m1 ex e1) as (c1 & Hc1 & _ & ->); try lia.
  destruct (SFadd_rnd mx m2 ex e2) as (c2 & Hc2 & _ & ->); try lia.
  pose proof (pow2_pos (e1 + 2000) ltac:(lia)).
  pose proof (pow2_pos (ex + 2000) ltac:(lia)).
  apply rnd_mono; try assumption; try lia; nia.
Qed.

Lemma SFadd_ge_left (x y : spec_float) :
  normal_within 400 x -> normal_within 400 y ->
  SFleb x (SFadd 53 1024 x y) = true.
Proof.
  intros (mx & ex & -> & Hmx & Hex) (my & ey & -> & Hmy & Hey).
  destruct (SFadd_rnd mx my ex ey) as (c & Hc & _ & ->); try lia.
  pose proof (pow2_pos (ex + 2000) ltac:(lia)) as Hpx.
  pose proof (pow2_pos (ey + 2000) ltac:(lia)) as Hpy.
  assert (Hcx : cexp 1 2000 (Zpos mx * 2 ^ (ex + 2000)) ex).
  { split; [lia|]. unfold trunc, grid. rewrite Z.mul_1_l, Z.div_mul by lia. exact Hmx. }
  assert (Hx : S754_finite false mx ex = rnd 1 2000 (Zpos mx * 2 ^ (ex + 2000)) ex).
  { rewrite (rnd_exact 1 2000 ltac:(lia) _ _ Hcx).
    - unfold trunc, grid. rewrite Z.mul_1_l, Z.div_mul by lia. reflexivity.
    - unfold rest, grid. rewrite Z.mul_1_l. apply Z.mod_mul. lia. }
  rewrite Hx. apply rnd_mono; try assumption; try lia; nia.
Qed.

(** A positive normal number divided by itself is 1, exactly. *)
Lemma SFdiv_self (x : spec_float) (R : Z) :
  R <= 400 -> normal_within R x ->
  SFdiv 53 1024 x x = S754_finite false 4503599627370496 (-52).
Proof.
  intros HR (m & e & -> & Hm & He). cbn [SFdiv xorb]. unfold SFdiv_core_binary.
  rewrite (Zdigits2_unique (Zpos m) 53) by (change (53 - 1) with 52; lia).
  unfold fexp, emin.
  replace (Z.min (Z.max (53 + e - (53 + e) - 53) (3 - 1024 - 53)) (e - e))
    with (-53) by lia.
  replace (e - e - -53) with 53 by lia.
  rewrite Z.shiftl_mul_pow2, div_eucl_eq by lia.
  rewrite (Z.mul_comm (Zpos m)), Z.div_mul, Z.mod_mul by lia.
  assert (Hloc : new_location (Zpos m) 0 = loc_Exact).
  { unfold new_location, new_location_even, new_location_odd.
    destruct (Z.even (Zpos m)); reflexivity. }
  rewrite Hloc. vm_compute. reflexivity.
Qed.

End Rounding.

(** ** Progress arithmetic *)

Lemma num_literals :
  num 0 = zero /\ num 10 = ten /\ num 50 = fifty /\ num 100 = hundred.
Proof. repeat split; vm_compute; reflexivity. Qed.

Lemma literals_represent :
  represents ten 10 /\ represents fifty 50 /\ represents hundred 100.
Proof.
  repeat split; eexists _, _; (split; [reflexivity|]); vm_compute;
    repeat split; congruence.
Qed.

Lemma num_within (n : nat) :
  (0 < Z.of_nat n < 2 ^ 53)%Z -> Binary64.normal_within 52 (num n).
Proof.
  intros Hn. eapply Rounding.represents_within, Rounding.num_represents, Hn.
Qed.

Lemma num_mono (i j : nat) :
  0 < i <= j -> (Z.of_nat j < 2 ^ 53)%Z -> at_most (num i) (num j).
Proof.
  intros Hij Hj. unfold at_most.
  apply (Rounding.SFleb_scaled 52); try (apply num_within; lia); try lia.
  rewrite (Rounding.represents_scaled _ _ (Rounding.num_represents i ltac:(lia))).
  rewrite (Rounding.represents_scaled _ _ (Rounding.num_represents j ltac:(lia))).
  apply Z.mul_le_mono_nonneg_r; [apply Z.pow_nonneg|]; lia.
Qed.

Lemma ratio_within (total i : nat) :
  i < total -> (Z.of_nat total < 2 ^ 53)%Z ->
  Binary64.normal_within 157 (Number.div (num (i + 1)) (num total)).
Proof.
  intros Hi Ht. apply (Rounding.SFdiv_within 52); try lia; apply num_within; lia.
Qed.

Lemma ratio_mono (total i j : nat) :
  i <= j < total -> (Z.of_nat total < 2 ^ 53)%Z ->
  at_most (Number.div (num (i + 1)) (num total))
          (Number.div (num (j + 1)) (num total)).
Proof.
  intros Hij Ht. apply Rounding.SFdiv_mono;
    try (apply (Rounding.normal_within_weaken 52); [lia | apply num_within; lia]).
  apply num_mono; lia.
Qed.

Lemma ratio_one (total : nat) :
  0 < total -> (Z.of_nat total < 2 ^ 53)%Z ->
  Number.div (num (total - 1 + 1)) (num total)
  = S754_finite false 4503599627370496 (-52).
Proof.
  intros Hpos Ht. replace (total - 1 + 1) with total by lia.
  apply (Rounding.SFdiv_self _ 52); [lia | apply num_within; lia].
Qed.

Lemma literal_within (n : nat) :
  (0 < Z.of_nat n < 2 ^ 53)%Z -> Binary64.normal_within 400 (num n).
Proof.
  intros Hn. apply (Rounding.normal_within_weaken 52); [lia | apply num_within, Hn].
Qed.

Lemma literals_within :
  Binary64.normal_within 2000 ten /\ Binary64.normal_within 2000 fifty
  /\ Binary64.normal_within 2000 hundred.
Proof.
  destruct num_literals as (_ & <- & <- & <-).
  repeat split; (apply (Rounding.normal_within_weaken 400);
                 [lia | apply literal_within; lia]).
Qed.

Lemma scaled_within (total i k : nat) :
  i < total -> (Z.of_nat total < 2 ^ 53)%Z -> (0 < Z.of_nat k < 2 ^ 53)%Z ->
  Binary64.normal_within 400
    (Number.mul (Number.div (num (i + 1)) (num total)) (num k)).
Proof.
  intros Hi Ht Hk.
  apply (Rounding.normal_within_weaken (2 * 157 + 54)); [lia|].
  apply Rounding.SFmul_within; try lia.
  - apply ratio_within; assumption.
  - apply (Rounding.normal_within_weaken 52); [lia | apply num_within, Hk].
Qed.

Lemma scaled_mono (total i j k : nat) :
  i <= j < total -> (Z.of_nat total < 2 ^ 53)%Z -> (0 < Z.of_nat k < 2 ^ 53)%Z ->
  at_most (Number.mul (Number.div (num (i + 1)) (num total)) (num k))
          (Number.mul (Number.div (num (j + 1)) (num total)) (num k)).
Proof.
  intros Hij Ht Hk. apply Rounding.SFmul_mono.
  - apply (Rounding.normal_within_weaken 157); [lia | apply ratio_within; lia].
  - apply (Rounding.normal_within_weaken 157); [lia | apply ratio_within; lia].
  - apply literal_within, Hk.
  - apply ratio_mono; assumption.
Qed.

Lemma apply_progress_within (total i : nat) :
  i < total -> (Z.of_nat total < 2 ^ 53)%Z ->
  Binary64.normal_within 400 (apply_progress total i).
Proof. intros Hi Ht. apply scaled_within; [assumption | assumption | lia]. Qed.

Lemma resolve_progress_within (total i : nat) :
  i < total -> (Z.of_nat total < 2 ^ 53)%Z ->
  Binary64.normal_within 402 (resolve_progress total i).
Proof.
  intros Hi Ht. apply (Rounding.SFadd_within 400); [lia | apply literal_within; lia|].
  apply scaled_within; [assumption | assumption | lia].
Qed.

Lemma apply_progress_mono (total i j : nat) :
  i <= j < total -> (Z.of_nat total < 2 ^ 53)%Z ->
  at_most (apply_progress total i) (apply_progress total j).
Proof. intros Hij Ht. apply scaled_mono; [assumption | assumption | lia]. Qed.

Lemma resolve_progress_mono (total i j : nat) :
  i <= j < total -> (Z.of_nat total < 2 ^ 53)%Z ->
  at_most (resolve_progress total i) (resolve_progress total j).
Proof.
  intros Hij Ht. apply Rounding.SFadd_mono.
  - apply literal_within; lia.
  - apply scaled_within; [lia | assumption | lia].
  - apply scaled_within; [lia | assumption | lia].
  - apply scaled_mono; [assumption | assumption | lia].
Qed.

Lemma apply_progress_last (total : nat) :
  0 < total -> (Z.of_nat total < 2 ^ 53)%Z ->
  apply_progress total (total - 1) = hundred.
Proof.
  intros Hpos Ht. unfold apply_progress. rewrite (ratio_one _ Hpos Ht).
  vm_compute. reflexivity.
Qed.

Lemma resolve_progress_last (total : nat) :
  0 < total -> (Z.of_nat total < 2 ^ 53)%Z ->
  resolve_progress total (total - 1) = hundred.
Proof.
  intros Hpos Ht. unfold resolve_progress. rewrite (ratio_one _ Hpos Ht).
  vm_compute. reflexivity.
Qed.

Lemma at_most_trans (x y z : spec_float) :
  Binary64.normal_within 2000 x -> Binary64.normal_within 2000 y ->
  Binary64.normal_within 2000 z ->
  at_most x y -> at_most y z -> at_most x z.
Proof.
  unfold at_most. intros Hx Hy Hz Hxy Hyz.
  apply (Rounding.SFleb_scaled 2000) in Hxy, Hyz; try assumption; try lia.
  apply (Rounding.SFleb_scaled 2000); try assumption; lia.
Qed.

Lemma apply_progress_bounds (total i : nat) :
  i < total -> (Z.of_nat total < 2 ^ 53)%Z ->
  at_most zero (apply_progress total i)
  /\ at_most (apply_progress total i) hundred.
Proof.
  intros Hi Ht. split.
  - destruct (apply_progress_within total i Hi Ht) as (m & e & -> & _).
    reflexivity.
  - rewrite <- (apply_progress_last total) by lia.
    apply apply_progress_mono; [lia | assumption].
Qed.

Lemma resolve_progress_bounds (total i : nat) :
  i < total -> (Z.of_nat total < 2 ^ 53)%Z ->
  at_most fifty (resolve_progress total i)
  /\ at_most (resolve_progress total i) hundred.
Proof.
  intros Hi Ht. split.
  - destruct num_literals as (_ & _ & <- & _).
    apply Rounding.SFadd_ge_left; [apply literal_within; lia|].
    apply scaled_within; [assumption | assumption | lia].
  - rewrite <- (resolve_progress_last total) by lia.
    apply resolve_progress_mono; [lia | assumption].
Qed.

(** The numbers of the formulas are determined by the integers they
    stand for. *)
Lemma apply_progress_formula (total i : nat) (a n c : spec_float) :
  i < total -> (Z.of_nat total < 2 ^ 53)%Z ->
  represents a (Z.of_nat i + 1) -> represents n (Z.of_nat total) ->
  represents c 100 ->
  apply_progress total i = SFmul 53 1024 (SFdiv 53 1024 a n) c.
Proof.
  intros Hi Ht Ha Hn Hc. unfold apply_progress, Number.mul, Number.div.
  rewrite (Rounding.represents_unique a (num (i + 1)) _ Ha),
    (Rounding.represents_unique n (num total) _ Hn),
    (Rounding.represents_unique c (num 100) _ Hc); [reflexivity| | |].
  - apply (Rounding.num_represents 100). lia.
  - apply Rounding.num_represents. lia.
  - replace (Z.of_nat i + 1)%Z with (Z.of_nat (i + 1)) by lia.
    apply Rounding.num_represents. lia.
Qed.

Lemma resolve_progress_formula (total i : nat) (a n c : spec_float) :
  i < total -> (Z.of_nat total < 2 ^ 53)%Z ->
  represents a (Z.of_nat i + 1) -> represents n (Z.of_nat total) ->
  represents c 50 ->
  resolve_progress total i
  = SFadd 53 1024 c (SFmul 53 1024 (SFdiv 53 1024 a n) c).
Proof.
  intros Hi Ht Ha Hn Hc.
  unfold resolve_progress, Number.add, Number.mul, Number.div.
  rewrite (Rounding.represents_unique a (num (i + 1)) _ Ha),
    (Rounding.represents_unique n (num total) _ Hn),
    (Rounding.represents_unique c (num 50) _ Hc); [reflexivity| | |].
  - apply (Rounding.num_represents 50). lia.
  - apply Rounding.num_represents. lia.
  - replace (Z.of_nat i + 1)%Z with (Z.of_nat (i + 1)) by lia.
    apply Rounding.num_represents. lia.
Qed.

Lemma lookup_map_seq {A : Type} (f : nat -> A) (n s i : nat) :
  i < n -> map f (seq s n) !! i = Some (f (s + i)).
Proof.
  revert s i. induction n as [|n IH]; intros s i Hi; [lia|].
  destruct i as [|i]; cbn.
  - rewrite Nat.add_0_r. reflexivity.
  - rewrite IH by lia. f_equal. f_equal. lia.
Qed.

Lemma lookup_map_seq_inv {A : Type} (f : nat -> A) (n i : nat) (p : A) :
  map f (seq 0 n) !! i = Some p -> i < n /\ p = f i.
Proof.
  intros Hp. assert (Hi : i < n).
  { apply lookup_lt_Some in Hp. rewrite length_map, length_seq in Hp. exact Hp. }
  rewrite lookup_map_seq in Hp by exact Hi. cbn [Nat.add] in Hp.
  split; [exact Hi | congruence].
Qed.

Section Properties.
Context {W : Type} {backend : Command.Backend W}.
Implicit Types (m : Machine W) (v : Locals) (file : EnhancedAudioFile).
Implicit Types (settings : AppSettings) (selectedFolder : string).

(** ** The loop *)

Lemma for_loop_S {S : Type} (n : nat) (body : nat -> S -> S) (s : S) :
  for_loop (Datatypes.S n) body s = body n (for_loop n body s).
Proof.
  unfold for_loop. rewrite seq_S, foldl_app. reflexivity.
Qed.

(** The remaining iterations always run: the loop has no early exit. *)
Lemma for_loop_resume {S : Type} (n k : nat) (body : nat -> S -> S) (s : S) :
  k <= n ->
  for_loop n body s
  = foldl (fun acc i => body i acc) (for_loop k body s) (seq k (n - k)).
Proof.
  intros Hk. unfold for_loop.
  replace n with (k + (n - k)) at 1 by lia.
  rewrite seq_app, foldl_app. reflexivity.
Qed.

(** ** One file of the apply pass *)

Lemma apply_file_skip settings selectedFolder i m v file :
  updatedFiles v !! i = Some file ->
  applicable file = false ->
  apply_file settings selectedFolder i (m, v) = (m, v).
Proof.
  unfold apply_file, applicable, top_suggestion. intros -> Hskip.
  destruct (suggested_metadata file) as [[|top rest]|]; try reflexivity.
  rewrite Hskip. reflexivity.
Qed.

Lemma applicable_top file :
  applicable file = true ->
  exists top rest,
    suggested_metadata file = Some (top :: rest)
    /\ top_suggestion file = Some top
    /\ truthy_str (MetadataResult.genre top)
       || truthy_str (MetadataResult.artist top) = true.
Proof.
  unfold applicable, top_suggestion.
  destruct (suggested_metadata file) as [[|top rest]|]; try discriminate.
  intros Hg. exists top, rest. auto.
Qed.

Lemma effective_top file top :
  top_suggestion file = Some top ->
  effective file
  = updatedMetadata_of file (MetadataResult.genre top)
      (MetadataResult.artist top).
Proof. unfold effective. intros ->. reflexivity. Qed.

Lemma apply_file_rejected settings selectedFolder i m v file error w' :
  updatedFiles v !! i = Some file ->
  applicable file = true ->
  Command.update_metadata (path file) (effective file)
    (backup_before_changes settings) (world m) = (Rejected error, w') ->
  apply_file settings selectedFolder i (m, v)
  = (console_error ("Error updating " +:+ filename file +:+ ":")
       (ArgString (errorMsg_of error))
       (invoke_update_metadata (path file) (effective file)
          (backup_before_changes settings) m).2,
     mkLocals (updatedFiles v) (successCount v) (S (errorCount v))
       (organizedCount v)
       (errors v ++ [filename file +:+ ": " +:+ errorMsg_of error])).
Proof.
  intros Hi Happ Hw.
  destruct (applicable_top _ Happ) as (top & rest & Hs & Ht & Hg).
  pose proof (effective_top _ _ Ht) as Heff.
  unfold apply_file. rewrite Hi, Hs, Hg, <- Heff.
  unfold invoke_update_metadata, settle. rewrite Hw. reflexivity.
Qed.

Lemma apply_file_resolved settings selectedFolder i m v file u w' :
  updatedFiles v !! i = Some file ->
  applicable file = true ->
  Command.update_metadata (path file) (effective file)
    (backup_before_changes settings) (world m) = (Resolved u, w') ->
  apply_file settings selectedFolder i (m, v)
  = let m1 := (invoke_update_metadata (path file) (effective file)
                 (backup_before_changes settings) m).2 in
    let r := rename_step settings (effective file)
               (set_current_metadata (effective file) file) (path file) m1
    in
    let o := organize_step settings selectedFolder (effective file)
               r.1.2 r.2 (organizedCount v) r.1.1 in
    (o.1.1,
     mkLocals (<[i := o.1.2]> (updatedFiles v)) (S (successCount v))
       (errorCount v) o.2 (errors v)).
Proof.
  intros Hi Happ Hw.
  destruct (applicable_top _ Happ) as (top & rest & Hs & Ht & Hg).
  pose proof (effective_top _ _ Ht) as Heff.
  unfold apply_file. rewrite Hi, Hs, Hg, <- Heff.
  unfold invoke_update_metadata, settle. rewrite Hw. cbn.
  destruct (rename_step _ _ _ _ _) as [[m2 file2] p2]. cbn.
  destruct (organize_step _ _ _ _ _ _ _) as [[m3 file3] o3]. reflexivity.
Qed.

(** The optional steps leave the written metadata alone. *)
Lemma rename_step_current_metadata settings md file p m :
  current_metadata (rename_step settings md file p m).1.2
  = current_metadata file.
Proof.
  unfold rename_step. destruct (rename_files settings); [|reflexivity].
  destruct (invoke_rename_file p md m) as [[newPath|renError] m'];
    reflexivity.
Qed.

Lemma organize_step_current_metadata settings selectedFolder md file p n m :
  current_metadata (organize_step settings selectedFolder md file p n m).1.2
  = current_metadata file.
Proof.
  unfold organize_step.
  destruct (organize_files settings && _); [|reflexivity].
  destruct (invoke_organize_files p md selectedFolder m)
    as [[newPath|orgError] m']; reflexivity.
Qed.

Lemma organize_step_filename settings selectedFolder md file p n m :
  filename (organize_step settings selectedFolder md file p n m).1.2
  = filename file.
Proof.
  unfold organize_step.
  destruct (organize_files settings && _); [|reflexivity].
  destruct (invoke_organize_files p md selectedFolder m)
    as [[newPath|orgError] m']; reflexivity.
Qed.

(** Three cases cover [apply_file] on a file that exists. *)
Ltac apply_file_cases settings i m v file Hi :=
  let Happ := fresh "Happ" in
  let Hw := fresh "Hw" in
  destruct (applicable file) eqn:Happ;
  [ destruct (Command.update_metadata (path file) (effective file)
                (backup_before_changes settings) (world m))
      as [[?u|?error] ?w'] eqn:Hw;
    [ rewrite (apply_file_resolved _ _ _ _ _ _ _ _ Hi Happ Hw)
    | rewrite (apply_file_rejected _ _ _ _ _ _ _ _ Hi Happ Hw) ]
  | rewrite (apply_file_skip _ _ _ _ _ _ Hi Happ) ].

(** Iteration [i] writes to the file object at index [i] only. *)
Lemma apply_file_lookup_ne settings selectedFolder i j m v :
  i <> j ->
  updatedFiles (apply_file settings selectedFolder i (m, v)).2 !! j
  = updatedFiles v !! j.
Proof.
  intros Hne. destruct (updatedFiles v !! i) as [file|] eqn:Hi.
  - apply_file_cases settings i m v file Hi; cbn; try reflexivity.
    apply list_lookup_insert_ne, Hne.
  - unfold apply_file. rewrite Hi. reflexivity.
Qed.

Lemma apply_file_length settings selectedFolder i m v :
  length (updatedFiles (apply_file settings selectedFolder i (m, v)).2)
  = length (updatedFiles v).
Proof.
  destruct (updatedFiles v !! i) as [file|] eqn:Hi.
  - apply_file_cases settings i m v file Hi; cbn; try reflexivity.
    apply length_insert.
  - unfold apply_file. rewrite Hi. reflexivity.
Qed.

Lemma apply_iteration_eq settings selectedFolder total i st :
  apply_iteration settings selectedFolder total i st
  = (setProgress (apply_progress total i)
       (apply_file settings selectedFolder i st).1,
     (apply_file settings selectedFolder i st).2).
Proof.
  unfold apply_iteration.
  destruct (apply_file settings selectedFolder i st). reflexivity.
Qed.

(** ** The apply pass, file by file *)

Lemma apply_upto_S settings selectedFolder m k :
  apply_upto settings selectedFolder m (S k)
  = apply_iteration settings selectedFolder (length (files m)) k
      (apply_upto settings selectedFolder m k).
Proof. apply for_loop_S. Qed.

(** When the turn of a file begins, its object is as the pass found it. *)
Lemma apply_upto_lookup_ge settings selectedFolder m k i :
  k <= i ->
  updatedFiles (apply_upto settings selectedFolder m k).2 !! i
  = files m !! i.
Proof.
  induction k as [|k IH]; intros Hk; [reflexivity|].
  rewrite apply_upto_S, apply_iteration_eq. cbn.
  destruct (apply_upto settings selectedFolder m k) as [mk vk] eqn:Hst.
  rewrite apply_file_lookup_ne by lia. apply IH. lia.
Qed.

(** After its turn, a file object is not written again. *)
Lemma apply_upto_lookup_lt settings selectedFolder m k i :
  i < k ->
  updatedFiles (apply_upto settings selectedFolder m k).2 !! i
  = updatedFiles (apply_upto settings selectedFolder m (S i)).2 !! i.
Proof.
  induction k as [|k IH]; intros Hk; [lia|].
  destruct (decide (i = k)) as [->|Hne]; [reflexivity|].
  rewrite <- IH by lia.
  rewrite apply_upto_S, apply_iteration_eq. cbn.
  destruct (apply_upto settings selectedFolder m k) as [mk vk] eqn:Hst.
  apply apply_file_lookup_ne. lia.
Qed.

Lemma handleApplyChanges_files settings selectedFolder m :
  files (handleApplyChanges settings selectedFolder m)
  = updatedFiles
      (apply_upto settings selectedFolder m (length (files m))).2.
Proof.
  unfold handleApplyChanges, apply_pass.
  destruct (apply_upto _ _ _ _) as [m' v]. cbn.
  destruct (decide _); reflexivity.
Qed.

(** The file at index [i] after the whole pass is the one its own
    iteration left. *)
Lemma handleApplyChanges_lookup settings selectedFolder m i :
  i < length (files m) ->
  files (handleApplyChanges settings selectedFolder m) !! i
  = updatedFiles (apply_upto settings selectedFolder m (S i)).2 !! i.
Proof.
  intros Hi. rewrite handleApplyChanges_files.
  apply apply_upto_lookup_lt, Hi.
Qed.

(** ** What the apply pass does to a file *)

(** C1.  A file the pass works on ends with the effective metadata as
    its [current_metadata] when [update_metadata] resolved for it, and
    with its [current_metadata] as it was before the pass when
    [update_metadata] was rejected. *)
Theorem apply_current_metadata_follows_write
    settings selectedFolder m i file :
  files m !! i = Some file ->
  applicable file = true ->
  let before := (apply_upto settings selectedFolder m i).1 in
  let after := handleApplyChanges settings selectedFolder m in
  match (Command.update_metadata (path file) (effective file)
           (backup_before_changes settings) (world before)).1 with
  | Resolved _ =>
      current_metadata <$> files after !! i = Some (Some (effective file))
  | Rejected _ =>
      current_metadata <$> files after !! i = Some (current_metadata file)
  end.
Proof.
  intros Hfile Happ before after. subst before after.
  pose proof (lookup_lt_Some _ _ _ Hfile) as Hlt.
  rewrite (handleApplyChanges_lookup _ _ _ _ Hlt).
  rewrite apply_upto_S, apply_iteration_eq.
  pose proof (apply_upto_lookup_ge settings selectedFolder m i i
                (Nat.le_refl i)) as Hi.
  rewrite Hfile in Hi.
  destruct (apply_upto settings selectedFolder m i) as [mi vi].
  cbn [fst snd] in *.
  pose proof (lookup_lt_Some _ _ _ Hi) as Hlti.
  destruct (Command.update_metadata _ _ _ _) as [[u|error] w'] eqn:Hw;
    cbn [fst snd].
  - rewrite (apply_file_resolved _ _ _ _ _ _ _ _ Hi Happ Hw). cbn.
    rewrite list_lookup_insert_eq by exact Hlti. cbn.
    rewrite organize_step_current_metadata, rename_step_current_metadata.
    reflexivity.
  - rewrite (apply_file_rejected _ _ _ _ _ _ _ _ Hi Happ Hw). cbn.
    rewrite Hi. reflexivity.
Qed.

(** What the optional steps invoke: each is attempted exactly when it
    is enabled, whatever happened before it. *)
Lemma rename_step_invoked settings md file p m :
  invoked (rename_step settings md file p m).1.1
  = invoked m ++ (if rename_files settings then [Rename_file p md] else []).
Proof.
  unfold rename_step. destruct (rename_files settings).
  - unfold invoke_rename_file, settle.
    destruct (Command.rename_file p md (world m)) as [[newPath|renError] w'];
      reflexivity.
  - symmetry. apply app_nil_r.
Qed.

Lemma organize_step_invoked settings selectedFolder md file p n m :
  invoked (organize_step settings selectedFolder md file p n m).1.1
  = invoked m
    ++ (if organize_files settings && bool_decide (selectedFolder <> "")
        then [Organize_files p md selectedFolder] else []).
Proof.
  unfold organize_step. destruct (organize_files settings && _).
  - unfold invoke_organize_files, settle.
    destruct (Command.organize_files p md selectedFolder (world m))
      as [[newPath|orgError] w']; reflexivity.
  - symmetry. apply app_nil_r.
Qed.

Lemma rename_step_progress_log settings md file p m :
  progress_log (rename_step settings md file p m).1.1 = progress_log m.
Proof.
  unfold rename_step. destruct (rename_files settings); [|reflexivity].
  unfold invoke_rename_file, settle.
  destruct (Command.rename_file p md (world m)) as [[newPath|renError] w'];
    reflexivity.
Qed.

Lemma organize_step_progress_log settings selectedFolder md file p n m :
  progress_log (organize_step settings selectedFolder md file p n m).1.1
  = progress_log m.
Proof.
  unfold organize_step. destruct (organize_files settings && _);
    [|reflexivity].
  unfold invoke_organize_files, settle.
  destruct (Command.organize_files p md selectedFolder (world m))
    as [[newPath|orgError] w']; reflexivity.
Qed.

(** The state at the turn of a file, with the file in hand. *)
Lemma apply_turn settings selectedFolder m i file :
  files m !! i = Some file ->
  updatedFiles (apply_upto settings selectedFolder m i).2 !! i = Some file.
Proof.
  intros Hfile. rewrite apply_upto_lookup_ge by reflexivity. exact Hfile.
Qed.

(** The pass from the state a file's iteration left: every later file
    still gets its iteration. *)
Lemma apply_resume settings selectedFolder m i :
  i < length (files m) ->
  apply_upto settings selectedFolder m (length (files m))
  = foldl
      (fun acc j =>
         apply_iteration settings selectedFolder (length (files m)) j acc)
      (apply_upto settings selectedFolder m (S i))
      (seq (S i) (length (files m) - S i)).
Proof. intros Hi. unfold apply_upto. apply for_loop_resume. lia. Qed.

(** C4.  When [update_metadata] is rejected for a file, the iteration
    adds one to the failure count, appends ["<filename>: <message>"] to
    the error list, where the message is the [message] of the error when
    an [Error] instance was thrown and the string conversion of the
    thrown value otherwise, invokes nothing after the failed write (no
    rename, no organize), leaves the success and organized counts and the
    inventory as they were, reports the file's progress, and the pass
    goes on with the following files. *)
Theorem apply_write_failure_is_terminal
    settings selectedFolder m i file error w' :
  files m !! i = Some file ->
  applicable file = true ->
  let before := apply_upto settings selectedFolder m i in
  let after := apply_upto settings selectedFolder m (S i) in
  Command.update_metadata (path file) (effective file)
    (backup_before_changes settings) (world before.1)
  = (Rejected error, w') ->
  errorCount after.2 = S (errorCount before.2)
  /\ errors after.2
     = errors before.2
       ++ [filename file +:+ ": "
           +:+ match error with
               | ErrorObject _ message => message
               | OtherValue shown => shown
               end]
  /\ invoked after.1
     = invoked before.1
       ++ [Update_metadata (path file) (effective file)
             (backup_before_changes settings)]
  /\ successCount after.2 = successCount before.2
  /\ organizedCount after.2 = organizedCount before.2
  /\ updatedFiles after.2 = updatedFiles before.2
  /\ progress_log after.1
     = progress_log before.1 ++ [apply_progress (length (files m)) i]
  /\ apply_upto settings selectedFolder m (length (files m))
     = foldl
         (fun acc j =>
            apply_iteration settings selectedFolder (length (files m)) j acc)
         after (seq (S i) (length (files m) - S i)).
Proof.
  intros Hfile Happ before after Hw. subst before after.
  pose proof (apply_turn settings selectedFolder _ _ _ Hfile) as Hi.
  pose proof (apply_resume settings selectedFolder m i
                (lookup_lt_Some _ _ _ Hfile)) as Hresume.
  rewrite apply_upto_S, apply_iteration_eq in *.
  destruct (apply_upto settings selectedFolder m i) as [mi vi].
  cbn [fst snd] in *.
  rewrite (apply_file_rejected _ _ _ _ _ _ _ _ Hi Happ Hw) in *.
  repeat split; try reflexivity. exact Hresume.
Qed.

(** C5.  When [update_metadata] resolves for a file, the iteration adds
    one to the success count whatever the rename and organize commands
    answer; the failure count and the error list stay as they were, the
    written metadata stays on the file, each optional step is attempted
    exactly when it is enabled (organize also after a failed rename),
    and the pass goes on with the following files. *)
Theorem apply_success_ignores_optional_steps
    settings selectedFolder m i file u w' :
  files m !! i = Some file ->
  applicable file = true ->
  let before := apply_upto settings selectedFolder m i in
  let after := apply_upto settings selectedFolder m (S i) in
  Command.update_metadata (path file) (effective file)
    (backup_before_changes settings) (world before.1)
  = (Resolved u, w') ->
  successCount after.2 = S (successCount before.2)
  /\ errorCount after.2 = errorCount before.2
  /\ errors after.2 = errors before.2
  /\ current_metadata <$> updatedFiles after.2 !! i
     = Some (Some (effective file))
  /\ (exists currentPath,
        invoked after.1
        = invoked before.1
          ++ [Update_metadata (path file) (effective file)
                (backup_before_changes settings)]
          ++ (if rename_files settings
              then [Rename_file (path file) (effective file)] else [])
          ++ (if organize_files settings
                 && bool_decide (selectedFolder <> "")
              then [Organize_files currentPath (effective file)
                      selectedFolder]
              else []))
  /\ progress_log after.1
     = progress_log before.1 ++ [apply_progress (length (files m)) i]
  /\ apply_upto settings selectedFolder m (length (files m))
     = foldl
         (fun acc j =>
            apply_iteration settings selectedFolder (length (files m)) j acc)
         after (seq (S i) (length (files m) - S i)).
Proof.
  intros Hfile Happ before after Hw. subst before after.
  pose proof (apply_turn settings selectedFolder _ _ _ Hfile) as Hi.
  pose proof (apply_resume settings selectedFolder m i
                (lookup_lt_Some _ _ _ Hfile)) as Hresume.
  rewrite apply_upto_S, apply_iteration_eq in *.
  destruct (apply_upto settings selectedFolder m i) as [mi vi].
  cbn [fst snd] in *.
  pose proof (lookup_lt_Some _ _ _ Hi) as Hlt.
  rewrite (apply_file_resolved _ _ _ _ _ _ _ _ Hi Happ Hw) in *.
  cbn [fst snd updatedFiles successCount errorCount errors invoked
       progress_log setProgress].
  repeat split; try reflexivity.
  - rewrite list_lookup_insert_eq by exact Hlt. cbn.
    rewrite organize_step_current_metadata, rename_step_current_metadata.
    reflexivity.
  - eexists. rewrite organize_step_invoked, rename_step_invoked.
    cbn. rewrite <- !app_assoc. reflexivity.
  - rewrite organize_step_progress_log, rename_step_progress_log.
    reflexivity.
  - exact Hresume.
Qed.

(** C6.  A file with no suggestions (the field unset or the sequence
    empty), or whose top suggestion has neither a genre nor an artist,
    is skipped by the apply pass: its iteration changes no count and
    not the error list, invokes no command, leaves the world and the
    inventory as they were, and only reports progress. *)
Theorem apply_skips_files_without_usable_suggestion
    settings selectedFolder m i file :
  files m !! i = Some file ->
  (suggested_metadata file = None
   \/ suggested_metadata file = Some []
   \/ exists top rest,
        suggested_metadata file = Some (top :: rest)
        /\ truthy_str (MetadataResult.genre top) = false
        /\ truthy_str (MetadataResult.artist top) = false) ->
  let before := apply_upto settings selectedFolder m i in
  let after := apply_upto settings selectedFolder m (S i) in
  successCount after.2 = successCount before.2
  /\ errorCount after.2 = errorCount before.2
  /\ organizedCount after.2 = organizedCount before.2
  /\ errors after.2 = errors before.2
  /\ invoked after.1 = invoked before.1
  /\ world after.1 = world before.1
  /\ console after.1 = console before.1
  /\ updatedFiles after.2 = updatedFiles before.2
  /\ progress_log after.1
     = progress_log before.1 ++ [apply_progress (length (files m)) i].
Proof.
  intros Hfile Hskip before after. subst before after.
  assert (Happ : applicable file = false).
  { unfold applicable, top_suggestion.
    destruct Hskip as [-> | [-> | (top & rest & -> & -> & ->)]];
      reflexivity. }
  pose proof (apply_turn settings selectedFolder _ _ _ Hfile) as Hi.
  rewrite apply_upto_S, apply_iteration_eq.
  destruct (apply_upto settings selectedFolder m i) as [mi vi].
  cbn [fst snd] in *.
  rewrite (apply_file_skip _ _ _ _ _ _ Hi Happ).
  repeat split; reflexivity.
Qed.

(** C9.  On an empty inventory the apply handler makes no iteration:
    the three counts are zero and the error list is empty, nothing is
    invoked or logged, the only progress value reported is the initial
    0, and the status message is the summary for zero files. *)
Theorem apply_on_empty_inventory settings selectedFolder m :
  files m = [] ->
  let after := handleApplyChanges settings selectedFolder m in
  (apply_pass settings selectedFolder m).2 = mkLocals [] 0 0 0 []
  /\ progress after = zero
  /\ progress_log after = progress_log m ++ [zero]
  /\ invoked after = invoked m
  /\ console after = console m
  /\ files after = []
  /\ statusMessage after = "Completed! 0 files updated successfully".
Proof.
  intros Hnil after. subst after.
  unfold handleApplyChanges, apply_pass, apply_upto, apply_start.
  cbn. rewrite Hnil. cbn. repeat split; reflexivity.
Qed.

Lemma rename_step_resolved settings md file p m newPath w' :
  rename_files settings = true ->
  Command.rename_file p md (world m) = (Resolved newPath, w') ->
  (rename_step settings md file p m).1.2
  = set_filename (or_default (pop (split "/" newPath)) (filename file))
      (set_path newPath file).
Proof.
  intros Hon Hr. unfold rename_step, invoke_rename_file, settle.
  rewrite Hon, Hr. reflexivity.
Qed.

(** C10.  After [update_metadata] and then [rename_file] resolved for a
    file, the file's stored filename is the segment of the returned
    path after its last ['/'] (the whole path when it has no ['/']),
    unless that segment is empty, in which case the filename stays as
    it was. *)
Theorem rename_sets_filename_to_last_segment
    settings selectedFolder m i file u w1 newPath w2 :
  files m !! i = Some file ->
  applicable file = true ->
  rename_files settings = true ->
  let before := apply_upto settings selectedFolder m i in
  let after := handleApplyChanges settings selectedFolder m in
  Command.update_metadata (path file) (effective file)
    (backup_before_changes settings) (world before.1)
  = (Resolved u, w1) ->
  Command.rename_file (path file) (effective file) w1
  = (Resolved newPath, w2) ->
  exists segment,
    pop (split "/" newPath) = Some segment
    /\ free_of "/" segment = true
    /\ ((free_of "/" newPath = true /\ newPath = segment)
        \/ exists pre, newPath = pre +:+ String "/" segment)
    /\ filename <$> files after !! i
       = Some (if decide (segment = "") then filename file else segment).
Proof.
  intros Hfile Happ Hon before after Hw Hr. subst before after.
  destruct (pop_split "/" newPath) as (segment & Hpop & Hfree & Hshape).
  exists segment. split; [exact Hpop|].
  split; [exact Hfree|]. split; [exact Hshape|].
  pose proof (lookup_lt_Some _ _ _ Hfile) as Hlt.
  rewrite (handleApplyChanges_lookup _ _ _ _ Hlt).
  pose proof (apply_turn settings selectedFolder _ _ _ Hfile) as Hi.
  rewrite apply_upto_S, apply_iteration_eq.
  destruct (apply_upto settings selectedFolder m i) as [mi vi].
  cbn [fst snd] in *.
  pose proof (lookup_lt_Some _ _ _ Hi) as Hlti.
  rewrite (apply_file_resolved _ _ _ _ _ _ _ _ Hi Happ Hw).
  cbn [fst snd updatedFiles].
  rewrite list_lookup_insert_eq by exact Hlti. cbn [fmap option_fmap option_map].
  rewrite organize_step_filename.
  rewrite (rename_step_resolved _ _ _ _ _ newPath w2 Hon).
  - rewrite Hpop. reflexivity.
  - unfold invoke_update_metadata, settle. rewrite Hw. exact Hr.
Qed.

(** ** One file of the resolution pass *)

Lemma resolve_file_skip i m (scannedFiles : list EnhancedAudioFile) file :
  scannedFiles !! i = Some file ->
  eligible file = false ->
  resolve_file i (m, scannedFiles) = (m, scannedFiles).
Proof.
  unfold resolve_file, eligible. intros -> ->. reflexivity.
Qed.

Lemma eligible_iff file :
  eligible file = true <->
  exists artist title,
    chain Metadata.artist (current_metadata file) = Some artist
    /\ artist <> ""
    /\ chain Metadata.title (current_metadata file) = Some title
    /\ title <> "".
Proof.
  unfold eligible, truthy_str. split.
  - destruct (chain Metadata.artist _) as [artist|]; [|discriminate].
    destruct (chain Metadata.title _) as [title|];
      [|rewrite andb_false_r; discriminate].
    destruct (decide (artist = "")); [discriminate|].
    destruct (decide (title = "")); [discriminate|].
    intros _. exists artist, title. auto.
  - intros (artist & title & -> & Ha & -> & Ht).
    destruct (decide (artist = "")); [contradiction|].
    destruct (decide (title = "")); [contradiction|]. reflexivity.
Qed.

Lemma resolve_file_eligible i m (scannedFiles : list EnhancedAudioFile)
    file artist title :
  scannedFiles !! i = Some file ->
  chain Metadata.artist (current_metadata file) = Some artist ->
  artist <> "" ->
  chain Metadata.title (current_metadata file) = Some title ->
  title <> "" ->
  resolve_file i (m, scannedFiles)
  = match invoke_fetch_metadata artist title m with
    | (Resolved metadata, m') =>
        (m', <[i := set_suggested_metadata metadata file]> scannedFiles)
    | (Rejected error, m') =>
        (console_error
           ("Error fetching metadata for " +:+ filename file +:+ ":")
           (ArgThrown error) m',
         scannedFiles)
    end.
Proof.
  intros Hi Ha Hna Ht Hnt. unfold resolve_file.
  rewrite Hi, Ha, Ht. unfold truthy_str.
  destruct (decide (artist = "")); [contradiction|].
  destruct (decide (title = "")); [contradiction|]. reflexivity.
Qed.

Lemma resolve_file_lookup_ne i j m (scannedFiles : list EnhancedAudioFile) :
  i <> j ->
  (resolve_file i (m, scannedFiles)).2 !! j = scannedFiles !! j.
Proof.
  intros Hne. unfold resolve_file.
  destruct (scannedFiles !! i) as [file|]; [|reflexivity].
  destruct (_ && _); [|reflexivity].
  destruct (invoke_fetch_metadata _ _ m) as [[metadata|error] m'];
    [|reflexivity].
  apply list_lookup_insert_ne, Hne.
Qed.

Lemma resolve_iteration_eq total i st :
  resolve_iteration total i st
  = (setProgress (resolve_progress total i) (resolve_file i st).1,
     (resolve_file i st).2).
Proof.
  unfold resolve_iteration. destruct (resolve_file i st). reflexivity.
Qed.

(** ** The resolution pass, file by file *)

Lemma resolve_upto_S scannedFiles m k :
  resolve_upto scannedFiles m (S k)
  = resolve_iteration (length scannedFiles) k
      (resolve_upto scannedFiles m k).
Proof. apply for_loop_S. Qed.

Lemma resolve_upto_lookup_ge scannedFiles m k i :
  k <= i ->
  (resolve_upto scannedFiles m k).2 !! i = scannedFiles !! i.
Proof.
  induction k as [|k IH]; intros Hk; [reflexivity|].
  rewrite resolve_upto_S, resolve_iteration_eq. cbn [fst snd].
  destruct (resolve_upto scannedFiles m k) as [mk lk] eqn:Hst.
  rewrite resolve_file_lookup_ne by lia. apply IH. lia.
Qed.

Lemma resolve_upto_lookup_lt scannedFiles m k i :
  i < k ->
  (resolve_upto scannedFiles m k).2 !! i
  = (resolve_upto scannedFiles m (S i)).2 !! i.
Proof.
  induction k as [|k IH]; intros Hk; [lia|].
  destruct (decide (i = k)) as [->|Hne]; [reflexivity|].
  rewrite <- IH by lia.
  rewrite resolve_upto_S, resolve_iteration_eq. cbn [fst snd].
  destruct (resolve_upto scannedFiles m k) as [mk lk] eqn:Hst.
  apply resolve_file_lookup_ne. lia.
Qed.

Lemma resolution_pass_lookup scannedFiles m i :
  i < length scannedFiles ->
  (resolution_pass scannedFiles m).2 !! i
  = (resolve_upto scannedFiles m (S i)).2 !! i.
Proof. apply resolve_upto_lookup_lt. Qed.

Lemma resolve_resume scannedFiles m i :
  i < length scannedFiles ->
  resolution_pass scannedFiles m
  = foldl
      (fun acc j => resolve_iteration (length scannedFiles) j acc)
      (resolve_upto scannedFiles m (S i))
      (seq (S i) (length scannedFiles - S i)).
Proof.
  intros Hi. unfold resolution_pass, resolve_upto.
  apply for_loop_resume. lia.
Qed.

(** The scan handler runs the resolution pass on what [scan_folder]
    resolved with, and ends at 100 with the scanning flag cleared. *)
Lemma handleStartScan_resolved selectedFolder m scannedFiles w' :
  selectedFolder <> "" ->
  Command.scan_folder selectedFolder (world m) = (Resolved scannedFiles, w') ->
  exists entry,
    world entry = w'
    /\ invoked entry = invoked m ++ [Scan_folder selectedFolder]
    /\ progress_log entry = progress_log m ++ [num 10; num 50]
    /\ files (handleStartScan selectedFolder m)
       = (resolution_pass scannedFiles entry).2
    /\ invoked (handleStartScan selectedFolder m)
       = invoked (resolution_pass scannedFiles entry).1
    /\ progress (handleStartScan selectedFolder m) = num 100
    /\ isScanning (handleStartScan selectedFolder m) = false.
Proof.
  intros Hfolder Hscan. unfold handleStartScan, invoke_scan_folder, settle.
  destruct (decide (selectedFolder = "")); [contradiction|].
  cbn [world setProgress setStatusMessage setIsScanning].
  rewrite Hscan. cbn [fst snd].
  eexists. split; [|split; [|split; [|
    destruct (resolution_pass scannedFiles _) as [m' l'] eqn:Hpass;
    rewrite Hpass; repeat split; reflexivity]]]; cbn.
  - reflexivity.
  - reflexivity.
  - rewrite <- app_assoc. reflexivity.
Qed.

Lemma resolve_turn scannedFiles m i file :
  scannedFiles !! i = Some file ->
  (resolve_upto scannedFiles m i).2 !! i = Some file.
Proof.
  intros Hfile. rewrite resolve_upto_lookup_ge by reflexivity. exact Hfile.
Qed.

(** ** What the resolution pass does to a file *)


(** C8.  When [fetch_metadata] is rejected for a file, the inventory is
    left as it was (the file's [suggested_metadata] stays as the scan
    produced it: unset for a file that came without one), the file's
    progress value is still reported, and the pass goes on with the
    following files. *)
Theorem resolution_failure_is_isolated
    scannedFiles m i file artist title error w' :
  scannedFiles !! i = Some file ->
  chain Metadata.artist (current_metadata file) = Some artist ->
  artist <> "" ->
  chain Metadata.title (current_metadata file) = Some title ->
  title <> "" ->
  let before := resolve_upto scannedFiles m i in
  let after := resolve_upto scannedFiles m (S i) in
  let final := (resolution_pass scannedFiles m).2 in
  Command.fetch_metadata artist title (world before.1)
  = (Rejected error, w') ->
  after.2 = before.2
  /\ final !! i = Some file
  /\ (suggested_metadata file = None ->
      suggested_metadata <$> final !! i = Some None)
  /\ progress_log after.1
     = progress_log before.1 ++ [resolve_progress (length scannedFiles) i]
  /\ resolution_pass scannedFiles m
     = foldl
         (fun acc j => resolve_iteration (length scannedFiles) j acc)
         after (seq (S i) (length scannedFiles - S i)).
Proof.
  intros Hfile Ha Hna Ht Hnt before after final Hr.
  subst before after final.
  pose proof (lookup_lt_Some _ _ _ Hfile) as Hlt.
  pose proof (resolve_resume scannedFiles m i Hlt) as Hresume.
  rewrite (resolution_pass_lookup _ _ _ Hlt).
  pose proof (resolve_turn scannedFiles m _ _ Hfile) as Hi.
  rewrite resolve_upto_S, resolve_iteration_eq in *.
  destruct (resolve_upto scannedFiles m i) as [mi li].
  cbn [fst snd] in *.
  rewrite (resolve_file_eligible _ _ _ _ _ _ Hi Ha Hna Ht Hnt) in *.
  unfold invoke_fetch_metadata, settle in *. rewrite Hr in *.
  cbn [fst snd] in *.
  split; [reflexivity|]. split; [exact Hi|].
  split; [intros Hunset; rewrite Hi; cbn; rewrite Hunset; reflexivity|].
  split; [reflexivity|exact Hresume].
Qed.

(** ** Progress *)

Lemma apply_file_progress_log settings selectedFolder i m v :
  progress_log (apply_file settings selectedFolder i (m, v)).1
  = progress_log m.
Proof.
  destruct (updatedFiles v !! i) as [file|] eqn:Hi.
  - apply_file_cases settings i m v file Hi; cbn [fst snd]; try reflexivity.
    rewrite organize_step_progress_log, rename_step_progress_log.
    reflexivity.
  - unfold apply_file. rewrite Hi. reflexivity.
Qed.

Lemma apply_upto_progress_log settings selectedFolder m k :
  progress_log (apply_upto settings selectedFolder m k).1
  = progress_log m
    ++ num 0 :: map (apply_progress (length (files m))) (seq 0 k).
Proof.
  induction k as [|k IH]; [reflexivity|].
  rewrite apply_upto_S, apply_iteration_eq. cbn [fst progress_log setProgress].
  destruct (apply_upto settings selectedFolder m k) as [mk vk].
  rewrite apply_file_progress_log. cbn [fst] in IH. rewrite IH.
  rewrite seq_S, map_app, <- app_assoc. reflexivity.
Qed.

Lemma handleApplyChanges_progress settings selectedFolder m :
  progress_log (handleApplyChanges settings selectedFolder m)
  = progress_log
      (apply_upto settings selectedFolder m (length (files m))).1
  /\ progress (handleApplyChanges settings selectedFolder m)
     = progress
         (apply_upto settings selectedFolder m (length (files m))).1.
Proof.
  unfold handleApplyChanges, apply_pass.
  destruct (apply_upto _ _ _ _) as [m' v]. cbn.
  destruct (decide _); split; reflexivity.
Qed.

Lemma resolve_file_progress_log i m (l : list EnhancedAudioFile) :
  progress_log (resolve_file i (m, l)).1 = progress_log m.
Proof.
  unfold resolve_file. destruct (l !! i) as [file|]; [|reflexivity].
  destruct (_ && _); [|reflexivity].
  unfold invoke_fetch_metadata, settle.
  destruct (Command.fetch_metadata _ _ _) as [[metadata|error] w'];
    reflexivity.
Qed.

Lemma resolve_upto_progress_log scannedFiles m k :
  progress_log (resolve_upto scannedFiles m k).1
  = progress_log m
    ++ map (resolve_progress (length scannedFiles)) (seq 0 k).
Proof.
  induction k as [|k IH]; [symmetry; apply app_nil_r|].
  rewrite resolve_upto_S, resolve_iteration_eq.
  cbn [fst progress_log setProgress].
  destruct (resolve_upto scannedFiles m k) as [mk lk].
  rewrite resolve_file_progress_log. cbn [fst] in IH. rewrite IH.
  rewrite seq_S, map_app, <- app_assoc. reflexivity.
Qed.

Lemma apply_upto_progress settings selectedFolder m k :
  progress (apply_upto settings selectedFolder m (S k)).1
  = apply_progress (length (files m)) k.
Proof. rewrite apply_upto_S, apply_iteration_eq. reflexivity. Qed.

Lemma resolve_upto_progress scannedFiles m k :
  progress (resolve_upto scannedFiles m (S k)).1
  = resolve_progress (length scannedFiles) k.
Proof. rewrite resolve_upto_S, resolve_iteration_eq. reflexivity. Qed.

(** C7.  Over a non-empty inventory (of fewer than 2^53 files, as every
    array is), the resolution pass reports one value per file, in order:
    for the file at index [i] the binary64 result of
    [50 + ((i+1) / total) * 50], computed on the numbers [i+1], [total]
    and [50] with one rounded division, multiplication and addition.  The
    apply pass reports 0 and then, per file, the binary64 result of
    [((i+1) / total) * 100].  Both sequences never decrease, and the
    value reported after the last file, which is the progress the pass
    ends with, is the number 100 exactly. *)
Theorem progress_follows_formula_and_ends_at_100
    settings selectedFolder inventory m :
  inventory <> [] ->
  (Z.of_nat (length inventory) < 2 ^ 53)%Z ->
  let total := length inventory in
  let resolved := (resolution_pass inventory m).1 in
  let applied :=
    handleApplyChanges settings selectedFolder (setFiles inventory m) in
  (exists reports,
      progress_log resolved = progress_log m ++ reports
      /\ length reports = total
      /\ (forall i, i < total ->
            exists a n c,
              represents a (Z.of_nat i + 1)
              /\ represents n (Z.of_nat total)
              /\ represents c 50
              /\ reports !! i
                 = Some (SFadd 53 1024 c
                           (SFmul 53 1024 (SFdiv 53 1024 a n) c)))
      /\ (forall i j p q, i <= j ->
            reports !! i = Some p -> reports !! j = Some q -> at_most p q)
      /\ reports !! (total - 1) = Some hundred)
  /\ (exists reports,
        progress_log applied = progress_log m ++ zero :: reports
        /\ length reports = total
        /\ (forall i, i < total ->
              exists a n c,
                represents a (Z.of_nat i + 1)
                /\ represents n (Z.of_nat total)
                /\ represents c 100
                /\ reports !! i
                   = Some (SFmul 53 1024 (SFdiv 53 1024 a n) c))
        /\ (forall i j p q, i <= j ->
              reports !! i = Some p -> reports !! j = Some q -> at_most p q)
        /\ reports !! (total - 1) = Some hundred)
  /\ progress resolved = hundred
  /\ progress applied = hundred.
Proof.
  intros Hne Hlen total resolved applied.
  assert (Hpos : 0 < total) by (destruct inventory; [done|cbn; lia]).
  subst resolved applied.
  destruct (handleApplyChanges_progress settings selectedFolder
              (setFiles inventory m)) as [-> ->].
  unfold resolution_pass.
  rewrite resolve_upto_progress_log, apply_upto_progress_log.
  cbn [files setFiles progress_log]. fold total.
  split; [|split; [|split]].
  - exists (map (resolve_progress total) (seq 0 total)).
    split; [reflexivity|]. split; [rewrite length_map, length_seq; reflexivity|].
    split; [|split].
    + intros i Hi. exists (num (i + 1)), (num total), (num 50).
      split; [replace (Z.of_nat i + 1)%Z with (Z.of_nat (i + 1)) by lia;
              apply Rounding.num_represents; lia|].
      split; [apply Rounding.num_represents; lia|].
      split; [apply (Rounding.num_represents 50); lia|].
      rewrite lookup_map_seq by exact Hi. reflexivity.
    + intros i j p q Hij Hp Hq.
      apply lookup_map_seq_inv in Hp, Hq.
      destruct Hp as [Hi ->], Hq as [Hj ->].
      apply resolve_progress_mono; [lia | exact Hlen].
    + rewrite lookup_map_seq by lia. cbn [Nat.add].
      rewrite resolve_progress_last by assumption. reflexivity.
  - exists (map (apply_progress total) (seq 0 total)).
    split; [destruct num_literals as (-> & _); reflexivity|].
    split; [rewrite length_map, length_seq; reflexivity|].
    split; [|split].
    + intros i Hi. exists (num (i + 1)), (num total), (num 100).
      split; [replace (Z.of_nat i + 1)%Z with (Z.of_nat (i + 1)) by lia;
              apply Rounding.num_represents; lia|].
      split; [apply Rounding.num_represents; lia|].
      split; [apply (Rounding.num_represents 100); lia|].
      rewrite lookup_map_seq by exact Hi. reflexivity.
    + intros i j p q Hij Hp Hq.
      apply lookup_map_seq_inv in Hp, Hq.
      destruct Hp as [Hi ->], Hq as [Hj ->].
      apply apply_progress_mono; [lia | exact Hlen].
    + rewrite lookup_map_seq by lia. cbn [Nat.add].
      rewrite apply_progress_last by assumption. reflexivity.
  - replace total with (S (total - 1)) at 1 by lia.
    rewrite resolve_upto_progress. apply resolve_progress_last; assumption.
  - replace total with (S (total - 1)) at 1 by lia.
    rewrite apply_upto_progress. apply apply_progress_last; assumption.
Qed.

(** ** The effective metadata *)

(** Whatever [update_metadata] answers, it is invoked with the file's
    path, the effective metadata and the backup flag. *)
Lemma apply_file_invokes_update settings selectedFolder i m v file :
  updatedFiles v !! i = Some file ->
  applicable file = true ->
  exists tail,
    invoked (apply_file settings selectedFolder i (m, v)).1
    = invoked m
      ++ Update_metadata (path file) (effective file)
           (backup_before_changes settings) :: tail.
Proof.
  intros Hi Happ.
  destruct (Command.update_metadata (path file) (effective file)
              (backup_before_changes settings) (world m))
    as [[u|error] w'] eqn:Hw.
  - rewrite (apply_file_resolved _ _ _ _ _ _ _ _ Hi Happ Hw).
    cbn [fst snd]. rewrite organize_step_invoked, rename_step_invoked.
    cbn. rewrite <- !app_assoc. eexists. reflexivity.
  - rewrite (apply_file_rejected _ _ _ _ _ _ _ _ Hi Happ Hw).
    exists []. reflexivity.
Qed.

(** C2, as the driver has it.  For a file the pass works on, the
    metadata passed to [update_metadata] is built from the element at
    position 0 of [suggested_metadata]: its genre and artist are written
    when present, the current ones are taken over otherwise; title,
    album, year and bpm are taken over from the current metadata.
    Taking over goes through [|| null]: the current value is written
    unchanged unless it is the empty string or the number 0, which is
    written as null. *)
Theorem effective_metadata_from_top_suggestion
    settings selectedFolder m i file top rest :
  files m !! i = Some file ->
  suggested_metadata file = Some (top :: rest) ->
  truthy_str (MetadataResult.genre top)
  || truthy_str (MetadataResult.artist top) = true ->
  let cm := current_metadata file in
  let before := apply_upto settings selectedFolder m i in
  let after := apply_upto settings selectedFolder m (S i) in
  exists written tail,
    invoked after.1
    = invoked before.1
      ++ Update_metadata (path file) written
           (backup_before_changes settings) :: tail
    /\ overridden (MetadataResult.genre top) (chain Metadata.genre cm)
         (Metadata.genre written)
    /\ overridden (MetadataResult.artist top) (chain Metadata.artist cm)
         (Metadata.artist written)
    /\ kept_str (chain Metadata.title cm) (Metadata.title written)
    /\ kept_str (chain Metadata.album cm) (Metadata.album written)
    /\ kept_num (chain Metadata.year cm) (Metadata.year written)
    /\ kept_num (chain Metadata.bpm cm) (Metadata.bpm written).
Proof.
  intros Hfile Hs Hg cm before after. subst cm before after.
  assert (Ht : top_suggestion file = Some top)
    by (unfold top_suggestion; rewrite Hs; reflexivity).
  assert (Happ : applicable file = true)
    by (unfold applicable; rewrite Ht; exact Hg).
  pose proof (apply_turn settings selectedFolder _ _ _ Hfile) as Hi.
  rewrite apply_upto_S, apply_iteration_eq.
  destruct (apply_upto settings selectedFolder m i) as [mi vi].
  cbn [fst snd] in *.
  destruct (apply_file_invokes_update settings selectedFolder _ mi _ _
              Hi Happ) as [tail Htail].
  exists (effective file), tail. split; [exact Htail|].
  rewrite (effective_top _ _ Ht). cbn.
  split; [apply or_str_overridden|]. split; [apply or_str_overridden|].
  split; [apply or_str_kept|]. split; [apply or_str_kept|].
  split; apply or_num_kept.
Qed.

End Properties.

(** * The drivers on the concrete backend *)


(** C1 on the concrete inventory: the first file is written and carries
    the effective metadata, the locked file is refused and keeps its
    own. *)
Lemma apply_current_metadata_follows_write_demo :
  current_metadata <$> files Run.applied !! 0
  = Some (Some (effective (Demo.with_suggestions [Demo.house] Demo.one)))
  /\ current_metadata <$> files Run.applied !! 1
     = Some (current_metadata Demo.locked).
Proof.
  split.
  - exact (apply_current_metadata_follows_write (backend := Demo.backend)
             (Demo.settings true true) "/music" (Demo.boot Demo.annotated)
             0 _ eq_refl eq_refl).
  - exact (apply_current_metadata_follows_write (backend := Demo.backend)
             (Demo.settings true true) "/music" (Demo.boot Demo.annotated)
             1 _ eq_refl eq_refl).
Defined.

(** C2 fails as worded: a file whose current bpm is the number 0 has
    null written as its bpm, so bpm is not carried over unchanged. *)
Lemma zero_bpm_is_written_as_null :
  let file := Demo.with_suggestions [Demo.house] Demo.obscure in
  let after :=
    handleApplyChanges (backend := Demo.backend) (Demo.settings false false)
      "" (Demo.boot [file]) in
  exists written,
    invoked after = [Update_metadata "/music/demo.mp3" written true]
    /\ chain Metadata.bpm (current_metadata file) = Some 0%Z
    /\ Metadata.bpm written = None
    /\ ~ carried_over_unchanged file written.
Proof.
  eexists. split; [reflexivity|]. split; [reflexivity|].
  split; [reflexivity|]. intros (_ & _ & _ & Hbpm). discriminate Hbpm.
Qed.

(** C2 as the driver has it, on the first file of the concrete
    inventory. *)
Lemma effective_metadata_from_top_suggestion_demo :
  exists written tail,
    invoked (Run.applying 1).1
    = invoked (Run.applying 0).1
      ++ Update_metadata "/music/one.mp3" written true :: tail
    /\ Metadata.genre written = Some "House"
    /\ Metadata.title written = Some "One More Time"
    /\ Metadata.year written = Some 2000%Z.
Proof.
  destruct (effective_metadata_from_top_suggestion (backend := Demo.backend)
              (Demo.settings true true) "/music" (Demo.boot Demo.annotated)
              0 _ Demo.house [] eq_refl eq_refl eq_refl)
    as (written & tail & Hinv & Hgenre & _ & Htitle & _ & Hyear & _).
  exists written, tail. split; [exact Hinv|].
  split; [exact (proj1 Hgenre eq_refl)|].
  split; [apply (proj1 Htitle) | apply (proj1 Hyear)]; discriminate.
Defined.



(** C4 on the concrete inventory: the tag writer refuses the locked
    file, although rename and organize are enabled. *)
Lemma apply_write_failure_is_terminal_demo :
  errorCount (Run.applying 2).2 = S (errorCount (Run.applying 1).2)
  /\ errors (Run.applying 2).2
     = errors (Run.applying 1).2 ++ ["locked.mp3: Permission denied"]
  /\ invoked (Run.applying 2).1
     = invoked (Run.applying 1).1
       ++ [Update_metadata "/music/locked.mp3"
             (effective (Demo.with_suggestions [Demo.house] Demo.locked))
             true]
  /\ updatedFiles (Run.applying 2).2 = updatedFiles (Run.applying 1).2.
Proof.
  destruct (apply_write_failure_is_terminal (backend := Demo.backend)
              (Demo.settings true true) "/music" (Demo.boot Demo.annotated)
              1 _ (ErrorObject "Error" "Permission denied") 4
              eq_refl eq_refl eq_refl)
    as (Hcount & Herrors & Hinvoked & _ & _ & Hfiles & _).
  repeat split; assumption.
Defined.

(** C5 on the concrete inventory: for the last file the write succeeds
    and both the rename and the organize command fail. *)
Lemma apply_success_ignores_optional_steps_demo :
  successCount (Run.applying 4).2 = S (successCount (Run.applying 3).2)
  /\ errorCount (Run.applying 4).2 = errorCount (Run.applying 3).2
  /\ errors (Run.applying 4).2 = errors (Run.applying 3).2
  /\ current_metadata <$> updatedFiles (Run.applying 4).2 !! 3
     = Some (Some (effective (Demo.with_suggestions [Demo.house]
                                Demo.obscure))).
Proof.
  destruct (apply_success_ignores_optional_steps (backend := Demo.backend)
              (Demo.settings true true) "/music" (Demo.boot Demo.annotated)
              3 _ tt 5 eq_refl eq_refl eq_refl)
    as (Hsuccess & Hcount & Herrors & Hwritten & _).
  repeat split; assumption.
Defined.

(** C6 on the concrete inventory: the third file has no suggestions. *)
Lemma apply_skips_files_without_usable_suggestion_demo :
  successCount (Run.applying 3).2 = successCount (Run.applying 2).2
  /\ errorCount (Run.applying 3).2 = errorCount (Run.applying 2).2
  /\ errors (Run.applying 3).2 = errors (Run.applying 2).2
  /\ invoked (Run.applying 3).1 = invoked (Run.applying 2).1.
Proof.
  destruct (apply_skips_files_without_usable_suggestion
              (backend := Demo.backend) (Demo.settings true true) "/music"
              (Demo.boot Demo.annotated) 2 _ eq_refl (or_introl eq_refl))
    as (Hsuccess & Hcount & _ & Herrors & Hinvoked & _).
  repeat split; assumption.
Defined.

(** C7 on the concrete inventory of four files. *)
Lemma progress_follows_formula_and_ends_at_100_demo :
  progress
    (resolution_pass (backend := Demo.backend) Demo.annotated
       (Demo.boot [])).1 = hundred
  /\ progress
       (handleApplyChanges (backend := Demo.backend)
          (Demo.settings true true) "/music"
          (setFiles Demo.annotated (Demo.boot []))) = hundred.
Proof.
  destruct (progress_follows_formula_and_ends_at_100
              (backend := Demo.backend) (Demo.settings true true) "/music"
              Demo.annotated (Demo.boot []) ltac:(discriminate) eq_refl)
    as (_ & _ & Hresolved & Happlied).
  split; assumption.
Defined.

(** C8 on the scanned folder: no source knows the artist of the last
    file. *)
Lemma resolution_failure_is_isolated_demo :
  (Run.resolving 4).2 = (Run.resolving 3).2
  /\ suggested_metadata <$> Run.resolved.2 !! 3 = Some None
  /\ progress_log (Run.resolving 4).1
     = progress_log (Run.resolving 3).1 ++ [resolve_progress 4 3].
Proof.
  destruct (resolution_failure_is_isolated (backend := Demo.backend)
              [Demo.one; Demo.locked; Demo.untitled; Demo.obscure]
              (Demo.boot []) 3 _ "Garage Band" "Demo"
              (OtherValue "no provider answered") 3
              eq_refl eq_refl ltac:(discriminate) eq_refl
              ltac:(discriminate) eq_refl)
    as (Hsame & _ & Hunset & Hlog & _).
  split; [exact Hsame|]. split; [exact (Hunset eq_refl) | exact Hlog].
Defined.

(** C9 on the concrete backend with nothing scanned. *)
Lemma apply_on_empty_inventory_demo :
  let after :=
    handleApplyChanges (backend := Demo.backend) (Demo.settings true true)
      "/music" (Demo.boot []) in
  statusMessage after = "Completed! 0 files updated successfully"
  /\ progress after = zero
  /\ invoked after = [].
Proof.
  destruct (apply_on_empty_inventory (backend := Demo.backend)
              (Demo.settings true true) "/music" (Demo.boot []) eq_refl)
    as (_ & Hprogress & _ & Hinvoked & _ & _ & Hstatus).
  repeat split; assumption.
Defined.

(** C10 on the concrete inventory: the renamer answers with a path under
    [/music] for the first file. *)
Lemma rename_sets_filename_to_last_segment_demo :
  filename <$> files Run.applied !! 0 = Some "Daft Punk - One More Time.mp3".
Proof.
  destruct (rename_sets_filename_to_last_segment (backend := Demo.backend)
              (Demo.settings true true) "/music" (Demo.boot Demo.annotated)
              0 _ tt 1 "/music/Daft Punk - One More Time.mp3" 2
              eq_refl eq_refl eq_refl eq_refl eq_refl)
    as (segment & Hpop & _ & _ & Hname).
  injection Hpop as <-. exact Hname.
Defined.

(** ** The two handlers end to end *)

(** Scanning [/music] annotates the two files the sources know and
    leaves the other two as scanned. *)
Example scan_music :
  let after :=
    handleStartScan (backend := Demo.backend) "/music" (Demo.boot []) in
  map suggested_metadata (files after)
  = [Some [Demo.house]; Some [Demo.house]; None; None]
  /\ statusMessage after = "Completed! Processed 4 files"
  /\ isScanning after = false.
Proof. repeat split; reflexivity. Qed.

(** Applying with rename and organize enabled: two files written, one
    refused, none organized. *)
Example apply_music :
  statusMessage Run.applied
  = "Completed! 2 files updated successfully, 1 failed"
  /\ map path (files Run.applied)
     = ["/music/Daft Punk - One More Time.mp3"; "/music/locked.mp3";
        "/music/track03.mp3"; "/music/demo.mp3"].
Proof. split; reflexivity. Qed.

(** With the default settings the genre is written and the path and the
    filename stay. *)
Example apply_defaults :
  let file := Demo.with_suggestions [Demo.house] Demo.one in
  let after :=
    handleApplyChanges (backend := Demo.backend) (Demo.settings false false)
      "/music" (Demo.boot [file]) in
  current_metadata <$> files after !! 0 = Some (Some (effective file))
  /\ Metadata.genre (effective file) = Some "House"
  /\ path <$> files after !! 0 = Some "/music/one.mp3"
  /\ filename <$> files after !! 0 = Some "one.mp3".
Proof. repeat split; reflexivity. Qed.

Example split_examples :
  split "/" "" = [""]
  /\ split "/" "a/b/" = ["a"; "b"; ""]
  /\ split "/" "abc" = ["abc"]
  /\ or_default (pop (split "/" "a/b/")) "old.mp3" = "old.mp3".
Proof. repeat split; reflexivity. Qed.

(** The values reported for an inventory of three files, as binary64
    numbers: 33.33333333333333, 66.66666666666666 and 100 by the apply
    pass, 66.66666666666666, 83.33333333333333 and 100 by the resolution
    pass (4691249611844266 is 0x10AAAAAAAAAAAA, 5864062014805333 is
    0x14D55555555555). *)
Example progress_of_three_files :
  map (apply_progress 3) (seq 0 3)
  = [S754_finite false 4691249611844266 (-47);
     S754_finite false 4691249611844266 (-46);
     S754_finite false 7036874417766400 (-46)]
  /\ map (resolve_progress 3) (seq 0 3)
     = [S754_finite false 4691249611844266 (-46);
        S754_finite false 5864062014805333 (-46);
        S754_finite false 7036874417766400 (-46)].
Proof. vm_compute. split; reflexivity. Qed.

(** ** The progress scale *)

(** A function that is monotone over the indices of a pass gives a sorted
    list of reports. *)
Lemma sorted_map_seq (f : nat -> spec_float) (n s k : nat) :
  (forall i j, i <= j < n -> at_most (f i) (f j)) ->
  s + k <= n ->
  StronglySorted at_most (map f (seq s k)).
Proof.
  intros Hmono. revert s. induction k as [|k IH]; intros s Hs; cbn;
    constructor; [apply IH; lia|].
  apply Forall_forall. intros p Hp.
  apply list_elem_of_In, in_map_iff in Hp. destruct Hp as (j & <- & Hj).
  apply in_seq in Hj. apply Hmono. lia.
Qed.

Lemma bounded_map_seq (f : nat -> spec_float) (P : spec_float -> Prop)
    (n : nat) :
  (forall i, i < n -> P (f i)) -> Forall P (map f (seq 0 n)).
Proof.
  intros Hb. apply Forall_forall. intros p Hp.
  apply list_elem_of_In, in_map_iff in Hp. destruct Hp as (j & <- & Hj).
  apply in_seq in Hj. apply Hb. lia.
Qed.

(** * Further properties of the two drivers *)

Section Coverage.
Context {W : Type} {backend : Command.Backend W}.
Implicit Types (m : Machine W) (v : Locals) (file : EnhancedAudioFile).
Implicit Types (settings : AppSettings) (selectedFolder : string).

(** ** Induction over the apply loop *)

(** A property of the loop state that holds on entry and is kept by the
    iteration of each file, taken with the file as the pass found it,
    holds after any number of iterations. *)
Lemma apply_upto_invariant settings selectedFolder m
    (P : nat -> Machine W * Locals -> Prop) :
  P 0 (apply_start m) ->
  (forall k file st,
     files m !! k = Some file ->
     updatedFiles st.2 !! k = Some file ->
     P k st ->
     P (S k)
       (setProgress (apply_progress (length (files m)) k)
          (apply_file settings selectedFolder k st).1,
        (apply_file settings selectedFolder k st).2)) ->
  forall k, k <= length (files m) ->
    P k (apply_upto settings selectedFolder m k).
Proof.
  intros Hstart Hstep. induction k as [|k IH]; intros Hk; [exact Hstart|].
  destruct (lookup_lt_is_Some_2 (files m) k) as [file Hfile]; [lia|].
  rewrite apply_upto_S, apply_iteration_eq.
  apply (Hstep k file); [exact Hfile| |apply IH; lia].
  apply apply_turn, Hfile.
Qed.

(** The three ways an iteration can go, for a file in hand. *)
Lemma apply_file_outcomes settings selectedFolder i m v file :
  updatedFiles v !! i = Some file ->
  (applicable file = false
   /\ apply_file settings selectedFolder i (m, v) = (m, v))
  \/ (applicable file = true
      /\ exists error,
           apply_file settings selectedFolder i (m, v)
           = (console_error ("Error updating " +:+ filename file +:+ ":")
                (ArgString (errorMsg_of error))
                (invoke_update_metadata (path file) (effective file)
                   (backup_before_changes settings) m).2,
              mkLocals (updatedFiles v) (successCount v) (S (errorCount v))
                (organizedCount v)
                (errors v ++ [filename file +:+ ": " +:+ errorMsg_of error])))
  \/ (applicable file = true
      /\ let m1 := (invoke_update_metadata (path file) (effective file)
                      (backup_before_changes settings) m).2 in
         let r := rename_step settings (effective file)
                    (set_current_metadata (effective file) file) (path file)
                    m1 in
         let o := organize_step settings selectedFolder (effective file)
                    r.1.2 r.2 (organizedCount v) r.1.1 in
         apply_file settings selectedFolder i (m, v)
         = (o.1.1,
            mkLocals (<[i := o.1.2]> (updatedFiles v)) (S (successCount v))
              (errorCount v) o.2 (errors v))).
Proof.
  intros Hi. destruct (applicable file) eqn:Happ.
  - destruct (Command.update_metadata (path file) (effective file)
                (backup_before_changes settings) (world m))
      as [[u|error] w'] eqn:Hw.
    + right. right. split; [reflexivity|].
      apply (apply_file_resolved _ _ _ _ _ _ _ _ Hi Happ Hw).
    + right. left. split; [reflexivity|]. exists error.
      apply (apply_file_rejected _ _ _ _ _ _ _ _ Hi Happ Hw).
  - left. split; [reflexivity|]. apply (apply_file_skip _ _ _ _ _ _ Hi Happ).
Qed.

(** What the optional steps keep of a file object. *)
Lemma rename_step_kept settings md file p m :
  let file' := (rename_step settings md file p m).1.2 in
  extension file' = extension file
  /\ suggested_metadata file' = suggested_metadata file
  /\ selected_genre file' = selected_genre file.
Proof.
  unfold rename_step. destruct (rename_files settings); [|cbn; auto].
  destruct (invoke_rename_file p md m) as [[newPath|renError] m']; cbn; auto.
Qed.

Lemma organize_step_kept settings selectedFolder md file p n m :
  let file' := (organize_step settings selectedFolder md file p n m).1.2 in
  extension file' = extension file
  /\ suggested_metadata file' = suggested_metadata file
  /\ selected_genre file' = selected_genre file.
Proof.
  unfold organize_step. destruct (organize_files settings && _); [|cbn; auto].
  destruct (invoke_organize_files p md selectedFolder m)
    as [[newPath|orgError] m']; cbn; auto.
Qed.

(** A projection kept by the file of an iteration is kept along the list. *)
Lemma map_insert_kept {A} (proj : EnhancedAudioFile -> A)
    (l : list EnhancedAudioFile) i file file' :
  l !! i = Some file -> proj file' = proj file ->
  map proj (<[i := file']> l) = map proj l.
Proof.
  intros Hi Hproj. change (map proj) with (fmap (M := list) proj).
  rewrite list_fmap_insert, Hproj. apply list_insert_id.
  rewrite list_lookup_fmap, Hi. reflexivity.
Qed.

(** X1.  The apply pass keeps the inventory in shape: the same number of
    files in the same positions, each with the extension, the suggestions
    and the chosen genre it had. *)
Theorem apply_keeps_inventory_shape settings selectedFolder m :
  let after := handleApplyChanges settings selectedFolder m in
  length (files after) = length (files m)
  /\ map extension (files after) = map extension (files m)
  /\ map suggested_metadata (files after) = map suggested_metadata (files m)
  /\ map selected_genre (files after) = map selected_genre (files m).
Proof.
  intros after. subst after. rewrite handleApplyChanges_files.
  apply (apply_upto_invariant settings selectedFolder m
           (fun _ st =>
              length (updatedFiles st.2) = length (files m)
              /\ map extension (updatedFiles st.2) = map extension (files m)
              /\ map suggested_metadata (updatedFiles st.2)
                 = map suggested_metadata (files m)
              /\ map selected_genre (updatedFiles st.2)
                 = map selected_genre (files m)));
    [cbn; auto| |reflexivity].
  intros k file [mk vk] _ Hi (Hlen & Hext & Hsug & Hsel). cbn [fst snd] in *.
  destruct (apply_file_outcomes settings selectedFolder k mk vk file Hi)
    as [[_ ->] | [[_ [error ->]] | [_ ->]]]; cbn [fst snd updatedFiles]; auto.
  destruct (rename_step_kept settings (effective file)
              (set_current_metadata (effective file) file) (path file)
              (invoke_update_metadata (path file) (effective file)
                 (backup_before_changes settings) mk).2)
    as (Hr1 & Hr2 & Hr3).
  match goal with
  | |- context [<[k := (organize_step ?s ?f ?md ?fl ?p ?n ?mm).1.2]> _] =>
      destruct (organize_step_kept s f md fl p n mm) as (Ho1 & Ho2 & Ho3)
  end.
  rewrite length_insert.
  rewrite (map_insert_kept extension _ _ _ _ Hi)
    by (rewrite Ho1; exact Hr1).
  rewrite (map_insert_kept suggested_metadata _ _ _ _ Hi)
    by (rewrite Ho2; exact Hr2).
  rewrite (map_insert_kept selected_genre _ _ _ _ Hi)
    by (rewrite Ho3; exact Hr3).
  auto.
Qed.

(** The handler in terms of the state its loop ends in. *)
Lemma handleApplyChanges_unfold settings selectedFolder m :
  handleApplyChanges settings selectedFolder m
  = let st := apply_upto settings selectedFolder m (length (files m)) in
    let shown := setFiles (updatedFiles st.2) st.1 in
    setStatusMessage (summary st.2)
      (if decide (0 < length (errors st.2))
       then console_error "Metadata update errors:" (ArgStrings (errors st.2))
              shown
       else shown).
Proof.
  unfold handleApplyChanges, apply_pass.
  destruct (apply_upto _ _ _ _) as [m' v]. reflexivity.
Qed.

Lemma handleApplyChanges_invoked settings selectedFolder m :
  invoked (handleApplyChanges settings selectedFolder m)
  = invoked (apply_upto settings selectedFolder m (length (files m))).1.
Proof.
  rewrite handleApplyChanges_unfold. cbn. destruct (decide _); reflexivity.
Qed.

Lemma apply_pass_locals settings selectedFolder m :
  (apply_pass settings selectedFolder m).2
  = (apply_upto settings selectedFolder m (length (files m))).2.
Proof.
  unfold apply_pass. destruct (apply_upto _ _ _ _) as [m' v]. reflexivity.
Qed.

Lemma organize_step_count settings selectedFolder md file p n m :
  n <= (organize_step settings selectedFolder md file p n m).2 <= S n.
Proof.
  unfold organize_step. destruct (organize_files settings && _); [|cbn; lia].
  destruct (invoke_organize_files p md selectedFolder m)
    as [[newPath|orgError] m']; cbn; lia.
Qed.

Lemma filter_applicable_take (l : list EnhancedAudioFile) k file :
  l !! k = Some file ->
  List.filter applicable (take (S k) l)
  = List.filter applicable (take k l)
    ++ (if applicable file then [file] else []).
Proof.
  intros Hk. rewrite (take_S_r _ _ _ Hk), List.filter_app. cbn.
  destruct (applicable file); reflexivity.
Qed.

(** X2.  The apply pass counts every file it works on exactly once, as a
    success or as a failure: the two counts add up to the number of files
    with a usable top suggestion.  The error list has one entry per
    failure, and no more files are counted as organized than as
    successes. *)
Theorem apply_counts_each_applicable_file_once settings selectedFolder m :
  let v := (apply_pass settings selectedFolder m).2 in
  successCount v + errorCount v
  = length (List.filter applicable (files m))
  /\ length (errors v) = errorCount v
  /\ organizedCount v <= successCount v.
Proof.
  intros v. subst v. rewrite apply_pass_locals.
  pose (P := fun (k : nat) (st : Machine W * Locals) =>
               successCount st.2 + errorCount st.2
               = length (List.filter applicable (take k (files m)))
               /\ length (errors st.2) = errorCount st.2
               /\ organizedCount st.2 <= successCount st.2).
  enough (Hinv : forall k, k <= length (files m) ->
            P k (apply_upto settings selectedFolder m k)).
  { specialize (Hinv _ (Nat.le_refl _)). unfold P in Hinv.
    rewrite firstn_all in Hinv. exact Hinv. }
  apply apply_upto_invariant; unfold P; [cbn; auto|].
  intros k file [mk vk] Hfile Hi (Hsum & Herr & Horg). cbn [fst snd] in *.
  rewrite (filter_applicable_take _ _ _ Hfile), length_app.
  destruct (apply_file_outcomes settings selectedFolder k mk vk file Hi)
    as [[-> ->] | [[-> [error ->]] | [-> ->]]];
    cbn [fst snd successCount errorCount errors organizedCount length].
  - split; [lia|]. split; [exact Herr | exact Horg].
  - rewrite length_app. cbn. split; [lia|]. split; lia.
  - split; [lia|]. split; [exact Herr|].
    match goal with
    | |- (organize_step ?s ?f ?md ?fl ?p ?n ?mm).2 <= _ =>
        pose proof (organize_step_count s f md fl p n mm)
    end. lia.
Qed.

(** X3.  The apply pass invokes [update_metadata] exactly once for each
    file with a usable top suggestion, in inventory order, with the path
    and the effective metadata of the file as the pass found it and the
    backup flag of the settings; it invokes it for no other file. *)
Theorem apply_writes_each_applicable_file_once settings selectedFolder m :
  List.filter is_update
    (invoked (handleApplyChanges settings selectedFolder m))
  = List.filter is_update (invoked m)
    ++ map (update_of settings) (List.filter applicable (files m)).
Proof.
  rewrite handleApplyChanges_invoked.
  pose (P := fun (k : nat) (st : Machine W * Locals) =>
               List.filter is_update (invoked st.1)
               = List.filter is_update (invoked m)
                 ++ map (update_of settings)
                      (List.filter applicable (take k (files m)))).
  enough (Hinv : forall k, k <= length (files m) ->
            P k (apply_upto settings selectedFolder m k)).
  { specialize (Hinv _ (Nat.le_refl _)). unfold P in Hinv.
    rewrite firstn_all in Hinv. exact Hinv. }
  apply apply_upto_invariant; unfold P; [cbn; symmetry; apply app_nil_r|].
  intros k file [mk vk] Hfile Hi Hlog. cbn [fst snd] in *.
  rewrite (filter_applicable_take _ _ _ Hfile), map_app, app_assoc, <- Hlog.
  destruct (apply_file_outcomes settings selectedFolder k mk vk file Hi)
    as [[-> ->] | [[-> [error ->]] | [-> ->]]];
    cbn [fst snd invoked setProgress].
  - symmetry. apply app_nil_r.
  - cbn. rewrite List.filter_app. reflexivity.
  - rewrite organize_step_invoked, rename_step_invoked. cbn [invoked].
    unfold invoke_update_metadata, settle. cbn [invoked snd].
    rewrite !List.filter_app. cbn [List.filter is_update map update_of].
    destruct (rename_files settings), (organize_files settings && _); cbn;
      rewrite ?app_nil_r; reflexivity.
Qed.

Lemma rename_step_off settings md file p m :
  rename_files settings = false ->
  rename_step settings md file p m = (m, file, p).
Proof. unfold rename_step. intros ->. reflexivity. Qed.

Lemma organize_step_off settings selectedFolder md file p n m :
  organize_files settings = false \/ selectedFolder = "" ->
  organize_step settings selectedFolder md file p n m = (m, file, n).
Proof.
  unfold organize_step. intros [-> | ->]; [reflexivity|].
  rewrite andb_false_r. reflexivity.
Qed.

(** X4.  With renaming switched off, and organizing switched off or no
    folder selected, the apply pass invokes nothing but one
    [update_metadata] per file with a usable top suggestion, changes no
    path and no filename, and counts no file as organized. *)
Theorem apply_without_optional_steps settings selectedFolder m :
  rename_files settings = false ->
  organize_files settings = false \/ selectedFolder = "" ->
  let after := handleApplyChanges settings selectedFolder m in
  invoked after
  = invoked m ++ map (update_of settings) (List.filter applicable (files m))
  /\ map path (files after) = map path (files m)
  /\ map filename (files after) = map filename (files m)
  /\ organizedCount (apply_pass settings selectedFolder m).2 = 0.
Proof.
  intros Hrename Horganize after. subst after.
  rewrite handleApplyChanges_invoked, handleApplyChanges_files,
    apply_pass_locals.
  pose (P := fun (k : nat) (st : Machine W * Locals) =>
               invoked st.1
               = invoked m
                 ++ map (update_of settings)
                      (List.filter applicable (take k (files m)))
               /\ map path (updatedFiles st.2) = map path (files m)
               /\ map filename (updatedFiles st.2) = map filename (files m)
               /\ organizedCount st.2 = 0).
  enough (Hinv : forall k, k <= length (files m) ->
            P k (apply_upto settings selectedFolder m k)).
  { specialize (Hinv _ (Nat.le_refl _)). unfold P in Hinv.
    rewrite firstn_all in Hinv. exact Hinv. }
  apply apply_upto_invariant; unfold P;
    [cbn; rewrite app_nil_r; auto|].
  intros k file [mk vk] Hfile Hi (Hlog & Hpath & Hname & Hcount).
  cbn [fst snd] in *.
  rewrite (filter_applicable_take _ _ _ Hfile), map_app, app_assoc, <- Hlog.
  destruct (apply_file_outcomes settings selectedFolder k mk vk file Hi)
    as [[-> ->] | [[-> [error ->]] | [-> ->]]].
  - cbn. rewrite app_nil_r. auto.
  - cbn. auto.
  - rewrite (rename_step_off _ _ _ _ _ Hrename). cbn [fst snd].
    rewrite (organize_step_off _ _ _ _ _ _ _ Horganize).
    cbn [fst snd invoked setProgress updatedFiles organizedCount].
    rewrite !(map_insert_kept _ _ _ _ _ Hi) by reflexivity.
    split; [reflexivity|]. auto.
Qed.

(** ** What is written *)

Lemma or_str_not_empty (a : option string) : or_str a None <> Some "".
Proof.
  unfold or_str, truthy_str. destruct a as [s|]; [|discriminate].
  destruct (decide (s = "")); [discriminate|]. congruence.
Qed.

Lemma or_str_or_not_empty (a b : option string) :
  or_str a (or_str b None) <> Some "".
Proof.
  unfold or_str at 1. unfold truthy_str. destruct a as [s|];
    [|apply or_str_not_empty].
  destruct (decide (s = "")); [apply or_str_not_empty|congruence].
Qed.

Lemma or_num_not_zero (a : option Z) : or_num a None <> Some 0%Z.
Proof.
  unfold or_num, truthy_num. destruct a as [n|]; [|discriminate].
  destruct (decide (n = 0%Z)); [discriminate|]. congruence.
Qed.

Lemma updatedMetadata_no_falsy_field file g a :
  no_falsy_field (updatedMetadata_of file g a).
Proof.
  unfold no_falsy_field, updatedMetadata_of. cbn.
  repeat split;
    first [apply or_str_not_empty | apply or_str_or_not_empty
          | apply or_num_not_zero].
Qed.

Lemma or_str_truthy (a b : option string) :
  truthy_str a = true -> or_str a b <> None.
Proof.
  unfold or_str. intros Ha. rewrite Ha. destruct a; [discriminate|].
  discriminate Ha.
Qed.

Lemma effective_names_genre_or_artist file :
  applicable file = true ->
  Metadata.genre (effective file) <> None
  \/ Metadata.artist (effective file) <> None.
Proof.
  intros Happ. destruct (applicable_top _ Happ) as (top & rest & _ & Ht & Hg).
  rewrite (effective_top _ _ Ht). cbn.
  destruct (truthy_str (MetadataResult.genre top)) eqn:Hgenre.
  - left. apply or_str_truthy, Hgenre.
  - right. apply or_str_truthy. exact Hg.
Qed.

(** X5.  Whatever the apply pass adds to the command log, an
    [update_metadata] call in it carries metadata without a falsy field
    (no empty string, no zero: such values are written as null), names a
    genre or an artist, belongs to a file of the inventory with a usable
    top suggestion, and passes the backup flag of the settings. *)
Theorem apply_writes_only_present_values settings selectedFolder m :
  exists added,
    invoked (handleApplyChanges settings selectedFolder m)
    = invoked m ++ added
    /\ forall p md b,
         In (Update_metadata p md b) added ->
         no_falsy_field md
         /\ (Metadata.genre md <> None \/ Metadata.artist md <> None)
         /\ b = backup_before_changes settings
         /\ exists file,
              In file (files m) /\ applicable file = true
              /\ p = path file /\ md = effective file.
Proof.
  rewrite handleApplyChanges_invoked.
  pose (good := fun (c : Invocation) =>
                  forall p md b, c = Update_metadata p md b ->
                    no_falsy_field md
                    /\ (Metadata.genre md <> None
                        \/ Metadata.artist md <> None)
                    /\ b = backup_before_changes settings
                    /\ exists file,
                         In file (files m) /\ applicable file = true
                         /\ p = path file /\ md = effective file).
  pose (P := fun (k : nat) (st : Machine W * Locals) =>
               exists added,
                 invoked st.1 = invoked m ++ added /\ Forall good added).
  enough (Hinv : forall k, k <= length (files m) ->
            P k (apply_upto settings selectedFolder m k)).
  { destruct (Hinv _ (Nat.le_refl _)) as (added & Hlog & Hgood).
    exists added. split; [exact Hlog|]. intros p md b Hin.
    rewrite Forall_forall in Hgood.
    apply (Hgood _ (proj2 (list_elem_of_In _ _) Hin)). reflexivity. }
  apply apply_upto_invariant; unfold P.
  { exists []. cbn. rewrite app_nil_r. split; [reflexivity|constructor]. }
  intros k file [mk vk] Hfile Hi (added & Hlog & Hgood). cbn [fst snd] in *.
  assert (Hupdate : applicable file = true -> good (update_of settings file)).
  { intros Happ p md b Heq. injection Heq as <- <- <-.
    split; [apply updatedMetadata_no_falsy_field|].
    split; [apply effective_names_genre_or_artist, Happ|].
    split; [reflexivity|]. exists file.
    split; [|auto]. apply list_elem_of_In, list_elem_of_lookup.
    exists k. exact Hfile. }
  destruct (apply_file_outcomes settings selectedFolder k mk vk file Hi)
    as [[_ ->] | [[Happ [error ->]] | [Happ ->]]];
    cbn [fst snd invoked setProgress].
  - exists added. auto.
  - exists (added ++ [update_of settings file]). cbn. rewrite Hlog.
    rewrite <- app_assoc. split; [reflexivity|].
    apply Forall_app. split; [exact Hgood|]. constructor; [auto|constructor].
  - rewrite organize_step_invoked, rename_step_invoked.
    unfold invoke_update_metadata, settle. cbn [invoked snd].
    rewrite Hlog, <- !app_assoc. eexists. split; [reflexivity|].
    apply Forall_app. split; [exact Hgood|].
    constructor; [apply Hupdate, Happ|].
    apply Forall_app. split.
    + destruct (rename_files settings); constructor;
        [intros p md b Heq; discriminate Heq|constructor].
    + destruct (organize_files settings && _); constructor;
        [intros p md b Heq; discriminate Heq|constructor].
Qed.

(** X6.  When no file of the inventory has a usable top suggestion (for
    instance right after a scan whose lookups all failed), the apply
    handler invokes nothing, logs nothing, leaves the inventory as it
    is, and reports zero files updated. *)
Theorem apply_with_nothing_to_apply settings selectedFolder m :
  Forall (fun file => applicable file = false) (files m) ->
  let after := handleApplyChanges settings selectedFolder m in
  files after = files m
  /\ invoked after = invoked m
  /\ world after = world m
  /\ console after = console m
  /\ statusMessage after = "Completed! 0 files updated successfully".
Proof.
  intros Hnone after. subst after. rewrite handleApplyChanges_unfold.
  pose (P := fun (k : nat) (st : Machine W * Locals) =>
               st.2 = mkLocals (files m) 0 0 0 []
               /\ invoked st.1 = invoked m
               /\ world st.1 = world m
               /\ console st.1 = console m).
  assert (Hinv : forall k, k <= length (files m) ->
            P k (apply_upto settings selectedFolder m k)).
  { apply apply_upto_invariant; unfold P; [cbn; auto|].
    intros k file [mk vk] Hfile Hi (Hv & Hlog & Hworld & Hconsole).
    cbn [fst snd] in *.
    assert (Happ : applicable file = false).
    { rewrite Forall_forall in Hnone. apply Hnone, list_elem_of_lookup.
      exists k. exact Hfile. }
    rewrite (apply_file_skip _ _ _ _ _ _ Hi Happ). cbn. auto. }
  destruct (Hinv _ (Nat.le_refl _)) as (Hv & Hlog & Hworld & Hconsole).
  destruct (apply_upto settings selectedFolder m (length (files m)))
    as [m' v]. cbn [fst snd] in *. subst v. cbn. auto.
Qed.

(** ** How the three commands chain *)

Lemma organize_step_world settings selectedFolder md file p n m :
  organize_files settings && bool_decide (selectedFolder <> "") = true ->
  organize_step settings selectedFolder md file p n m
  = match Command.organize_files p md selectedFolder (world m) with
    | (Resolved newPath, w') =>
        ((invoke_organize_files p md selectedFolder m).2,
         set_path newPath file, S n)
    | (Rejected orgError, w') =>
        (console_error ("Error organizing " +:+ filename file +:+ ":")
           (ArgThrown orgError) (invoke_organize_files p md selectedFolder m).2,
         file, n)
    end.
Proof.
  unfold organize_step, invoke_organize_files, settle. intros ->.
  destruct (Command.organize_files p md selectedFolder (world m))
    as [[newPath|orgError] w']; reflexivity.
Qed.

Lemma rename_step_world settings md file p m :
  rename_files settings = true ->
  rename_step settings md file p m
  = match Command.rename_file p md (world m) with
    | (Resolved newPath, w') =>
        ((invoke_rename_file p md m).2,
         set_filename (or_default (pop (split "/" newPath)) (filename file))
           (set_path newPath file),
         newPath)
    | (Rejected renError, w') =>
        (console_error ("Error renaming " +:+ filename file +:+ ":")
           (ArgThrown renError) (invoke_rename_file p md m).2,
         file, p)
    end.
Proof.
  unfold rename_step, invoke_rename_file, settle. intros ->.
  destruct (Command.rename_file p md (world m)) as [[newPath|renError] w'];
    reflexivity.
Qed.

Lemma steps_chain settings selectedFolder md file p n m renamed w2
    organized w3 :
  rename_files settings = true ->
  organize_files settings = true ->
  selectedFolder <> "" ->
  let currentPath :=
    match renamed with Resolved newPath => newPath | Rejected _ => p end in
  Command.rename_file p md (world m) = (renamed, w2) ->
  Command.organize_files currentPath md selectedFolder w2 = (organized, w3) ->
  let r := rename_step settings md file p m in
  let o := organize_step settings selectedFolder md r.1.2 r.2 n r.1.1 in
  invoked o.1.1
  = invoked m
    ++ [Rename_file p md; Organize_files currentPath md selectedFolder]
  /\ world o.1.1 = w3
  /\ path o.1.2
     = match organized with
       | Resolved newPath => newPath
       | Rejected _ =>
           match renamed with
           | Resolved newPath => newPath
           | Rejected _ => path file
           end
       end
  /\ filename o.1.2
     = match renamed with
       | Resolved newPath =>
           or_default (pop (split "/" newPath)) (filename file)
       | Rejected _ => filename file
       end
  /\ o.2 = n + match organized with Resolved _ => 1 | Rejected _ => 0 end.
Proof.
  intros Hrename Horganize Hfolder currentPath Hr Ho r o. subst r o.
  assert (Hon : organize_files settings && bool_decide (selectedFolder <> "")
                = true)
    by (rewrite Horganize, bool_decide_eq_true_2 by exact Hfolder;
        reflexivity).
  rewrite (rename_step_world _ _ _ _ _ Hrename), Hr.
  unfold invoke_rename_file, settle. rewrite Hr.
  destruct renamed as [newPath|renError]; subst currentPath;
    cbn [fst snd]; rewrite (organize_step_world _ _ _ _ _ _ _ Hon);
    cbn [world console_error]; rewrite Ho;
    unfold invoke_organize_files, settle; cbn [world console_error];
    rewrite Ho; destruct organized as [finalPath|orgError];
    cbn; rewrite <- ?app_assoc; repeat split; try reflexivity; lia.
Qed.

(** X7.  With both optional steps enabled and a folder selected, a
    successful write is followed by exactly one rename and one organize
    call.  Organize receives the path rename returned, or the file's own
    path when rename failed.  The stored path is the one returned by the
    last step that succeeded; the stored filename changes through rename
    only, it is not taken from the path organize returns; the organized
    count grows exactly when organize succeeded. *)
Theorem optional_steps_chain
    settings selectedFolder m i file u w1 renamed w2 organized w3 :
  files m !! i = Some file ->
  applicable file = true ->
  rename_files settings = true ->
  organize_files settings = true ->
  selectedFolder <> "" ->
  let before := apply_upto settings selectedFolder m i in
  let after := apply_upto settings selectedFolder m (S i) in
  let final := handleApplyChanges settings selectedFolder m in
  let currentPath :=
    match renamed with Resolved newPath => newPath | Rejected _ => path file end
  in
  Command.update_metadata (path file) (effective file)
    (backup_before_changes settings) (world before.1) = (Resolved u, w1) ->
  Command.rename_file (path file) (effective file) w1 = (renamed, w2) ->
  Command.organize_files currentPath (effective file) selectedFolder w2
  = (organized, w3) ->
  invoked after.1
  = invoked before.1
    ++ [update_of settings file;
        Rename_file (path file) (effective file);
        Organize_files currentPath (effective file) selectedFolder]
  /\ world after.1 = w3
  /\ path <$> files final !! i
     = Some (match organized with
             | Resolved newPath => newPath
             | Rejected _ => currentPath
             end)
  /\ filename <$> files final !! i
     = Some (match renamed with
             | Resolved newPath =>
                 or_default (pop (split "/" newPath)) (filename file)
             | Rejected _ => filename file
             end)
  /\ organizedCount after.2
     = organizedCount before.2
       + (match organized with Resolved _ => 1 | Rejected _ => 0 end).
Proof.
  intros Hfile Happ Hrename Horganize Hfolder before after final currentPath
    Hw Hr Ho. subst before after final.
  pose proof (lookup_lt_Some _ _ _ Hfile) as Hlt.
  rewrite (handleApplyChanges_lookup _ _ _ _ Hlt).
  pose proof (apply_turn settings selectedFolder _ _ _ Hfile) as Hi.
  rewrite apply_upto_S, apply_iteration_eq.
  destruct (apply_upto settings selectedFolder m i) as [mi vi].
  cbn [fst snd] in *.
  pose proof (lookup_lt_Some _ _ _ Hi) as Hlti.
  rewrite (apply_file_resolved _ _ _ _ _ _ _ _ Hi Happ Hw).
  cbn [fst snd updatedFiles organizedCount world invoked setProgress].
  rewrite list_lookup_insert_eq by exact Hlti.
  assert (Hw1 : world (invoke_update_metadata (path file) (effective file)
                         (backup_before_changes settings) mi).2 = w1)
    by (unfold invoke_update_metadata, settle; rewrite Hw; reflexivity).
  rewrite <- Hw1 in Hr.
  destruct (steps_chain settings selectedFolder (effective file)
              (set_current_metadata (effective file) file) (path file)
              (organizedCount vi) _ renamed w2 organized w3
              Hrename Horganize Hfolder Hr Ho)
    as (Hlog & Hworld & Hpath & Hname & Hcount).
  rewrite Hlog, Hworld, Hcount. cbn [fmap option_fmap option_map].
  rewrite Hpath, Hname. unfold update_of, invoke_update_metadata, settle.
  cbn [invoked snd]. rewrite <- app_assoc.
  repeat split; reflexivity.
Qed.

(** ** Applying again *)

Lemma or_str_idem (a : option string) :
  or_str (or_str a None) None = or_str a None.
Proof.
  unfold or_str. destruct (truthy_str a) eqn:Ha; [rewrite Ha|]; reflexivity.
Qed.

Lemma or_num_idem (a : option Z) :
  or_num (or_num a None) None = or_num a None.
Proof.
  unfold or_num. destruct (truthy_num a) eqn:Ha; [rewrite Ha|]; reflexivity.
Qed.

Lemma or_str_or_idem (s a : option string) :
  or_str s (or_str (or_str s (or_str a None)) None)
  = or_str s (or_str a None).
Proof.
  unfold or_str at 1 3 5. destruct (truthy_str s); [reflexivity|].
  apply or_str_idem.
Qed.

Lemma updatedMetadata_stable file g a :
  updatedMetadata_of (set_current_metadata (updatedMetadata_of file g a) file)
    g a
  = updatedMetadata_of file g a.
Proof.
  unfold updatedMetadata_of. cbn.
  rewrite !or_str_idem, !or_num_idem, !or_str_or_idem. reflexivity.
Qed.

Lemma effective_depends (f g : EnhancedAudioFile) :
  current_metadata f = current_metadata g ->
  suggested_metadata f = suggested_metadata g ->
  effective f = effective g /\ applicable f = applicable g.
Proof.
  unfold effective, applicable, top_suggestion, updatedMetadata_of.
  intros -> ->. split; reflexivity.
Qed.

(** X8.  The apply pass changes neither which files a next apply pass
    works on nor what it writes: every file is as usable after the pass
    as before, and its effective metadata is the same, also when its
    write succeeded (the suggestions stay on the file, and building the
    effective metadata from already written metadata gives it back). *)
Theorem apply_again_writes_the_same settings selectedFolder m i file :
  files m !! i = Some file ->
  exists file',
    files (handleApplyChanges settings selectedFolder m) !! i = Some file'
    /\ applicable file' = applicable file
    /\ effective file' = effective file.
Proof.
  intros Hfile. pose proof (lookup_lt_Some _ _ _ Hfile) as Hlt.
  rewrite (handleApplyChanges_lookup _ _ _ _ Hlt).
  pose proof (apply_turn settings selectedFolder _ _ _ Hfile) as Hi.
  rewrite apply_upto_S, apply_iteration_eq.
  destruct (apply_upto settings selectedFolder m i) as [mi vi].
  cbn [fst snd] in *.
  pose proof (lookup_lt_Some _ _ _ Hi) as Hlti.
  destruct (apply_file_outcomes settings selectedFolder i mi vi file Hi)
    as [[_ ->] | [[_ [error ->]] | [_ ->]]]; cbn [fst snd updatedFiles];
    [exists file; auto | exists file; auto |].
  rewrite list_lookup_insert_eq by exact Hlti. eexists.
  split; [reflexivity|].
  match goal with
  | |- context [(organize_step ?s ?f ?md ?fl ?p ?n ?mm).1.2] =>
      pose proof (organize_step_current_metadata s f md fl p n mm) as Hcm;
      destruct (organize_step_kept s f md fl p n mm) as (_ & Hsug & _);
      set (file3 := (organize_step s f md fl p n mm).1.2) in *
  end.
  rewrite rename_step_current_metadata in Hcm.
  match type of Hsug with
  | _ = suggested_metadata (rename_step ?s ?md ?fl ?p ?mm).1.2 =>
      destruct (rename_step_kept s md fl p mm) as (_ & Hsug' & _);
      rewrite Hsug' in Hsug
  end.
  destruct (effective_depends file3
              (set_current_metadata (effective file) file) Hcm Hsug)
    as [-> ->].
  split; [reflexivity|]. apply updatedMetadata_stable.
Qed.

(** ** Induction over the resolution loop *)

Lemma resolve_upto_invariant scannedFiles m
    (P : nat -> Machine W * list EnhancedAudioFile -> Prop) :
  P 0 (m, scannedFiles) ->
  (forall k file st,
     scannedFiles !! k = Some file ->
     st.2 !! k = Some file ->
     P k st ->
     P (S k)
       (setProgress (resolve_progress (length scannedFiles) k)
          (resolve_file k st).1,
        (resolve_file k st).2)) ->
  forall k, k <= length scannedFiles ->
    P k (resolve_upto scannedFiles m k).
Proof.
  intros Hstart Hstep. induction k as [|k IH]; intros Hk; [exact Hstart|].
  destruct (lookup_lt_is_Some_2 scannedFiles k) as [file Hfile]; [lia|].
  rewrite resolve_upto_S, resolve_iteration_eq.
  apply (Hstep k file); [exact Hfile| |apply IH; lia].
  apply resolve_turn, Hfile.
Qed.

(** The three ways an iteration of the resolution loop can go. *)
Lemma resolve_file_outcomes i m (l : list EnhancedAudioFile) file :
  l !! i = Some file ->
  (eligible file = false /\ resolve_file i (m, l) = (m, l))
  \/ (eligible file = true
      /\ invoked (resolve_file i (m, l)).1 = invoked m ++ [fetch_of file]
      /\ isScanning (resolve_file i (m, l)).1 = isScanning m
      /\ files (resolve_file i (m, l)).1 = files m
      /\ ((resolve_file i (m, l)).2 = l
          \/ exists metadata,
               (resolve_file i (m, l)).2
               = <[i := set_suggested_metadata metadata file]> l)).
Proof.
  intros Hi. destruct (eligible file) eqn:Hel.
  - right. split; [reflexivity|].
    unfold resolve_file. rewrite Hi. unfold eligible in Hel. rewrite Hel.
    unfold invoke_fetch_metadata, settle, fetch_of.
    destruct (Command.fetch_metadata _ _ _) as [[metadata|error] w'];
      cbn; repeat split; eauto.
  - left. split; [reflexivity|]. apply (resolve_file_skip _ _ _ _ Hi Hel).
Qed.

Lemma filter_eligible_take (l : list EnhancedAudioFile) k file :
  l !! k = Some file ->
  List.filter eligible (take (S k) l)
  = List.filter eligible (take k l) ++ (if eligible file then [file] else []).
Proof.
  intros Hk. rewrite (take_S_r _ _ _ Hk), List.filter_app. cbn.
  destruct (eligible file); reflexivity.
Qed.

(** One [fetch_metadata] per file that has an artist and a title, in
    inventory order, and nothing else. *)
Lemma resolution_pass_invoked scannedFiles m :
  invoked (resolution_pass scannedFiles m).1
  = invoked m ++ map fetch_of (List.filter eligible scannedFiles).
Proof.
  unfold resolution_pass.
  pose (P := fun (k : nat) (st : Machine W * list EnhancedAudioFile) =>
               invoked st.1
               = invoked m
                 ++ map fetch_of (List.filter eligible (take k scannedFiles))).
  enough (Hinv : forall k, k <= length scannedFiles ->
            P k (resolve_upto scannedFiles m k)).
  { specialize (Hinv _ (Nat.le_refl _)). unfold P in Hinv.
    rewrite firstn_all in Hinv. exact Hinv. }
  apply resolve_upto_invariant; unfold P; [cbn; symmetry; apply app_nil_r|].
  intros k file [mk lk] Hfile Hi Hlog. cbn [fst snd] in *.
  rewrite (filter_eligible_take _ _ _ Hfile), map_app, app_assoc, <- Hlog.
  destruct (resolve_file_outcomes k mk lk file Hi)
    as [[-> ->] | (-> & Hinv & _)]; cbn [fst snd invoked setProgress].
  - symmetry. apply app_nil_r.
  - exact Hinv.
Qed.

(** The resolution pass writes nothing but [suggested_metadata]. *)
Lemma resolution_pass_frame scannedFiles m :
  let pass := resolution_pass scannedFiles m in
  length pass.2 = length scannedFiles
  /\ map path pass.2 = map path scannedFiles
  /\ map filename pass.2 = map filename scannedFiles
  /\ map extension pass.2 = map extension scannedFiles
  /\ map current_metadata pass.2 = map current_metadata scannedFiles
  /\ map selected_genre pass.2 = map selected_genre scannedFiles
  /\ files pass.1 = files m
  /\ isScanning pass.1 = isScanning m.
Proof.
  intros pass. subst pass. unfold resolution_pass.
  apply (resolve_upto_invariant scannedFiles m
           (fun _ st =>
              length st.2 = length scannedFiles
              /\ map path st.2 = map path scannedFiles
              /\ map filename st.2 = map filename scannedFiles
              /\ map extension st.2 = map extension scannedFiles
              /\ map current_metadata st.2 = map current_metadata scannedFiles
              /\ map selected_genre st.2 = map selected_genre scannedFiles
              /\ files st.1 = files m
              /\ isScanning st.1 = isScanning m));
    [cbn; repeat split; reflexivity| |reflexivity].
  intros k file [mk lk] _ Hi (Hlen & Hp & Hn & He & Hc & Hs & Hf & Hsc).
  cbn [fst snd] in *.
  destruct (resolve_file_outcomes k mk lk file Hi)
    as [[_ ->] | (_ & _ & Hscan & Hfiles & [-> | [metadata ->]])];
    cbn [fst snd files isScanning setProgress];
    rewrite ?Hscan, ?Hfiles; try (repeat split; assumption).
  rewrite length_insert.
  rewrite !(map_insert_kept _ _ _ _ _ Hi) by reflexivity.
  repeat split; assumption.
Qed.

(** ** The scan handler *)

(** The scan handler around its resolution loop. *)
Lemma handleStartScan_unfold selectedFolder m scannedFiles w' :
  selectedFolder <> "" ->
  Command.scan_folder selectedFolder (world m) = (Resolved scannedFiles, w') ->
  let pass :=
    resolution_pass scannedFiles (scan_entry selectedFolder scannedFiles m) in
  handleStartScan selectedFolder m
  = setIsScanning false
      (setStatusMessage
         ("Completed! Processed " +:+ show_nat (length pass.2) +:+ " files")
         (setProgress (num 100) (setFiles pass.2 pass.1))).
Proof.
  intros Hfolder Hscan pass. subst pass.
  unfold handleStartScan, scan_entry.
  destruct (decide (selectedFolder = "")); [contradiction|].
  unfold invoke_scan_folder, settle.
  cbn [world setProgress setStatusMessage setIsScanning].
  rewrite Hscan. cbn [fst snd].
  destruct (resolution_pass scannedFiles _) as [m' l']. reflexivity.
Qed.

Lemma scan_entry_facts selectedFolder m scannedFiles :
  invoked (scan_entry selectedFolder scannedFiles m)
  = invoked m ++ [Scan_folder selectedFolder]
  /\ progress_log (scan_entry selectedFolder scannedFiles m)
     = progress_log m ++ [num 10; num 50]
  /\ console (scan_entry selectedFolder scannedFiles m) = console m.
Proof.
  unfold scan_entry, invoke_scan_folder, settle. cbn.
  rewrite <- app_assoc. auto.
Qed.

(** X9.  A scan that succeeds invokes [scan_folder] once and then
    [fetch_metadata] exactly once for each scanned file that has an
    artist and a title, in inventory order and with that artist and
    title; a lookup that fails is not retried and does not stop the
    later ones. *)
Theorem scan_fetches_each_eligible_file_once
    selectedFolder m scannedFiles w' :
  selectedFolder <> "" ->
  Command.scan_folder selectedFolder (world m) = (Resolved scannedFiles, w') ->
  invoked (handleStartScan selectedFolder m)
  = invoked m
    ++ Scan_folder selectedFolder
       :: map fetch_of (List.filter eligible scannedFiles).
Proof.
  intros Hfolder Hscan.
  rewrite (handleStartScan_unfold _ _ _ _ Hfolder Hscan).
  cbn [invoked setIsScanning setStatusMessage setProgress setFiles].
  rewrite resolution_pass_invoked.
  destruct (scan_entry_facts selectedFolder m scannedFiles) as (-> & _ & _).
  rewrite <- app_assoc. reflexivity.
Qed.

(** X10.  After a scan that succeeds, the inventory is the scanned one,
    file for file, with nothing but the suggestions added: paths,
    filenames, extensions, current metadata and chosen genres are as
    scanned.  The status line counts the scanned files, the progress is
    100 and the scanning flag is cleared. *)
Theorem scan_only_annotates selectedFolder m scannedFiles w' :
  selectedFolder <> "" ->
  Command.scan_folder selectedFolder (world m) = (Resolved scannedFiles, w') ->
  let after := handleStartScan selectedFolder m in
  length (files after) = length scannedFiles
  /\ map path (files after) = map path scannedFiles
  /\ map filename (files after) = map filename scannedFiles
  /\ map extension (files after) = map extension scannedFiles
  /\ map current_metadata (files after) = map current_metadata scannedFiles
  /\ map selected_genre (files after) = map selected_genre scannedFiles
  /\ statusMessage after
     = "Completed! Processed " +:+ show_nat (length scannedFiles) +:+ " files"
  /\ progress after = hundred
  /\ isScanning after = false.
Proof.
  intros Hfolder Hscan after. subst after.
  rewrite (handleStartScan_unfold _ _ _ _ Hfolder Hscan).
  cbn [files statusMessage progress isScanning setIsScanning
       setStatusMessage setProgress setFiles].
  destruct num_literals as (_ & _ & _ & ->).
  match goal with
  | |- context [resolution_pass scannedFiles ?entry] =>
      destruct (resolution_pass_frame scannedFiles entry)
        as (Hlen & Hp & Hn & He & Hc & Hs & _ & _)
  end.
  rewrite Hlen. repeat split; assumption.
Qed.

(** The scan handler when [scan_folder] is rejected. *)
Lemma handleStartScan_rejected selectedFolder m error w' :
  selectedFolder <> "" ->
  Command.scan_folder selectedFolder (world m) = (Rejected error, w') ->
  handleStartScan selectedFolder m
  = mkMachine w' (invoked m ++ [Scan_folder selectedFolder])
      (console m ++ [("Error scanning folder:", ArgThrown error)])
      false (files m) (num 10) (progress_log m ++ [num 10])
      ("Error: " +:+ String_of error).
Proof.
  intros Hfolder Hscan.
  unfold handleStartScan, invoke_scan_folder, settle.
  destruct (decide (selectedFolder = "")); [contradiction|].
  cbn [world setProgress setStatusMessage setIsScanning].
  rewrite Hscan. reflexivity.
Qed.

(** X11.  A scan that fails changes nothing but the status: the
    inventory stays as it was, the message is ["Error: "] followed by the
    error, the error is logged, the progress stays at the 10 reported
    before the scan, and the scanning flag is cleared. *)
Theorem scan_failure_keeps_inventory selectedFolder m error w' :
  selectedFolder <> "" ->
  Command.scan_folder selectedFolder (world m) = (Rejected error, w') ->
  let after := handleStartScan selectedFolder m in
  files after = files m
  /\ statusMessage after = "Error: " +:+ String_of error
  /\ console after
     = console m ++ [("Error scanning folder:", ArgThrown error)]
  /\ invoked after = invoked m ++ [Scan_folder selectedFolder]
  /\ progress after = ten
  /\ progress_log after = progress_log m ++ [ten]
  /\ isScanning after = false.
Proof.
  intros Hfolder Hscan after. subst after.
  rewrite (handleStartScan_rejected _ _ _ _ Hfolder Hscan).
  destruct num_literals as (_ & -> & _).
  cbn. repeat split; reflexivity.
Qed.

(** ** The progress bar over a whole handler *)

(** X12.  Everything the scan handler reports as progress during a scan
    that succeeds is 10, then 50, then one value per scanned file, then
    100; as binary64 numbers the sequence never decreases and stays
    between 10 and 100, also for an empty folder. *)
Theorem scan_progress_never_decreases selectedFolder m scannedFiles w' :
  selectedFolder <> "" ->
  Command.scan_folder selectedFolder (world m) = (Resolved scannedFiles, w') ->
  (Z.of_nat (length scannedFiles) < 2 ^ 53)%Z ->
  let total := length scannedFiles in
  let reported :=
    ten :: fifty
    :: map (resolve_progress total) (seq 0 total) ++ [hundred] in
  progress_log (handleStartScan selectedFolder m)
  = progress_log m ++ reported
  /\ StronglySorted at_most reported
  /\ Forall (fun p => at_most ten p /\ at_most p hundred) reported.
Proof.
  intros Hfolder Hscan Hlen total reported. subst reported.
  rewrite (handleStartScan_unfold _ _ _ _ Hfolder Hscan).
  cbn [progress_log setIsScanning setStatusMessage setProgress setFiles].
  unfold resolution_pass. rewrite resolve_upto_progress_log.
  destruct (scan_entry_facts selectedFolder m scannedFiles) as (_ & -> & _).
  fold total. destruct num_literals as (_ & -> & -> & ->).
  split; [rewrite <- !app_assoc; reflexivity|].
  destruct literals_within as (Hten & Hfifty & Hhundred).
  assert (Hfiles : Forall (fun p => Binary64.normal_within 2000 p
                                    /\ at_most fifty p /\ at_most p hundred)
                     (map (resolve_progress total) (seq 0 total))).
  { apply bounded_map_seq. intros i Hi. split.
    - apply (Rounding.normal_within_weaken 402); [lia|].
      apply resolve_progress_within; assumption.
    - apply resolve_progress_bounds; assumption. }
  assert (H1050 : at_most ten fifty) by reflexivity.
  assert (H50100 : at_most fifty hundred) by reflexivity.
  assert (H10100 : at_most ten hundred) by reflexivity.
  assert (Hlow : forall p, Binary64.normal_within 2000 p ->
                   at_most fifty p -> at_most ten p).
  { intros p Hp Hle. apply (at_most_trans ten fifty p); assumption. }
  split.
  - constructor; [constructor|].
    + apply StronglySorted_app_2.
      * intros p q Hp Hq. apply list_elem_of_singleton in Hq. subst q.
        rewrite Forall_forall in Hfiles. apply (Hfiles p Hp).
      * apply (sorted_map_seq _ total); [|lia].
        intros i j Hij. apply resolve_progress_mono; assumption.
      * repeat constructor.
    + apply Forall_app. split; [|constructor; [exact H50100 | constructor]].
      eapply Forall_impl; [exact Hfiles|]. intros p (_ & Hp & _). exact Hp.
    + constructor; [exact H1050|].
      apply Forall_app. split; [|constructor; [exact H10100 | constructor]].
      eapply Forall_impl; [exact Hfiles|]. intros p (Hn & Hp & _).
      apply Hlow; assumption.
  - constructor; [split; [reflexivity | exact H10100]|].
    constructor; [split; [exact H1050 | exact H50100]|].
    apply Forall_app. split.
    + eapply Forall_impl; [exact Hfiles|]. intros p (Hn & Hlo & Hhi).
      split; [apply Hlow; assumption | exact Hhi].
    + constructor; [split; [exact H10100 | reflexivity] | constructor].
Qed.

(** X13.  Everything the apply handler reports as progress is the
    initial 0 and then one value per file; as binary64 numbers the
    sequence never decreases and stays between 0 and 100, whatever the
    commands answer. *)
Theorem apply_progress_never_decreases settings selectedFolder m :
  (Z.of_nat (length (files m)) < 2 ^ 53)%Z ->
  let total := length (files m) in
  let reported := zero :: map (apply_progress total) (seq 0 total) in
  progress_log (handleApplyChanges settings selectedFolder m)
  = progress_log m ++ reported
  /\ StronglySorted at_most reported
  /\ Forall (fun p => at_most zero p /\ at_most p hundred) reported.
Proof.
  intros Hlen total reported. subst reported.
  destruct (handleApplyChanges_progress settings selectedFolder m) as [-> _].
  rewrite apply_upto_progress_log. fold total.
  destruct num_literals as (-> & _).
  split; [reflexivity|].
  assert (Hfiles : Forall (fun p => at_most zero p /\ at_most p hundred)
                     (map (apply_progress total) (seq 0 total)))
    by (apply bounded_map_seq; intros i Hi;
        apply apply_progress_bounds; assumption).
  split.
  - constructor.
    + apply (sorted_map_seq _ total); [|lia].
      intros i j Hij. apply apply_progress_mono; assumption.
    + eapply Forall_impl; [exact Hfiles|]. intros p [Hp _]. exact Hp.
  - constructor; [|exact Hfiles]. split; reflexivity.
Qed.

(** ** From scan to apply *)

(** After the resolution pass over files scanned without suggestions,
    only files with an artist and a title carry suggestions. *)
Lemma resolution_pass_sources scannedFiles m :
  Forall (fun file => suggested_metadata file = None) scannedFiles ->
  Forall (fun file => suggested_metadata file = None \/ eligible file = true)
         (resolution_pass scannedFiles m).2.
Proof.
  intros Hfresh. unfold resolution_pass.
  apply (resolve_upto_invariant scannedFiles m
           (fun _ st =>
              Forall (fun file =>
                        suggested_metadata file = None
                        \/ eligible file = true) st.2));
    [|  |reflexivity].
  { cbn. eapply Forall_impl; [exact Hfresh|]. intros file Hf. left. exact Hf. }
  intros k file [mk lk] _ Hi Hall. cbn [fst snd] in *.
  destruct (resolve_file_outcomes k mk lk file Hi)
    as [[_ ->] | (Hel & _ & _ & _ & [-> | [metadata ->]])];
    cbn [fst snd]; try exact Hall.
  apply Forall_insert; [exact Hall|]. right. exact Hel.
Qed.

(** X14.  After a scan of files that come without suggestions, every
    file the apply pass would work on has an artist and a title, and its
    effective metadata carries that title unchanged and names an
    artist. *)
Theorem applicable_after_scan_has_artist_and_title
    selectedFolder m scannedFiles w' file :
  selectedFolder <> "" ->
  Command.scan_folder selectedFolder (world m) = (Resolved scannedFiles, w') ->
  Forall (fun scanned => suggested_metadata scanned = None) scannedFiles ->
  In file (files (handleStartScan selectedFolder m)) ->
  applicable file = true ->
  eligible file = true
  /\ Metadata.title (effective file)
     = chain Metadata.title (current_metadata file)
  /\ Metadata.title (effective file) <> None
  /\ Metadata.artist (effective file) <> None.
Proof.
  intros Hfolder Hscan Hfresh Hin Happ.
  rewrite (handleStartScan_unfold _ _ _ _ Hfolder Hscan) in Hin.
  cbn [files setIsScanning setStatusMessage setProgress setFiles] in Hin.
  pose proof (resolution_pass_sources scannedFiles
                (scan_entry selectedFolder scannedFiles m) Hfresh) as Hall.
  rewrite Forall_forall in Hall.
  assert (Hel : eligible file = true).
  { destruct (Hall file (proj2 (list_elem_of_In _ _) Hin)) as [Hnone|Hel];
      [|exact Hel].
    unfold applicable, top_suggestion in Happ. rewrite Hnone in Happ.
    discriminate Happ. }
  split; [exact Hel|].
  unfold eligible in Hel. apply andb_true_iff in Hel. destruct Hel as [Ha Ht].
  unfold effective, updatedMetadata_of. cbn.
  assert (Htitle : or_str (chain Metadata.title (current_metadata file)) None
                   = chain Metadata.title (current_metadata file))
    by (unfold or_str; rewrite Ht; reflexivity).
  rewrite Htitle. split; [reflexivity|].
  split.
  - intros Hnone. rewrite Hnone in Ht. discriminate Ht.
  - unfold or_str at 1.
    destruct (truthy_str (top_suggestion file ≫= MetadataResult.artist))
      eqn:Hs.
    + intros Hnone. rewrite Hnone in Hs. discriminate Hs.
    + apply or_str_truthy, Ha.
Qed.

(** ** The file list and the apply pass *)

Lemma first_suggestion_top file :
  FileList.first_suggestion file = top_suggestion file.
Proof.
  unfold FileList.first_suggestion, top_suggestion.
  destruct (suggested_metadata file) as [[|top rest]|]; reflexivity.
Qed.

(** The file object a successful write leaves after the pass. *)
Lemma apply_written_file settings selectedFolder m i file u w' :
  files m !! i = Some file ->
  applicable file = true ->
  Command.update_metadata (path file) (effective file)
    (backup_before_changes settings)
    (world (apply_upto settings selectedFolder m i).1) = (Resolved u, w') ->
  exists file',
    files (handleApplyChanges settings selectedFolder m) !! i = Some file'
    /\ current_metadata file' = Some (effective file)
    /\ suggested_metadata file' = suggested_metadata file.
Proof.
  intros Hfile Happ Hw. pose proof (lookup_lt_Some _ _ _ Hfile) as Hlt.
  rewrite (handleApplyChanges_lookup _ _ _ _ Hlt).
  pose proof (apply_turn settings selectedFolder _ _ _ Hfile) as Hi.
  rewrite apply_upto_S, apply_iteration_eq.
  destruct (apply_upto settings selectedFolder m i) as [mi vi].
  cbn [fst snd] in *.
  pose proof (lookup_lt_Some _ _ _ Hi) as Hlti.
  rewrite (apply_file_resolved _ _ _ _ _ _ _ _ Hi Happ Hw).
  cbn [fst snd updatedFiles].
  rewrite list_lookup_insert_eq by exact Hlti. eexists.
  split; [reflexivity|]. split.
  - rewrite organize_step_current_metadata, rename_step_current_metadata.
    reflexivity.
  - match goal with
    | |- suggested_metadata (organize_step ?s ?f ?md ?fl ?p ?n ?mm).1.2 = _ =>
        destruct (organize_step_kept s f md fl p n mm) as (_ & -> & _)
    end.
    match goal with
    | |- suggested_metadata (rename_step ?s ?md ?fl ?p ?mm).1.2 = _ =>
        destruct (rename_step_kept s md fl p mm) as (_ & -> & _)
    end.
    reflexivity.
Qed.

Lemma or_default_or_str (a : option string) (d : string) :
  or_default (or_str a None) d = or_default a d.
Proof.
  unfold or_str, truthy_str, or_default. destruct a as [s|]; [|reflexivity].
  destruct (decide (s = "")) as [->|Hne]; [reflexivity|].
  destruct (decide (s = "")); [contradiction|reflexivity].
Qed.

Lemma or_default_truthy (a : option string) (d d' : string) :
  truthy_str a = true -> or_default a d = or_default a d'.
Proof.
  unfold truthy_str, or_default. destruct a as [s|]; [|discriminate].
  destruct (decide (s = "")); [discriminate|reflexivity].
Qed.

(** X15.  After a successful write, the list shows in "Current Genre"
    what it showed in "New Genre" before the pass, if the top suggestion
    has a genre; if it has none (only an artist), "Current Genre" shows
    what it showed before.  "New Genre" and the confidence badge of the
    file are as before. *)
Theorem list_shows_applied_genre settings selectedFolder m i file u w' :
  files m !! i = Some file ->
  applicable file = true ->
  Command.update_metadata (path file) (effective file)
    (backup_before_changes settings)
    (world (apply_upto settings selectedFolder m i).1) = (Resolved u, w') ->
  exists file',
    files (handleApplyChanges settings selectedFolder m) !! i = Some file'
    /\ FileList.current_genre_cell (FileList.row file')
       = (if truthy_str
               (FileList.first_suggestion file ≫= MetadataResult.genre)
          then FileList.new_genre_cell (FileList.row file)
          else FileList.current_genre_cell (FileList.row file))
    /\ FileList.new_genre_cell (FileList.row file')
       = FileList.new_genre_cell (FileList.row file)
    /\ FileList.confidence_cell (FileList.row file')
       = FileList.confidence_cell (FileList.row file).
Proof.
  intros Hfile Happ Hw.
  destruct (apply_written_file _ _ _ _ _ _ _ Hfile Happ Hw)
    as (file' & Hfinal & Hcm & Hsug).
  exists file'. split; [exact Hfinal|].
  assert (Hfirst : FileList.first_suggestion file'
                   = FileList.first_suggestion file)
    by (unfold FileList.first_suggestion; rewrite Hsug; reflexivity).
  unfold FileList.row. cbn [FileList.current_genre_cell
                          FileList.new_genre_cell FileList.confidence_cell].
  rewrite Hfirst, Hcm. split; [|split; reflexivity].
  rewrite first_suggestion_top. unfold effective, updatedMetadata_of.
  cbn [chain Metadata.genre]. unfold or_str at 1.
  destruct (truthy_str (top_suggestion file ≫= MetadataResult.genre)) eqn:Hg.
  - apply or_default_truthy, Hg.
  - apply or_default_or_str.
Qed.

(** ** What the apply handler leaves of the component state *)

Lemma rename_step_isScanning settings md file p m :
  isScanning (rename_step settings md file p m).1.1 = isScanning m.
Proof.
  unfold rename_step. destruct (rename_files settings); [|reflexivity].
  unfold invoke_rename_file, settle.
  destruct (Command.rename_file p md (world m)) as [[newPath|renError] w'];
    reflexivity.
Qed.

Lemma organize_step_isScanning settings selectedFolder md file p n m :
  isScanning (organize_step settings selectedFolder md file p n m).1.1
  = isScanning m.
Proof.
  unfold organize_step. destruct (organize_files settings && _);
    [|reflexivity].
  unfold invoke_organize_files, settle.
  destruct (Command.organize_files p md selectedFolder (world m))
    as [[newPath|orgError] w']; reflexivity.
Qed.

Lemma handleApplyChanges_kept settings selectedFolder m :
  isScanning (handleApplyChanges settings selectedFolder m) = isScanning m
  /\ length (files (handleApplyChanges settings selectedFolder m))
     = length (files m).
Proof.
  rewrite handleApplyChanges_unfold.
  pose (P := fun (_ : nat) (st : Machine W * Locals) =>
               isScanning st.1 = isScanning m
               /\ length (updatedFiles st.2) = length (files m)).
  assert (Hinv : forall k, k <= length (files m) ->
            P k (apply_upto settings selectedFolder m k)).
  { apply apply_upto_invariant; unfold P; [cbn; auto|].
    intros k file [mk vk] _ Hi [Hscan Hlen]. cbn [fst snd] in *.
    rewrite apply_file_length.
    destruct (apply_file_outcomes settings selectedFolder k mk vk file Hi)
      as [[_ ->] | [[_ [error ->]] | [_ ->]]]; cbn [fst snd isScanning
                                                    setProgress]; auto.
    rewrite organize_step_isScanning, rename_step_isScanning. auto. }
  destruct (Hinv _ (Nat.le_refl _)) as [Hscan Hlen].
  destruct (apply_upto settings selectedFolder m (length (files m)))
    as [m' v]. cbn [fst snd] in *. cbn.
  destruct (decide _); cbn; auto.
Qed.

Lemma handleApplyChanges_ends_at_100 settings selectedFolder m :
  0 < length (files m) ->
  (Z.of_nat (length (files m)) < 2 ^ 53)%Z ->
  progress (handleApplyChanges settings selectedFolder m) = hundred.
Proof.
  intros Hpos Hlen.
  destruct (handleApplyChanges_progress settings selectedFolder m) as [_ ->].
  replace (length (files m)) with (S (length (files m) - 1)) at 1 by lia.
  rewrite apply_upto_progress. apply apply_progress_last; assumption.
Qed.

End Coverage.

(** * The component around the drivers *)

Section ShellProperties.
Context {W : Type} {backend : Command.Backend W}
        {services : Shell.Services W}.
Implicit Types (a : Shell.App W).

(** X16.  Choosing a folder.  When the dialog fails, the status line
    becomes ["Error selecting folder"], the error is logged and the folder
    stays.  When it resolves with a single non-empty path, that path
    becomes the selected folder and the status line names it.  A
    cancelled dialog, an empty path or a multiple selection change
    neither the folder nor the status line.  So the selection is never
    cleared: the folder changes only to a non-empty path the dialog
    resolved with.  Inventory, progress, scanning flag, settings and the
    command log are never touched. *)
Theorem select_folder_never_clears a :
  let after := Shell.handleSelectFolder a in
  match Shell.open (world (Shell.machine a)) with
  | (Rejected error, w) =>
      statusMessage (Shell.machine after) = "Error selecting folder"
      /\ Shell.selectedFolder after = Shell.selectedFolder a
      /\ console (Shell.machine after)
         = console (Shell.machine a)
           ++ [("Error selecting folder:", ArgThrown error)]
      /\ world (Shell.machine after) = w
  | (Resolved (Shell.Single path), w) =>
      (if decide (path = "")
       then Shell.selectedFolder after = Shell.selectedFolder a
            /\ statusMessage (Shell.machine after)
               = statusMessage (Shell.machine a)
       else Shell.selectedFolder after = path
            /\ statusMessage (Shell.machine after) = "Selected: " +:+ path)
      /\ console (Shell.machine after) = console (Shell.machine a)
      /\ world (Shell.machine after) = w
  | (Resolved _, w) =>
      Shell.selectedFolder after = Shell.selectedFolder a
      /\ statusMessage (Shell.machine after) = statusMessage (Shell.machine a)
      /\ console (Shell.machine after) = console (Shell.machine a)
      /\ world (Shell.machine after) = w
  end
  /\ (Shell.selectedFolder a <> "" -> Shell.selectedFolder after <> "")
  /\ (Shell.selectedFolder after <> Shell.selectedFolder a ->
      exists w,
        Shell.open (world (Shell.machine a))
        = (Resolved (Shell.Single (Shell.selectedFolder after)), w)
        /\ statusMessage (Shell.machine after)
           = "Selected: " +:+ Shell.selectedFolder after)
  /\ (statusMessage (Shell.machine after)
      <> statusMessage (Shell.machine a) ->
      (exists error w,
         Shell.open (world (Shell.machine a)) = (Rejected error, w)
         /\ statusMessage (Shell.machine after) = "Error selecting folder"
         /\ Shell.selectedFolder after = Shell.selectedFolder a)
      \/ exists path w,
           Shell.open (world (Shell.machine a))
           = (Resolved (Shell.Single path), w)
           /\ path <> "" /\ Shell.selectedFolder after = path)
  /\ files (Shell.machine after) = files (Shell.machine a)
  /\ progress (Shell.machine after) = progress (Shell.machine a)
  /\ progress_log (Shell.machine after) = progress_log (Shell.machine a)
  /\ isScanning (Shell.machine after) = isScanning (Shell.machine a)
  /\ invoked (Shell.machine after) = invoked (Shell.machine a)
  /\ Shell.settings after = Shell.settings a
  /\ Shell.showSettings after = Shell.showSettings a.
Proof.
  intros after. subst after. unfold Shell.handleSelectFolder.
  assert (Hsame : forall (P : Prop) (x : string), x <> x -> P)
    by (intros P x Hx; exfalso; apply Hx; reflexivity).
  destruct (Shell.open (world (Shell.machine a)))
    as [[[|path|paths]|error] w] eqn:Hopen.
  - cbn. repeat split; try reflexivity; try apply Hsame. auto.
  - destruct (decide (path = "")) as [->|Hne]; cbn.
    + repeat split; try reflexivity; try apply Hsame. auto.
    + repeat split; try reflexivity.
      * intros _. exact Hne.
      * intros _. exists w. split; reflexivity.
      * intros _. right. exists path, w. auto.
  - cbn. repeat split; try reflexivity; try apply Hsame. auto.
  - cbn. repeat split; try reflexivity; try apply Hsame; [auto|].
    intros _. left. exists error, w. auto.
Qed.

Lemma handleSelectFolder_kept a :
  let after := Shell.handleSelectFolder a in
  (Shell.selectedFolder a <> "" -> Shell.selectedFolder after <> "")
  /\ files (Shell.machine after) = files (Shell.machine a)
  /\ progress (Shell.machine after) = progress (Shell.machine a)
  /\ isScanning (Shell.machine after) = isScanning (Shell.machine a).
Proof.
  intros after. subst after. unfold Shell.handleSelectFolder.
  destruct (Shell.open (world (Shell.machine a)))
    as [[[|path|paths]|error] w]; cbn; auto.
  destruct (decide (path = "")); cbn; auto.
Qed.

Lemma settled_initial (w : W) : Shell.settled (Shell.initial w).
Proof.
  unfold Shell.settled. cbn [Shell.initial Shell.machine files progress
                              isScanning Shell.selectedFolder].
  split; [intros Hcontra; contradiction|].
  split; [|reflexivity]. intros _.
  destruct num_literals as (-> & _). repeat split.
Qed.

Lemma settled_loadSettings a :
  Shell.settled a -> Shell.settled (Shell.loadSettings a).
Proof.
  unfold Shell.settled, Shell.loadSettings.
  destruct (Shell.load_settings (world (Shell.machine a)))
    as [[loaded|error] w]; cbn; auto.
Qed.

Lemma settled_step (e : Shell.Event) a :
  Shell.settled a -> Shell.settled (Shell.step e a).
Proof.
  intros Hs. destruct e; cbn [Shell.step].
  - apply settled_loadSettings, Hs.
  - destruct (handleSelectFolder_kept a)
      as (Hkeep & Hfiles & Hprogress & Hscan).
    destruct Hs as (Hfolder & Hp & Hsc). unfold Shell.settled.
    rewrite Hfiles, Hprogress, Hscan. auto.
  - unfold Shell.scan_disabled. case_bool_decide as Hfolder; [exact Hs|].
    destruct Hs as (Hinv & Hp & Hsc). rewrite Hsc.
    unfold Shell.settled.
    cbn [Shell.on_machine Shell.machine Shell.selectedFolder].
    destruct (Command.scan_folder (Shell.selectedFolder a)
                (world (Shell.machine a))) as [[scannedFiles|error] w']
      eqn:Hscan.
    + rewrite (handleStartScan_unfold _ _ _ _ Hfolder Hscan).
      cbn [files progress isScanning setIsScanning setStatusMessage
           setProgress setFiles].
      split; [intros _; exact Hfolder|]. split; [|reflexivity].
      intros Harrays.
      match goal with
      | |- context [resolution_pass scannedFiles ?entry] =>
          destruct (resolution_pass_frame scannedFiles entry) as (-> & _)
      end.
      destruct num_literals as (_ & _ & _ & ->).
      split; [exact (Harrays _ _ _ _ Hscan)|]. split; reflexivity.
    + rewrite (handleStartScan_rejected _ _ _ _ Hfolder Hscan).
      cbn [files progress isScanning].
      split; [exact Hinv|]. split; [|reflexivity].
      intros Harrays. destruct (Hp Harrays) as (Hlen & _).
      destruct num_literals as (_ & -> & _).
      split; [exact Hlen|]. split; reflexivity.
  - unfold Shell.apply_disabled.
    destruct (bool_decide (length (files (Shell.machine a)) = 0)
              || isScanning (Shell.machine a)) eqn:Hdis; [exact Hs|].
    apply orb_false_iff in Hdis. destruct Hdis as [Hlen _].
    apply bool_decide_eq_false in Hlen.
    destruct Hs as (Hinv & Hp & Hsc). unfold Shell.settled.
    cbn [Shell.on_machine Shell.machine Shell.selectedFolder].
    destruct (handleApplyChanges_kept (Shell.settings a)
                (Shell.selectedFolder a) (Shell.machine a)) as [-> Hsame].
    split; [|split; [|exact Hsc]].
    + intros _. apply Hinv. intros Hnil. rewrite Hnil in Hlen. apply Hlen.
      reflexivity.
    + intros Harrays. destruct (Hp Harrays) as (Hbound & _).
      rewrite Hsame, handleApplyChanges_ends_at_100 by (assumption || lia).
      split; [exact Hbound|]. split; reflexivity.
  - exact Hs.
  - exact Hs.
  - apply (settled_loadSettings a) in Hs. exact Hs.
Qed.

(** X17.  Whatever the user does, starting from the first render and
    with every handler run to completion: an inventory is only ever shown
    with a folder selected (so the folder test of the organize step cannot
    fail on a file that is applied), the progress stays between 0 and
    100 as a binary64 number (the scan results being arrays), and the
    scanning flag is cleared. *)
Theorem inventory_needs_a_folder (w : W) (events : list Shell.Event) :
  let a := Shell.run events (Shell.initial w) in
  (files (Shell.machine a) <> [] -> Shell.selectedFolder a <> "")
  /\ (Shell.array_results ->
      at_most zero (progress (Shell.machine a))
      /\ at_most (progress (Shell.machine a)) hundred)
  /\ isScanning (Shell.machine a) = false.
Proof.
  intros a. subst a.
  enough (Hrun : forall a, Shell.settled a ->
            Shell.settled (Shell.run events a)).
  { destruct (Hrun _ (settled_initial w)) as (Hfolder & Hp & Hsc).
    split; [exact Hfolder|]. split; [|exact Hsc].
    intros Harrays. apply (Hp Harrays). }
  induction events as [|e events IH]; intros a Hs; [exact Hs|].
  apply IH, settled_step, Hs.
Qed.
End ShellProperties.

(** * The further properties on the concrete backends *)

(** X4 on the concrete inventory, with the default settings. *)
Lemma apply_without_optional_steps_demo :
  let after :=
    handleApplyChanges (backend := Demo.backend) (Demo.settings false false)
      "/music" (Demo.boot Demo.annotated) in
  map path (files after) = map path Demo.annotated
  /\ map filename (files after) = map filename Demo.annotated
  /\ length (invoked after) = 3.
Proof.
  destruct (apply_without_optional_steps (backend := Demo.backend)
              (Demo.settings false false) "/music"
              (Demo.boot Demo.annotated) eq_refl (or_introl eq_refl))
    as (Hlog & Hpath & Hname & _).
  split; [exact Hpath|]. split; [exact Hname|].
  rewrite Hlog. reflexivity.
Defined.

(** X6 on the scanned folder before any lookup: nothing to apply. *)
Lemma apply_with_nothing_to_apply_demo :
  let after :=
    handleApplyChanges (backend := Demo.backend) (Demo.settings true true)
      "/music" (Demo.boot [Demo.one; Demo.untitled]) in
  invoked after = []
  /\ statusMessage after = "Completed! 0 files updated successfully".
Proof.
  destruct (apply_with_nothing_to_apply (backend := Demo.backend)
              (Demo.settings true true) "/music"
              (Demo.boot [Demo.one; Demo.untitled])
              ltac:(repeat constructor))
    as (_ & Hlog & _ & _ & Hstatus).
  split; assumption.
Defined.

(** X7 on the backend where every command succeeds: the file ends under
    the folder the organizer chose, with the filename the renamer gave. *)
Lemma optional_steps_chain_demo :
  let after :=
    handleApplyChanges (backend := Studio.backend) (Demo.settings true true)
      "/music" (Demo.boot Demo.annotated) in
  path <$> files after !! 0
  = Some "/music/House/Daft Punk - One More Time.mp3"
  /\ filename <$> files after !! 0 = Some "Daft Punk - One More Time.mp3".
Proof.
  destruct (optional_steps_chain (backend := Studio.backend)
              (Demo.settings true true) "/music" (Demo.boot Demo.annotated)
              0 _ tt 1 (Resolved "/music/Daft Punk - One More Time.mp3") 2
              (Resolved "/music/House/Daft Punk - One More Time.mp3") 3
              eq_refl eq_refl eq_refl eq_refl ltac:(discriminate)
              eq_refl eq_refl eq_refl)
    as (_ & _ & Hpath & Hname & _).
  split; assumption.
Defined.

(** X8 on the concrete inventory: the written first file. *)
Lemma apply_again_writes_the_same_demo :
  exists file',
    files Run.applied !! 0 = Some file'
    /\ applicable file' = true
    /\ effective file'
       = effective (Demo.with_suggestions [Demo.house] Demo.one).
Proof.
  destruct (apply_again_writes_the_same (backend := Demo.backend)
              (Demo.settings true true) "/music" (Demo.boot Demo.annotated)
              0 _ eq_refl) as (file' & Hfile & Happ & Heff).
  exists file'. split; [exact Hfile|]. split; [exact Happ | exact Heff].
Defined.

(** X9 on the concrete folder. *)
Lemma scan_fetches_each_eligible_file_once_demo :
  invoked (handleStartScan (backend := Demo.backend) "/music" (Demo.boot []))
  = [Scan_folder "/music";
     Fetch_metadata "Daft Punk" "One More Time";
     Fetch_metadata "Daft Punk" "Around the World";
     Fetch_metadata "Garage Band" "Demo"].
Proof.
  exact (scan_fetches_each_eligible_file_once (backend := Demo.backend)
           "/music" (Demo.boot [])
           [Demo.one; Demo.locked; Demo.untitled; Demo.obscure] 1
           ltac:(discriminate) eq_refl).
Defined.

(** X10 on the concrete folder. *)
Lemma scan_only_annotates_demo :
  let after :=
    handleStartScan (backend := Demo.backend) "/music" (Demo.boot []) in
  map path (files after)
  = ["/music/one.mp3"; "/music/locked.mp3"; "/music/track03.mp3";
     "/music/demo.mp3"]
  /\ statusMessage after = "Completed! Processed 4 files".
Proof.
  destruct (scan_only_annotates (backend := Demo.backend) "/music"
              (Demo.boot [])
              [Demo.one; Demo.locked; Demo.untitled; Demo.obscure] 1
              ltac:(discriminate) eq_refl)
    as (_ & Hpath & _ & _ & _ & _ & Hstatus & _).
  split; [exact Hpath | exact Hstatus].
Defined.

(** X11 on a folder the concrete backend cannot scan. *)
Lemma scan_failure_keeps_inventory_demo :
  let after :=
    handleStartScan (backend := Demo.backend) "/videos"
      (Demo.boot Demo.annotated) in
  files after = Demo.annotated
  /\ statusMessage after = "Error: not a directory"
  /\ progress after = ten.
Proof.
  destruct (scan_failure_keeps_inventory (backend := Demo.backend) "/videos"
              (Demo.boot Demo.annotated) (OtherValue "not a directory") 1
              ltac:(discriminate) eq_refl)
    as (Hfiles & Hstatus & _ & _ & Hprogress & _).
  split; [exact Hfiles|]. split; [exact Hstatus | exact Hprogress].
Defined.

(** X12 on the concrete folder of four files. *)
Lemma scan_progress_never_decreases_demo :
  progress_log
    (handleStartScan (backend := Demo.backend) "/music" (Demo.boot []))
  = ten :: fifty :: map (resolve_progress 4) (seq 0 4) ++ [hundred].
Proof.
  destruct (scan_progress_never_decreases (backend := Demo.backend) "/music"
              (Demo.boot [])
              [Demo.one; Demo.locked; Demo.untitled; Demo.obscure] 1
              ltac:(discriminate) eq_refl eq_refl) as (Hlog & _ & _).
  exact Hlog.
Defined.

(** X13 on the concrete inventory of four files. *)
Lemma apply_progress_never_decreases_demo :
  progress_log
    (handleApplyChanges (backend := Demo.backend) (Demo.settings true true)
       "/music" (Demo.boot Demo.annotated))
  = zero :: map (apply_progress 4) (seq 0 4).
Proof.
  destruct (apply_progress_never_decreases (backend := Demo.backend)
              (Demo.settings true true) "/music" (Demo.boot Demo.annotated)
              eq_refl) as (Hlog & _ & _).
  exact Hlog.
Defined.

(** X14 on the concrete folder: the first file after the scan. *)
Lemma applicable_after_scan_has_artist_and_title_demo :
  Metadata.title (effective (Demo.with_suggestions [Demo.house] Demo.one))
  = Some "One More Time".
Proof.
  destruct (applicable_after_scan_has_artist_and_title
              (backend := Demo.backend) "/music" (Demo.boot [])
              [Demo.one; Demo.locked; Demo.untitled; Demo.obscure] 1
              (Demo.with_suggestions [Demo.house] Demo.one)
              ltac:(discriminate) eq_refl ltac:(repeat constructor)
              ltac:(left; reflexivity) eq_refl)
    as (_ & Htitle & _).
  exact Htitle.
Defined.

(** X15 on the concrete inventory: the first file showed "House" as the
    new genre and shows it as the current genre after the pass. *)
Lemma list_shows_applied_genre_demo :
  exists file',
    files Run.applied !! 0 = Some file'
    /\ FileList.current_genre_cell (FileList.row file') = "House".
Proof.
  destruct (list_shows_applied_genre (backend := Demo.backend)
              (Demo.settings true true) "/music" (Demo.boot Demo.annotated)
              0 _ tt 1 eq_refl eq_refl eq_refl)
    as (file' & Hfile & Hcell & _).
  exists file'. split; [exact Hfile | exact Hcell].
Defined.

(** X16 on the dialog that offers [/music] and on the dialog that cannot
    be opened, after [/music] was chosen. *)
Lemma select_folder_never_clears_demo :
  let chosen :=
    Shell.handleSelectFolder (services := Studio.services) (Shell.initial 0) in
  let failed :=
    Shell.handleSelectFolder (services := Studio.headless) chosen in
  Shell.selectedFolder chosen = "/music"
  /\ statusMessage (Shell.machine chosen) = "Selected: /music"
  /\ Shell.selectedFolder failed = "/music"
  /\ statusMessage (Shell.machine failed) = "Error selecting folder".
Proof.
  intros chosen failed.
  pose proof (select_folder_never_clears (services := Studio.services)
                (Shell.initial 0)) as Hchosen.
  pose proof (select_folder_never_clears (services := Studio.headless) chosen) as Hfailed.
  cbv zeta in Hchosen, Hfailed. fold chosen in Hchosen. fold failed in Hfailed.
  destruct Hchosen as (((Hfolder & Hstatus) & _) & _).
  destruct Hfailed as ((Hfstatus & Hffolder & _) & _).
  rewrite Hffolder. repeat split; assumption.
Defined.

(** X17 on the backend where every command succeeds, whose scan results
    have one entry: after choosing [/music], scanning and applying, the
    inventory is shown under that folder and the progress is at most
    100. *)
Lemma inventory_needs_a_folder_demo :
  let a :=
    Shell.run (backend := Studio.backend) (services := Studio.services)
      [Shell.Mount; Shell.ClickSelectFolder; Shell.ClickScan;
       Shell.ClickApply]
      (Shell.initial 0) in
  Shell.selectedFolder a <> ""
  /\ at_most zero (progress (Shell.machine a))
  /\ at_most (progress (Shell.machine a)) hundred.
Proof.
  destruct (inventory_needs_a_folder (backend := Studio.backend)
              (services := Studio.services) 0
              [Shell.Mount; Shell.ClickSelectFolder; Shell.ClickScan;
               Shell.ClickApply])
    as (Hfolder & Hprogress & _).
  split; [apply Hfolder; discriminate|].
  apply Hprogress. intros path w scannedFiles w' Hscan.
  injection Hscan as <- _. cbn [length]. lia.
Defined.

(** ** The component end to end *)

(** Start-up without a readable settings store, then choosing [/music],
    scanning and applying on the backend where every command succeeds. *)
Example first_session :
  let a :=
    Shell.run (backend := Studio.backend) (services := Studio.services)
      [Shell.Mount; Shell.ClickApply; Shell.ClickScan;
       Shell.ClickSelectFolder; Shell.ClickScan; Shell.ClickApply]
      (Shell.initial 0) in
  Shell.selectedFolder a = "/music"
  /\ Shell.settings a = Shell.defaults
  /\ statusMessage (Shell.machine a)
     = "Completed! 1 files updated successfully"
  /\ invoked (Shell.machine a)
     = [Scan_folder "/music";
        Fetch_metadata "Daft Punk" "One More Time";
        update_of Shell.defaults
          (Demo.with_suggestions [Demo.house] Demo.one)]
  /\ FileList.render (files (Shell.machine a))
     = FileList.Rows
         [FileList.mkRow "one.mp3" "House" "House"
            (Some (FileList.mkBadge (FileList.badge_class High) High))].
Proof. repeat split; reflexivity. Qed.
